(** * memfs: an in-memory file system

    A shallow embedding of [pkg/memfs] (file.go, fileinfo.go, open.go): the
    growable byte buffer behind a file node, the directory tree with its
    parent links, listing cursor and path resolution, and the file system
    a directory offers.

    Modelling conventions.
    - A Go [[]byte] is a backing array together with a length; its capacity
      is the length of the backing array.  The nil slice is kept apart from
      an empty one, because [grow] tests for it.
    - A [*File] is a location in a heap of [File] records, so that the parent
      link of a child and the entry of its directory can name one object.
    - A panic is an outcome of its own, distinct from a returned error; a
      call that never returns is the outcome [Diverge].
    - [int] and [int64] values are integers; the sums the code forms with an
      offset or a count supplied by the caller are wrapped to 64 bits.
      Lengths and capacities are sizes of lists: neither the limit of the
      runtime on one allocation, [maxAlloc], nor the limit of the machine's
      memory is part of [make].  The statements that a call returns after
      allocating a size its caller chooses assume that size to be at most
      [maxAlloc]. *)

From Stdlib.Strings Require Import Byte Ascii String.
From Stdlib Require Import ZArith.
From stdpp Require Import gmap strings list fin_maps sorting.

Open Scope Z_scope.

(** ** Outcomes of a call *)

Inductive error :=
  | ErrInvalid                 (* fs.ErrInvalid *)
  | ErrExist                   (* fs.ErrExist *)
  | ErrNotExist                (* fs.ErrNotExist *)
  | ErrOutOfBounds
  | ErrHasParent
  | errWriteAtInAppendMode
  | EOF                        (* io.EOF *)
  | ErrTooLarge                (* bytes.ErrTooLarge *)
  | EISDIR | ENOTDIR | EINVAL | ENOENT   (* syscall.Errno *)
  | ReaderError (msg : string) (* an error of an external io.Reader *)
  | PathError (Op Path : string) (Err : error).

Inductive panic_value :=
  | PanicError (e : error)
  | PanicMessage (msg : string)
  | PanicRuntime (msg : string).

Inductive outcome (A : Type) :=
  | Ret (a : A)
  | Panic (v : panic_value)
  | Diverge.
Arguments Ret {A} a.
Arguments Panic {A} v.
Arguments Diverge {A}.

#[global] Instance outcome_ret : MRet outcome := @Ret.
#[global] Instance outcome_bind : MBind outcome := fun A B f m =>
  match m with
  | Ret a => f a
  | Panic v => Panic v
  | Diverge => Diverge
  end.

(** ** Integers *)

(** The value an [int] or [int64] holds after an addition or subtraction. *)
Definition wrap64 (z : Z) : Z := (z + 2 ^ 63) mod 2 ^ 64 - 2 ^ 63.

Definition max_int64 : Z := 2 ^ 63 - 1.
Definition min_int64 : Z := - 2 ^ 63.

(** ** Byte slices *)

Record slice := Slice { arr : list byte; len : nat }.

(** [cap(b)], [len(b)] and the bytes [b] shows, for a possibly nil slice. *)
Definition bcap (b : option slice) : Z :=
  match b with Some s => Z.of_nat (length (arr s)) | None => 0 end.
Definition blen (b : option slice) : Z :=
  match b with Some s => Z.of_nat (len s) | None => 0 end.
Definition bytes_of (b : option slice) : list byte :=
  match b with Some s => take (len s) (arr s) | None => [] end.
Definition backing (b : option slice) : list byte :=
  match b with Some s => arr s | None => [] end.

Definition is_nil (b : option slice) : bool :=
  match b with Some _ => false | None => true end.

Definition zeros (n : nat) : list byte := replicate n x00.

(** [b[:k]]: the upper bound may reach the capacity. *)
Definition reslice (b : option slice) (k : Z) : outcome (option slice) :=
  if (0 <=? k) && (k <=? bcap b) then
    match b with
    | Some s => Ret (Some (Slice (arr s) (Z.to_nat k)))
    | None => Ret None
    end
  else Panic (PanicRuntime "slice bounds out of range").

(** [copy(b[off:], p)]: the lower bound may reach the length only; the
    number of bytes copied is the smaller of the two lengths. *)
Definition copy_at (b : option slice) (off : Z) (p : list byte)
  : outcome (option slice * Z) :=
  if (0 <=? off) && (off <=? blen b) then
    match b with
    | Some s =>
        let o := Z.to_nat off in
        let n := Nat.min (len s - o) (length p) in
        Ret (Some (Slice (take o (arr s) ++ take n p ++ drop (o + n) (arr s))
                         (len s)),
             Z.of_nat n)
    | None => Ret (None, 0)
    end
  else Panic (PanicRuntime "slice bounds out of range").

(** [make([]byte, n, c)] *)
Definition make (n c : Z) : outcome (option slice) :=
  if (0 <=? n) && (n <=? c) then
    Ret (Some (Slice (zeros (Z.to_nat c)) (Z.to_nat n)))
  else Panic (PanicRuntime "makeslice: len out of range").

(** The largest allocation the runtime accepts on a 64-bit platform: its
    heap addresses have 48 bits.  [make] panics for a larger size. *)
Definition maxAlloc : Z := 2 ^ 48.

(** [makeSlice] allocates a slice of size n; a failing [make] panics with
    [bytes.ErrTooLarge].  The [make] of this model fails for a negative
    size only: it has neither the limit [maxAlloc] of the runtime nor the
    limit of the machine's memory.  A statement that a call returns after
    allocating a size its caller chooses therefore carries the bound
    [maxAlloc] on that size as a hypothesis. *)
Definition makeSlice (n : Z) : outcome slice :=
  if n <? 0 then Panic (PanicError ErrTooLarge)
  else Ret (Slice (zeros (Z.to_nat n)) (Z.to_nat n)).

(** [copy(tmp, b)] followed by keeping [tmp]. *)
Definition copy_into (tmp : slice) (b : option slice) : slice :=
  let n := Nat.min (len tmp) (Z.to_nat (blen b)) in
  Slice (take n (bytes_of b) ++ drop n (arr tmp)) (len tmp).

(** [zeroOutSlice(b[from:])] *)
Definition zeroOutSlice_from (b : option slice) (from : Z)
  : outcome (option slice) :=
  if (0 <=? from) && (from <=? blen b) then
    match b with
    | Some s =>
        let o := Z.to_nat from in
        Ret (Some (Slice (take o (arr s) ++ zeros (len s - o)
                            ++ drop (len s) (arr s)) (len s)))
    | None => Ret None
    end
  else Panic (PanicRuntime "slice bounds out of range").

(** ** Names and paths (path/filepath, io/fs, strings, unicode/utf8) *)

Definition slash : ascii := "/"%char.

(** [strings.Split(s, "/")] *)
Fixpoint Split (s : string) : list string :=
  match s with
  | EmptyString => [EmptyString]
  | String c s' =>
      if Ascii.eqb c slash then EmptyString :: Split s'
      else match Split s' with
           | x :: xs => String c x :: xs
           | [] => [String c EmptyString]
           end
  end.

(** [strings.Contains(s, "/")] *)
Fixpoint contains_slash (s : string) : bool :=
  match s with
  | EmptyString => false
  | String c s' => Ascii.eqb c slash || contains_slash s'
  end.

(** What a multi-byte UTF-8 sequence still expects. *)
Inductive utf8_state :=
  | Tail (more : nat)   (* a byte 80..BF, then [more] further ones *)
  | AfterE0             (* A0..BF, then one more *)
  | AfterED             (* 80..9F, then one more *)
  | AfterF0             (* 90..BF, then two more *)
  | AfterF4.            (* 80..8F, then two more *)

Definition in_range (lo hi b : N) : bool := ((lo <=? b) && (b <=? hi))%N.

Definition utf8_lead (b : N) : option (option utf8_state) :=
  if (b <? 128)%N then Some None
  else if in_range 194 223 b then Some (Some (Tail 0))
  else if (b =? 224)%N then Some (Some AfterE0)
  else if in_range 225 236 b || in_range 238 239 b then Some (Some (Tail 1))
  else if (b =? 237)%N then Some (Some AfterED)
  else if (b =? 240)%N then Some (Some AfterF0)
  else if in_range 241 243 b then Some (Some (Tail 2))
  else if (b =? 244)%N then Some (Some AfterF4)
  else None.

Definition utf8_next (st : utf8_state) (b : N) : option (option utf8_state) :=
  let tail n := match n with O => None | S m => Some (Tail m) end in
  match st with
  | Tail n => if in_range 128 191 b then Some (tail n) else None
  | AfterE0 => if in_range 160 191 b then Some (Some (Tail 0)) else None
  | AfterED => if in_range 128 159 b then Some (Some (Tail 0)) else None
  | AfterF0 => if in_range 144 191 b then Some (Some (Tail 1)) else None
  | AfterF4 => if in_range 128 143 b then Some (Some (Tail 1)) else None
  end.

Fixpoint utf8_go (st : option utf8_state) (s : string) : bool :=
  match s with
  | EmptyString => match st with None => true | Some _ => false end
  | String c s' =>
      let b := N_of_ascii c in
      match (match st with None => utf8_lead b | Some u => utf8_next u b end) with
      | Some st' => utf8_go st' s'
      | None => false
      end
  end.

(** [utf8.ValidString] *)
Definition ValidString (s : string) : bool := utf8_go None s.

Definition valid_elem (e : string) : bool :=
  negb (String.eqb e "" || String.eqb e "." || String.eqb e "..").

(** [fs.ValidPath]: valid UTF-8, and either "." or slash-separated elements
    none of which is empty, "." or "..". *)
Definition ValidPath (name : string) : bool :=
  ValidString name && (String.eqb name "." || forallb valid_elem (Split name)).

Definition nonempty (e : string) : bool := negb (String.eqb e "").

(** [filepath.Base]: the last element of the path, trailing slashes
    removed; "." for the empty path and "/" for a path of slashes only. *)
Definition Base (path : string) : string :=
  if String.eqb path "" then "."
  else match last (List.filter nonempty (Split path)) with
       | Some e => e
       | None => "/"
       end.

Definition clean_step (rooted : bool) (stk : list string) (e : string)
  : list string :=
  if String.eqb e "" || String.eqb e "." then stk
  else if String.eqb e ".." then
    match stk with
    | top :: rest => if String.eqb top ".." then e :: stk else rest
    | [] => if rooted then [] else [e]
    end
  else e :: stk.

(** [filepath.Clean]: the shortest equivalent path, by dropping empty and
    "." elements, and ".." elements with the element before them. *)
Definition Clean (path : string) : string :=
  if String.eqb path "" then "."
  else
    let rooted := match path with String c _ => Ascii.eqb c slash | _ => false end in
    let s := String.concat "/" (rev (fold_left (clean_step rooted) (Split path) [])) in
    if rooted then String slash s
    else if String.eqb s "" then "." else s.

(** [filepath.Join]: empty elements are ignored, the result is cleaned; the
    empty string when there is nothing to join. *)
Definition Join (elems : list string) : string :=
  match List.filter nonempty elems with
  | [] => ""
  | es => Clean (String.concat "/" es)
  end.

(** ** Nodes *)

Definition ModeDir : Z := 2 ^ 31.
Definition ModeSymlink : Z := 2 ^ 27.
Definition ModeDevice : Z := 2 ^ 26.
Definition ModeNamedPipe : Z := 2 ^ 25.
Definition ModeSocket : Z := 2 ^ 24.
Definition ModeCharDevice : Z := 2 ^ 21.
Definition ModeIrregular : Z := 2 ^ 19.
Definition ModeType : Z :=
  Z.lor ModeDir (Z.lor ModeSymlink (Z.lor ModeNamedPipe (Z.lor ModeSocket
    (Z.lor ModeDevice (Z.lor ModeCharDevice ModeIrregular))))).

Definition O_APPEND : Z := 1024.

(** [smallBufferSize] is an initial allocation minimal capacity. *)
Definition smallBufferSize : Z := 64.
(** [bytes.MinRead] *)
Definition MinRead : Z := 512.

Record FileInfo := mkFileInfo {
  info_name : string;
  info_size : Z;
  info_mode : Z;
}.

Abbreviation loc := positive.

Record File := mkFile {
  off : Z;                     (* current offset for read and write *)
  buf : option slice;          (* underlying buffer *)
  flag : Z;                    (* instance flags *)
  info : FileInfo;             (* the file or directory information *)
  parent : option loc;         (* parent directory, nil for the root *)
  cursor : Z;                  (* ReadDir cursor *)
  entries : gmap string loc;   (* entries of a directory *)
}.

Abbreviation heap := (gmap positive File).

Definition set_off (fil : File) (v : Z) : File :=
  mkFile v (buf fil) (flag fil) (info fil) (parent fil) (cursor fil) (entries fil).
Definition set_buf (fil : File) (b : option slice) : File :=
  mkFile (off fil) b (flag fil) (info fil) (parent fil) (cursor fil) (entries fil).
Definition set_flag (fil : File) (v : Z) : File :=
  mkFile (off fil) (buf fil) v (info fil) (parent fil) (cursor fil) (entries fil).
Definition set_info (fil : File) (i : FileInfo) : File :=
  mkFile (off fil) (buf fil) (flag fil) i (parent fil) (cursor fil) (entries fil).
Definition set_parent (fil : File) (p : option loc) : File :=
  mkFile (off fil) (buf fil) (flag fil) (info fil) p (cursor fil) (entries fil).
Definition set_cursor (fil : File) (v : Z) : File :=
  mkFile (off fil) (buf fil) (flag fil) (info fil) (parent fil) v (entries fil).
Definition set_entries (fil : File) (e : gmap string loc) : File :=
  mkFile (off fil) (buf fil) (flag fil) (info fil) (parent fil) (cursor fil) e.

(** The methods of [FileInfo]. *)
Definition info_Name (fi : FileInfo) : string := Base (info_name fi).
Definition info_IsDir (fi : FileInfo) : bool :=
  negb (Z.land (info_mode fi) ModeDir =? 0).
Definition info_Type (fi : FileInfo) : Z := Z.land (info_mode fi) ModeType.

Definition Name (fil : File) : string := info_Name (info fil).
Definition IsDir (fil : File) : bool := info_IsDir (info fil).
Definition Type_ (fil : File) : Z := info_Type (info fil).
Definition Len (fil : File) : Z := blen (buf fil).
Definition Cap (fil : File) : Z := bcap (buf fil).
Definition Offset (fil : File) : Z := off fil.
Definition appending (fil : File) : bool :=
  negb (Z.land (flag fil) O_APPEND =? 0).

(** [Size]: always 4096 for directories. *)
Definition Size (fil : File) : Z :=
  if negb (IsDir fil) then blen (buf fil) else info_size (info fil).

(** [path] returns the full path of the instance, including the parent's
    path if it's not the root.  The recursion follows the parent links; it
    is cut after [fuel] nodes. *)
Fixpoint path_go (fuel : nat) (h : heap) (fil : File) : outcome string :=
  match fuel with
  | O => Diverge
  | S k =>
      let pth := Name fil in
      match parent fil with
      | Some pl =>
          match h !! pl with
          | Some pf =>
              par ← path_go k h pf;
              if String.eqb par "" then Ret pth else Ret (Join [par; pth])
          | None => Panic (PanicRuntime "invalid memory address")
          end
      | None => Ret pth
      end
  end.

(** A chain of parents without a cycle has at most as many nodes as the
    heap; with that much fuel the cut is reached on a cycle only. *)
Definition path (h : heap) (fil : File) : outcome string :=
  path_go (S (size h)) h fil.

Definition path_error (h : heap) (fil : File) (op : string) (e : error)
  : outcome error :=
  pth ← path h fil; Ret (PathError op pth e).

(** ** Constructors and their options *)

Definition WithFileOffset (o : Z) : File → File := fun fil => set_off fil o.
Definition WithFileAppend : File → File :=
  fun fil => set_flag fil (Z.lor (flag fil) O_APPEND).
Definition WithFileFlag (fl : Z) : File → File := fun fil => set_flag fil fl.

(** A slice literal [[]byte{...}]: its capacity is its length. *)
Definition bytes_lit (l : list byte) : option slice :=
  Some (Slice l (length l)).

(** [FileWith] creates a new instance of [File] initialized with content.
    It panics with [ErrOutOfBounds] if an option sets the offset to a
    negative number or beyond the length of the content. *)
Definition FileWith (name : string) (content : option slice)
    (opts : list (File → File)) : outcome (option File * option error) :=
  if negb (ValidPath name) || contains_slash name then
    Ret (None, Some ErrInvalid)
  else
    let fil := mkFile 0 content 0 (mkFileInfo name (blen content) 384) None 0 ∅ in
    let fil := foldl (fun f opt => opt f) fil opts in
    if (off fil <? 0) || (off fil >? blen (buf fil)) then
      Panic (PanicError ErrOutOfBounds)
    else Ret (Some fil, None).

(** [NewFile]: an empty file with an initial capacity of [bytes.MinRead]. *)
Definition NewFile (name : string) (opts : list (File → File))
  : outcome (option File * option error) :=
  FileWith name (Some (Slice (zeros (Z.to_nat MinRead)) 0)) opts.

Definition NewDirectory (name : string) : outcome (option File * option error) :=
  r ← FileWith name None [];
  match r with
  | (Some dir, None) =>
      Ret (Some (set_info dir (mkFileInfo (info_name (info dir)) 4096
                                          (Z.lor 448 ModeDir))), None)
  | (_, err) => Ret (None, err)
  end.

Definition NewRoot : File :=
  mkFile 0 None 0 (mkFileInfo "" 4096 (Z.lor 448 ModeDir)) None 0 ∅.

(** ** The buffer of a file node *)

(** [tryGrowByReslice] is the fast case of [grow], where the internal
    buffer only needs to be resliced.  It returns whether it succeeded. *)
Definition tryGrowByReslice (fil : File) (n : Z) : outcome (File * bool) :=
  if n <=? blen (buf fil) - off fil then Ret (fil, true)
  else if n <=? bcap (buf fil) - off fil then
    b ← reslice (buf fil) (off fil + n);
    Ret (set_buf fil b, true)
  else Ret (fil, false).

(** [grow] grows the buffer's capacity to guarantee space for n more bytes;
    the length of the buffer changes.  The size it asks for is not
    wrapped: a capacity is at most [maxAlloc], and n is the length of a
    slice, [MinRead], or a count that the statements about [Truncate] and
    [WriteAt] bound. *)
Definition grow (fil : File) (n : Z) : outcome File :=
  '(fil, ok) ← tryGrowByReslice fil n;
  if ok : bool then Ret fil
  else
    if is_nil (buf fil) && (n <=? smallBufferSize) then
      b ← make n smallBufferSize; Ret (set_buf fil b)
    else
      tmp ← makeSlice (bcap (buf fil) * 2 + n);
      Ret (set_buf fil (Some (copy_into tmp (buf fil)))).

(** [write] writes p at the current offset. *)
Definition write (fil : File) (p : list byte) : outcome (File * Z) :=
  let fil := if appending fil then set_off fil (blen (buf fil)) else fil in
  let l := blen (buf fil) in
  fil ← grow fil (Z.of_nat (length p));
  '(b, n) ← copy_at (buf fil) (off fil) p;
  let fil := set_off (set_buf fil b) (off fil + n) in
  let l := if off fil >? l then off fil else l in
  b ← reslice (buf fil) l;
  Ret (set_buf fil b, n).

(** [Write] writes the contents of p at the current offset, growing the
    buffer as needed; an error when the file represents a directory. *)
Definition Write (h : heap) (fil : File) (p : list byte)
  : outcome (File * (Z * option error)) :=
  if IsDir fil then
    e ← path_error h fil "write" EISDIR; Ret (fil, (0, Some e))
  else
    '(fil, n) ← write fil p; Ret (fil, (n, None)).

Definition WriteByte (h : heap) (fil : File) (b : byte)
  : outcome (File * option error) :=
  if IsDir fil then
    e ← path_error h fil "write" EISDIR; Ret (fil, Some e)
  else
    '(fil, _) ← write fil [b]; Ret (fil, None).

(** [WriteAt] writes p at the offset [o]; it does not change the offset of
    the file. *)
Definition WriteAt (h : heap) (fil : File) (p : list byte) (o : Z)
  : outcome (File * (Z * option error)) :=
  if IsDir fil then
    e ← path_error h fil "write" EISDIR; Ret (fil, (0, Some e))
  else if appending fil then Ret (fil, (0, Some errWriteAtInAppendMode))
  else
    let prev := off fil in
    let c := bcap (buf fil) in
    let pl := Z.of_nat (length p) in
    fil ← (if wrap64 (o + pl) >? c then
             let fil := set_off fil c in
             fil ← grow fil (wrap64 (wrap64 (o + pl) - blen (buf fil)));
             b ← reslice (buf fil) (wrap64 (o + pl));
             Ret (set_buf fil b)
           else Ret fil);
    let fil := set_off fil o in
    '(fil, n) ← write fil p;
    Ret (set_off fil prev, (n, None)).

(** [b[off:]], the bytes a read copies from. *)
Definition slice_from (b : option slice) (off : Z) : outcome (list byte) :=
  if (0 <=? off) && (off <=? blen b) then Ret (drop (Z.to_nat off) (bytes_of b))
  else Panic (PanicRuntime "slice bounds out of range").

(** [Read] reads the next len(p) bytes at the current offset or until the
    buffer is drained.  The destination is given by its length [k]; the
    bytes copied into it are returned together with their count. *)
Definition Read (h : heap) (fil : File) (k : nat)
  : outcome (File * (list byte * Z * option error)) :=
  if IsDir fil then
    e ← path_error h fil "read" EISDIR; Ret (fil, ([], 0, Some e))
  else if (0 <? Z.of_nat k) && (off fil >=? blen (buf fil)) then
    Ret (fil, ([], 0, Some EOF))
  else
    src ← slice_from (buf fil) (off fil);
    let data := take k src in
    let n := Z.of_nat (length data) in
    Ret (set_off fil (off fil + n), (data, n, None)).

Definition ReadAt (h : heap) (fil : File) (k : nat) (o : Z)
  : outcome (File * (list byte * Z * option error)) :=
  if IsDir fil then
    e ← path_error h fil "read" EISDIR; Ret (fil, ([], 0, Some e))
  else
    let prev := off fil in
    '(fil, (data, n, err)) ← Read h (set_off fil o) k;
    let fil := set_off fil prev in
    match err with
    | Some e => Ret (fil, (data, n, Some e))
    | None =>
        if n <? Z.of_nat k then Ret (fil, (data, n, Some EOF))
        else Ret (fil, (data, n, None))
    end.

(** The offset [Seek] computes: whence 0 is relative to the origin of the
    file, 1 to the current offset, 2 to the end; the variable keeps its
    zero value for any other whence. *)
Definition seek_target (fil : File) (offset whence : Z) : Z :=
  if whence =? 0 then offset
  else if whence =? 1 then wrap64 (off fil + offset)
  else if whence =? 2 then wrap64 (blen (buf fil) + offset)
  else 0.

(** [Seek] sets the offset for the next Read or Write; an error when the
    computed offset is negative. *)
Definition Seek (h : heap) (fil : File) (offset whence : Z)
  : outcome (File * (Z * option error)) :=
  if IsDir fil then
    e ← path_error h fil "seek" EISDIR; Ret (fil, (0, Some e))
  else
    let o := seek_target fil offset whence in
    if o <? 0 then
      e ← path_error h fil "seek" EINVAL; Ret (fil, (0, Some e))
    else Ret (set_off fil o, (o, None)).

(** [Truncate] changes the size of the buffer, discarding the bytes at the
    offsets greater than size. *)
Definition Truncate (h : heap) (fil : File) (size : Z)
  : outcome (File * option error) :=
  if IsDir fil then
    e ← path_error h fil "truncate" EISDIR; Ret (fil, Some e)
  else if size <? 0 then
    e ← path_error h fil "truncate" EINVAL; Ret (fil, Some e)
  else
    let prev := off fil in
    let l := blen (buf fil) in
    let c := bcap (buf fil) in
    fil ← (if size =? l then Ret fil
           else if size =? c then
             b ← reslice (buf fil) size; Ret (set_buf fil b)
           else if (size >? l) && (size <? c) then
             b ← reslice (buf fil) size; Ret (set_buf fil b)
           else if size >? c then
             let fil := set_off fil c in
             fil ← grow fil (size - l);
             b ← reslice (buf fil) size; Ret (set_buf fil b)
           else
             b ← zeroOutSlice_from (buf fil) size;
             b ← reslice b size; Ret (set_buf fil b));
    Ret (set_off fil prev, None).

(** [Grow] grows the buffer's capacity, if necessary, to guarantee space
    for another n bytes.  If n is negative, Grow will panic. *)
Definition Grow (fil : File) (n : Z) : outcome File :=
  if n <? 0 then Panic (PanicMessage "memfs.File.Grow: negative count")
  else if IsDir fil then Ret fil
  else
    let l := blen (buf fil) in
    if wrap64 (l + n) <=? bcap (buf fil) then Ret fil
    else
      tmp ← makeSlice (wrap64 (l + n));
      b ← reslice (Some (copy_into tmp (buf fil))) l;
      Ret (set_buf fil b).

(** [io.ReadAll]: reads into the free capacity of a buffer that starts
    with 512 bytes, until an error or the end of the data; [next_cap] is
    the capacity [append] picks for a full buffer. *)
Fixpoint ReadAll_go (fuel : nat) (next_cap : nat → nat) (h : heap)
    (fil : File) (b : list byte) (c : nat)
  : outcome (File * (list byte * option error)) :=
  match fuel with
  | O => Diverge
  | S k =>
      '(fil, (data, _, err)) ← Read h fil (c - length b)%nat;
      let b := b ++ data in
      match err with
      | Some EOF => Ret (fil, (b, None))
      | Some e => Ret (fil, (b, Some e))
      | None =>
          ReadAll_go k next_cap h fil b
            (if (length b =? c)%nat then next_cap c else c)
      end
  end.

Definition ReadAll (fuel : nat) (next_cap : nat → nat) (h : heap) (fil : File)
  : outcome (File * (list byte * option error)) :=
  ReadAll_go fuel next_cap h fil [] 512.

(** ** Reading from an external reader *)

(** An [io.Reader] that hands out a fixed sequence of chunks, each with
    the error it reports once the chunk is consumed, and [io.EOF] after the
    last one.  A reader may use all of its destination as scratch space:
    [chunk_scratch] holds the bytes the call that ends the chunk leaves in
    the destination behind the bytes it returns, as far as there is room
    for them. *)
Record chunk := Chunk {
  chunk_data : list byte;
  chunk_err : option error;
  chunk_scratch : list byte;
}.

(** [r.Read(p)] for a destination of length [k]: the reader that is left,
    the bytes returned, the bytes left behind them in [p], the error. *)
Definition reader_Read (r : list chunk) (k : nat)
  : list chunk * (list byte * list byte * option error) :=
  match r with
  | [] => ([], ([], [], Some EOF))
  | Chunk d e g :: r' =>
      if (length d <=? k)%nat then (r', (d, take (k - length d) g, e))
      else (Chunk (drop k d) e g :: r', (take k d, [], None))
  end.

(** A reader that leaves its destination alone behind the bytes it
    returns. *)
Definition tidy (r : list chunk) : Prop :=
  Forall (λ c, chunk_scratch c = []) r.

(** The backing array after a reader stored [data] from index [l] on; the
    callers store no more than the array holds from there. *)
Definition store_at (b : option slice) (l : nat) (data : list byte)
  : option slice :=
  match b with
  | Some s =>
      Some (Slice (take l (arr s) ++ data ++ drop (l + length data) (arr s))
                  (len s))
  | None => None
  end.

(** [zeroOutSlice] of the backing array from index [from] to the capacity. *)
Definition zero_to_cap (b : option slice) (from : nat) : option slice :=
  match b with
  | Some s =>
      Some (Slice (take from (arr s) ++ zeros (length (arr s) - from)) (len s))
  | None => None
  end.

(** The loop of [ReadFrom]. *)
Fixpoint ReadFrom_go (fuel : nat) (fil : File) (r : list chunk) (total : Z)
  : outcome (File * list chunk * (Z * option error)) :=
  match fuel with
  | O => Diverge
  | S k =>
      let l := blen (buf fil) in
      fil ← grow fil MinRead;
      let tmp_len := Z.to_nat (bcap (buf fil) - l) in
      let '(r, (data, junk, err)) := reader_Read r tmp_len in
      let n := Z.of_nat (length data) in
      let b := store_at (buf fil) (Z.to_nat l) (data ++ junk) in
      b ← (if negb (l =? off fil) then
             '(b, _) ← copy_at b (off fil) data;
             if n <? Z.of_nat tmp_len
             then Ret (zero_to_cap b (Z.to_nat (l + n)))
             else Ret b
           else Ret b);
      let fil := set_off (set_buf fil b) (off fil + n) in
      let total := total + n in
      let l := if off fil >? l then off fil else l in
      b ← reslice (buf fil) l;
      let fil := set_buf fil b in
      match err with
      | Some EOF => Ret (fil, r, (total, None))
      | Some e => Ret (fil, r, (total, Some e))
      | None => ReadFrom_go k fil r total
      end
  end.

(** [ReadFrom] reads data from r until EOF and appends it to the buffer at
    the current offset, growing the buffer as needed. *)
Definition ReadFrom (fuel : nat) (h : heap) (fil : File) (r : list chunk)
  : outcome (File * list chunk * (Z * option error)) :=
  if IsDir fil then
    e ← path_error h fil "write" EISDIR; Ret (fil, r, (0, Some e))
  else
    let fil := if appending fil then set_off fil (blen (buf fil)) else fil in
    ReadFrom_go fuel fil r 0.

(** ** Directories *)

Definition deref (h : heap) (l : loc) : outcome File :=
  match h !! l with
  | Some fil => Ret fil
  | None => Panic (PanicRuntime "invalid memory address")
  end.

(** [Stat]: the size is computed at the time of the call. *)
Definition Stat (fil : File) : FileInfo * option error :=
  (mkFileInfo (info_name (info fil)) (Size fil) (info_mode (info fil)), None).

(** [AddFile] adds the file [c] to the directory [d]. *)
Definition AddFile (h : heap) (d c : loc) : outcome (heap * option error) :=
  fil ← deref h d;
  file ← deref h c;
  if negb (IsDir fil) then
    Ret (h, Some (PathError "open" (Join [info_name (info fil); Name file])
                            ENOTDIR))
  else if bool_decide (parent file ≠ None) then
    pth ← path h file;
    Ret (h, Some (PathError "AddFile" pth ErrHasParent))
  else if negb ((Type_ file =? ModeDir) || (Type_ file =? 0)) then
    Ret (h, Some ErrInvalid)
  else
    let name := Name file in
    match entries fil !! name with
    | Some _ => Ret (h, Some ErrExist)
    | None =>
        let h := <[d := set_entries fil (<[name := c]> (entries fil))]> h in
        file ← deref h c;
        Ret (<[c := set_parent file (Some d)]> h, None)
    end.

(** [slices.Sorted(maps.Keys(fil.entries))] *)
Definition sorted_names (fil : File) : list string :=
  merge_sort String.le (map fst (map_to_list (entries fil))).

(** [names[i]] *)
Definition index (names : list string) (i : Z) : outcome string :=
  if i <? 0 then Panic (PanicRuntime "index out of range")
  else match names !! Z.to_nat i with
       | Some x => Ret x
       | None => Panic (PanicRuntime "index out of range")
       end.

(** The loop of [ReadDir] over [names[i]], for [cnt] indices from [i]. *)
Fixpoint read_entries (h : heap) (fil : File) (names : list string)
    (i : Z) (cnt : nat) : outcome (list FileInfo) :=
  match cnt with
  | O => Ret []
  | S k =>
      name ← index names i;
      l ← match entries fil !! name with
          | Some l => Ret l
          | None => Panic (PanicRuntime "invalid memory address")
          end;
      file ← deref h l;
      rest ← read_entries h fil names (i + 1) k;
      Ret (fst (Stat file) :: rest)
  end.

(** [ReadDir]: the entries in the order of their names, from the cursor
    on; all that remain when n <= 0.  [make] panics for a capacity that is
    out of range: the difference of the end and the cursor is negative in
    the integers only when the sum of the cursor and n has wrapped, and the
    [int] it then wraps back to is an n that no allocation holds. *)
Definition ReadDir (h : heap) (fil : File) (n : Z)
  : outcome (File * (option (list FileInfo) * option error)) :=
  if negb (IsDir fil) then
    e ← path_error h fil "ReadDir" ENOTDIR; Ret (fil, (None, Some e))
  else
    let names := sorted_names fil in
    let count := Z.of_nat (size (entries fil)) in
    let n := if n <=? 0 then wrap64 (count - cursor fil) else n in
    if cursor fil >=? count then Ret (fil, (None, Some EOF))
    else
      let end_ := wrap64 (cursor fil + n) in
      let end_ := if end_ >? count then count else end_ in
      if end_ - cursor fil <? 0 then
        Panic (PanicRuntime "makeslice: cap out of range")
      else
        ets ← read_entries h fil names (cursor fil)
                (Z.to_nat (end_ - cursor fil));
        Ret (set_cursor fil end_, (Some ets, None)).

(** ** Path resolution *)

(** [open] opens files in a given directory or its subdirectories.  Each
    nested call is on a shorter name; [fuel] bounds the nesting. *)
Fixpoint open_go (fuel : nat) (h : heap) (dir : loc) (name : string)
  : outcome (option loc * option error) :=
  match fuel with
  | O => Diverge
  | S k =>
      if negb (ValidPath name) then
        Ret (None, Some (PathError "open" name ErrInvalid))
      else if String.eqb name "." then Ret (Some dir, None)
      else
        let parts := Split name in
        if (1 <? length parts)%nat then
          r ← open_go k h dir (hd "" parts);
          match r with
          | (_, Some err) => Ret (None, Some err)
          | (Some d, None) => open_go k h d (Join (tl parts))
          | (None, None) => Panic (PanicRuntime "invalid memory address")
          end
        else
          d ← deref h dir;
          match entries d !! name with
          | Some fil => Ret (Some fil, None)
          | None => Ret (None, Some (PathError "open" name ErrNotExist))
          end
  end.

Definition open (h : heap) (dir : loc) (name : string)
  : outcome (option loc * option error) :=
  open_go (S (String.length name)) h dir name.

(** ** Sequences of buffer operations and the sparse file they describe *)

Inductive op :=
  | OpWrite (p : list byte)
  | OpWriteAt (p : list byte) (o : Z)
  | OpWriteByte (b : byte)
  | OpTruncate (size : Z)
  | OpGrow (n : Z)
  | OpSeek (offset whence : Z).

(** What an operation did to the content: it stored [q] from offset [o]
    on, or it set the length to [size]. *)
Inductive event :=
  | EvWrite (o : Z) (q : list byte)
  | EvTruncate (size : Z).

(** The offset [write] writes at. *)
Definition write_offset (fil : File) : Z :=
  if appending fil then blen (buf fil) else off fil.

Definition logged (err : option error) (ev : event) : list event :=
  match err with None => [ev] | Some _ => [] end.

Definition step (h : heap) (fil : File) (o : op)
  : outcome (File * list event) :=
  match o with
  | OpWrite p =>
      '(fil', (n, err)) ← Write h fil p;
      Ret (fil', logged err (EvWrite (write_offset fil) (take (Z.to_nat n) p)))
  | OpWriteAt p o =>
      '(fil', (n, err)) ← WriteAt h fil p o;
      Ret (fil', logged err (EvWrite o (take (Z.to_nat n) p)))
  | OpWriteByte b =>
      '(fil', err) ← WriteByte h fil b;
      Ret (fil', logged err
                   (EvWrite (write_offset fil)
                      (take (Z.to_nat (off fil' - write_offset fil)) [b])))
  | OpTruncate size =>
      '(fil', err) ← Truncate h fil size;
      Ret (fil', logged err (EvTruncate size))
  | OpGrow n => fil' ← Grow fil n; Ret (fil', [])
  | OpSeek offset whence =>
      '(fil', _) ← Seek h fil offset whence; Ret (fil', [])
  end.

Fixpoint run (h : heap) (fil : File) (ops : list op)
  : outcome (File * list event) :=
  match ops with
  | [] => Ret (fil, [])
  | o :: ops =>
      '(fil, ev) ← step h fil o;
      '(fil, evs) ← run h fil ops;
      Ret (fil, ev ++ evs)
  end.

(** A sparse file: a byte is what was last written at its offset, and zero
    when nothing was. *)
Definition sparse_write (c : list byte) (o : nat) (q : list byte) : list byte :=
  resize o x00 c ++ q ++ drop (o + length q) c.

Definition sparse_truncate (c : list byte) (size : nat) : list byte :=
  resize size x00 c.

Definition apply_event (c : list byte) (ev : event) : list byte :=
  match ev with
  | EvWrite o q => sparse_write c (Z.to_nat o) q
  | EvTruncate size => sparse_truncate c (Z.to_nat size)
  end.

Definition replay (c : list byte) (log : list event) : list byte :=
  foldl apply_event c log.

(** The invariant of a buffer: the length is within the capacity, and the
    bytes between the length and the capacity are zero. *)
Definition buf_ok (b : option slice) : Prop :=
  match b with
  | Some s =>
      (len s ≤ length (arr s))%nat ∧
      drop (len s) (arr s) = zeros (length (arr s) - len s)
  | None => True
  end.

(** A Go slice has its length within its capacity. *)
Definition buf_wf (b : option slice) : Prop :=
  match b with
  | Some s => (len s ≤ length (arr s))%nat
  | None => True
  end.

(** A constructor's result, for a name it accepts. *)
Definition created (r : outcome (option File * option error)) : outcome File :=
  r ← r;
  match r with
  | (Some fil, None) => Ret fil
  | (_, Some e) => Panic (PanicError e)
  | (None, None) => Panic (PanicRuntime "invalid memory address")
  end.

(** ** Buffers seen as sparse sequences *)

(** The byte at index i, zero beyond the end. *)
Definition at0 (l : list byte) (i : nat) : byte := nth i l x00.

(** The byte a buffer holds at index i of its backing array. *)
Definition view (b : option slice) (i : nat) : byte := at0 (backing b) i.

(** The four ways [grow] ends, with the length and capacity it leaves. *)
Definition grow_case (fil : File) (n : Z) (b' : option slice) : Prop :=
  let b := buf fil in
  (n ≤ blen b - off fil ∧ b' = b)
  ∨ (blen b - off fil < n ≤ bcap b - off fil
     ∧ blen b' = off fil + n ∧ bcap b' = bcap b)
  ∨ (bcap b - off fil < n ∧ is_nil b = true ∧ n ≤ smallBufferSize
     ∧ blen b' = n ∧ bcap b' = smallBufferSize)
  ∨ (bcap b - off fil < n ∧ (is_nil b = false ∨ smallBufferSize < n)
     ∧ blen b' = 2 * bcap b + n ∧ bcap b' = 2 * bcap b + n).

(** The capacity [WriteAt] leaves when o + len(p) exceeds the capacity. *)
Definition WriteAt_capacity (fil : File) (o pl : Z) : Z :=
  if is_nil (buf fil) && (o + pl <=? smallBufferSize) then smallBufferSize
  else 2 * bcap (buf fil) + (o + pl - blen (buf fil)).

(** The arguments an operation can receive: an offset is an [int64], a
    slice is no longer than the largest [int]. *)
Definition representable (o : op) : Prop :=
  match o with
  | OpWriteAt p o =>
      min_int64 ≤ o ≤ max_int64 ∧ Z.of_nat (length p) ≤ max_int64
  | _ => True
  end.

(** The events that store bytes. *)
Definition is_write (ev : event) : Prop :=
  match ev with EvWrite _ _ => True | EvTruncate _ => False end.

(** The size [grow] allocates for n more bytes when a reslice does not
    do. *)
Definition grow_alloc (b : option slice) (n : Z) : Z :=
  if is_nil b && (n <=? smallBufferSize) then smallBufferSize
  else 2 * bcap b + n.

(** What makes an operation on a file node return: a write starts at most
    at twice the capacity, an explicit offset, a size and a growth are not
    negative, a seek computes an offset that is not negative, and what
    WriteAt, Truncate or Grow allocates for the offset, size or count of
    its caller is at most [maxAlloc]. *)
Definition enabled (fil : File) (o : op) : Prop :=
  match o with
  | OpWrite _ | OpWriteByte _ => 0 ≤ write_offset fil ≤ 2 * bcap (buf fil)
  | OpWriteAt p o =>
      0 ≤ o ∧ o + Z.of_nat (length p) ≤ max_int64
      ∧ (o + Z.of_nat (length p) ≤ bcap (buf fil)
         ∨ WriteAt_capacity fil o (Z.of_nat (length p)) ≤ maxAlloc)
  | OpTruncate size =>
      0 ≤ size
      ∧ (size ≤ bcap (buf fil)
         ∨ grow_alloc (buf fil) (size - blen (buf fil)) ≤ maxAlloc)
  | OpGrow n => 0 ≤ n ∧ blen (buf fil) + n ≤ maxAlloc
  | OpSeek offset whence => 0 ≤ seek_target fil offset whence
  end.

(** ** Nodes in a heap *)

(** The entry [ReadDir] yields for a name: the [Stat] of the node the
    directory holds under it. *)
Definition listed (h : heap) (fil : File) (name : string) (e : FileInfo) : Prop :=
  ∃ l file, entries fil !! name = Some l ∧ h !! l = Some file
            ∧ e = fst (Stat file).

(** [new] puts the result of a constructor at a fresh location. *)
Definition alloc (h : heap) (fil : File) : heap * loc :=
  let l := fresh (dom h) in (<[l := fil]> h, l).

Definition new (h : heap) (r : outcome (option File * option error))
  : outcome (heap * loc) :=
  fil ← created r; Ret (alloc h fil).

(** A path element [fs.ValidPath] accepts: valid UTF-8 without a slash,
    and none of "", "." and "..". *)
Definition valid_segment (s : string) : Prop :=
  ValidString s = true ∧ valid_elem s = true ∧ contains_slash s = false.

(** The node a list of segments leads to, from entry to entry. *)
Fixpoint walk (h : heap) (dir : loc) (segs : list string) : option loc :=
  match segs with
  | [] => Some dir
  | s :: segs =>
      match h !! dir with
      | Some d =>
          match entries d !! s with
          | Some l => walk h l segs
          | None => None
          end
      | None => None
      end
  end.

(** The parents [path_go] visits, when it comes to an end. *)
Fixpoint ancestors (fuel : nat) (h : heap) (fil : File) : option (list loc) :=
  match fuel with
  | O => None
  | S k =>
      match parent fil with
      | Some pl =>
          match h !! pl with
          | Some pf => (pl ::.) <$> ancestors k h pf
          | None => Some []
          end
      | None => Some []
      end
  end.

(** ** Further methods of a file node *)

(** [b[i]] *)
Definition elem_at (b : option slice) (i : Z) : outcome byte :=
  if (0 <=? i) && (i <? blen b) then Ret (at0 (bytes_of b) (Z.to_nat i))
  else Panic (PanicRuntime "index out of range").

(** [ReadByte] reads and returns the next byte from the buffer at the
    current offset.  If it returns an error, no input byte was consumed. *)
Definition ReadByte (h : heap) (fil : File)
  : outcome (File * (byte * option error)) :=
  if IsDir fil then
    e ← path_error h fil "read" EISDIR; Ret (fil, (x00, Some e))
  else if off fil >=? blen (buf fil) then Ret (fil, (x00, Some EOF))
  else
    v ← elem_at (buf fil) (off fil);
    Ret (set_off fil (off fil + 1), (v, None)).

(** [String] returns the buffer starting at the current offset, as the
    bytes of the string, and advances the offset to the end of the
    buffer. *)
Definition String_ (fil : File) : outcome (File * list byte) :=
  s ← slice_from (buf fil) (off fil);
  Ret (set_off fil (blen (buf fil)), s).

(** [WriteString] writes string s to the buffer at the current offset. *)
Definition WriteString (h : heap) (fil : File) (s : string)
  : outcome (File * (Z * option error)) :=
  Write h fil (list_byte_of_string s).

(** [SeekStart] sets the offset to zero and returns the value it had. *)
Definition SeekStart (fil : File) : File * Z := (set_off fil 0, off fil).

(** [SeekEnd] sets the offset to the buffer length and returns the value
    it had. *)
Definition SeekEnd (fil : File) : File * Z :=
  (set_off fil (blen (buf fil)), off fil).

(** [Release] releases ownership of the underlying buffer. *)
Definition Release (fil : File) : File * option slice :=
  (set_buf (set_off fil 0) None, buf fil).

(** [Close] sets the offset to zero; on a nil pointer it does nothing.  It
    always returns a nil error. *)
Definition Close (fil : option File) : option File * option error :=
  (match fil with Some f => Some (set_off f 0) | None => None end, None).

Definition Info (fil : File) : FileInfo * option error := Stat fil.
Definition Mode (fil : File) : Z := info_mode (info fil).

(** An [io.Writer]: its state and its method Write. *)
Record Writer (W : Type) := mkWriter {
  writer_Write : W → list byte → outcome (W * (Z * option error));
}.
Arguments mkWriter {W} _.
Arguments writer_Write {W} _ _ _.

(** [WriteTo] writes data to w starting at the current offset; the offset
    advances by the count the writer returns. *)
Definition WriteTo {W : Type} (wr : Writer W) (h : heap) (fil : File) (w : W)
  : outcome (File * W * (Z * option error)) :=
  if IsDir fil then
    e ← path_error h fil "write" EISDIR; Ret (fil, w, (0, Some e))
  else
    src ← slice_from (buf fil) (off fil);
    '(w, (n, err)) ← writer_Write wr w src;
    Ret (set_off fil (off fil + n), w, (n, err)).

(** A file node, other than the one written from, as an [io.Writer]. *)
Definition File_Writer (h : heap) : Writer File :=
  mkWriter (λ w p, Write h w p).

(** ** The file system of a directory *)

(** [Open] implements [fs.FS]. *)
Definition Open (h : heap) (fil : loc) (name : string)
  : outcome (option loc * option error) := open h fil name.

(** [FS] returns the file system of a directory, nil for a file. *)
Definition FS (h : heap) (fil : loc) : outcome (option loc) :=
  f ← deref h fil;
  if IsDir f then Ret (Some fil) else Ret None.

(** [errors.Is(err, fs.ErrNotExist)]: the chain of err holds
    [fs.ErrNotExist] or the [syscall.Errno] that stands for it. *)
Fixpoint is_not_exist (err : error) : bool :=
  match err with
  | ErrNotExist | ENOENT => true
  | PathError _ _ e => is_not_exist e
  | _ => false
  end.

(** [fsDir.open] opens the file with the given name; a [fs.PathError] for
    a name that does not exist is changed to openat and ENOENT. *)
Definition fsDir_open (h : heap) (dir : loc) (name : string)
  : outcome (option loc * option error) :=
  r ← open h dir name;
  match r with
  | (fil, None) => Ret (fil, None)
  | (_, Some err) =>
      match err with
      | PathError _ pth _ =>
          if is_not_exist err then Ret (None, Some (PathError "openat" pth ENOENT))
          else Ret (None, Some err)
      | _ => Ret (None, Some err)
      end
  end.

Definition fsDir_Open (h : heap) (dir : loc) (name : string)
  : outcome (option loc * option error) := fsDir_open h dir name.

(** [fsDir.ReadDir]: all entries the directory of that name still has to
    yield; the cursor it moves is the one of the node. *)
Definition fsDir_ReadDir (h : heap) (dir : loc) (name : string)
  : outcome (heap * (option (list FileInfo) * option error)) :=
  r ← fsDir_open h dir name;
  match r with
  | (_, Some err) => Ret (h, (None, Some err))
  | (None, None) => Panic (PanicRuntime "invalid memory address")
  | (Some l, None) =>
      fil ← deref h l;
      if negb (IsDir fil) then
        d ← deref h dir;
        Ret (h, (None, Some (PathError "readdirent"
                               (Join [info_name (info d); name]) ENOTDIR)))
      else
        '(fil, r) ← ReadDir h fil (-1);
        Ret (<[l := fil]> h, r)
  end.

(** [fsDir.Stat]: the name is looked up among the entries of the
    directory itself. *)
Definition fsDir_Stat (h : heap) (dir : loc) (name : string)
  : outcome (option FileInfo * option error) :=
  d ← deref h dir;
  match entries d !! name with
  | None => Ret (None, Some (PathError "statat" name ENOENT))
  | Some l => fil ← deref h l; Ret (Some (fst (Stat fil)), snd (Stat fil))
  end.

(** [ReadFile] implements [fs.ReadFileFS] through [fs.ReadFile] on the
    directory with its method ReadFile hidden: the node is opened, read
    from its current offset into a buffer of its size plus one until an
    error or the end of the data, and closed. *)
Definition ReadFile (fuel : nat) (next_cap : nat → nat) (h : heap)
    (dir : loc) (name : string)
  : outcome (heap * (option (list byte) * option error)) :=
  fil ← deref h dir;
  if negb (IsDir fil) then
    e ← path_error h fil "ReadFile" ENOTDIR; Ret (h, (None, Some e))
  else
    r ← Open h dir name;
    match r with
    | (_, Some err) => Ret (h, (None, Some err))
    | (None, None) => Panic (PanicRuntime "invalid memory address")
    | (Some l, None) =>
        file ← deref h l;
        let size := info_size (fst (Stat file)) in
        '(file, (data, err)) ←
          ReadAll_go fuel next_cap h file [] (Z.to_nat size + 1);
        Ret (<[l := set_off file 0]> h, (Some data, err))
    end.

(** ** Readers *)

(** What a reader of chunks delivers until its first error: the bytes, the
    error ([io.EOF] is not one) and the chunks that are left. *)
Fixpoint delivered (r : list chunk) : list byte * option error * list chunk :=
  match r with
  | [] => ([], None, [])
  | Chunk d None _ :: r' =>
      let '(ds, e, rest) := delivered r' in (d ++ ds, e, rest)
  | Chunk d (Some e) _ :: r' =>
      (d, match e with EOF => None | _ => Some e end, r')
  end.

(** The rounds of [ReadFrom] that consume a reader of chunks, at most. *)
Fixpoint rounds (r : list chunk) : nat :=
  match r with
  | [] => 0%nat
  | c :: r' => S (length (chunk_data c) + rounds r')
  end.

(** ** Nodes attached to a directory *)

(** The node [l] lies below [dir] along the segments: each segment is the
    key of an entry of the node before it, that entry's node has this name
    and has the node before it as its parent. *)
Fixpoint attached (h : heap) (dir : loc) (segs : list string) (l : loc)
  : Prop :=
  match segs with
  | [] => l = dir
  | s :: segs =>
      ∃ d m fm, h !! dir = Some d ∧ entries d !! s = Some m
                ∧ h !! m = Some fm ∧ parent fm = Some dir ∧ Name fm = s
                ∧ attached h m segs l
  end.

(** The path of a node that lies below the root along the segments. *)
Definition path_of (segs : list string) : string :=
  match segs with [] => "." | _ => String.concat "/" segs end.

(** The options the package offers to its callers. *)
Inductive package_option : (File → File) → Prop :=
  | option_offset (o : Z) : package_option (WithFileOffset o)
  | option_append : package_option WithFileAppend
  | option_flag (fl : Z) : package_option (WithFileFlag fl).

(** * Properties *)

(** ** Outcomes *)

Lemma bind_Ret {A B} (m : outcome A) (k : A → outcome B) (r : B) :
  m ≫= k = Ret r → ∃ a, m = Ret a ∧ k a = Ret r.
Proof. destruct m as [a| |]; simpl; intros H; try discriminate; eauto. Qed.

Ltac inv_bind H :=
  let a := fresh "a" in
  let Ha := fresh "Ha" in
  apply bind_Ret in H as (a & Ha & H).

Lemma wrap64_id (z : Z) : min_int64 ≤ z ≤ max_int64 → wrap64 z = z.
Proof.
  unfold wrap64, min_int64, max_int64. intros Hz.
  rewrite Z.mod_small; lia.
Qed.

Lemma wrap64_range (z : Z) : min_int64 ≤ wrap64 z ≤ max_int64.
Proof.
  unfold wrap64, min_int64, max_int64.
  pose proof (Z.mod_pos_bound (z + 2 ^ 63) (2 ^ 64)). lia.
Qed.

(** ** The write, seek and read round trip *)

(** C1. A file made by [NewFile] without options, after Write([0,1,2,3]),
    Seek(-2, end), Write([4,5]) and Seek(0, start), reads until the end of
    the data as exactly [0,1,4,5]. *)
Theorem write_seek_read_round_trip
    (name : string) (fil : File) (h : heap) (next_cap : nat → nat) (fuel : nat) :
  NewFile name [] = Ret (Some fil, None) →
  ('(fil, _) ← Write h fil [x00; x01; x02; x03];
   '(fil, _) ← Seek h fil (-2) 2;
   '(fil, _) ← Write h fil [x04; x05];
   '(fil, _) ← Seek h fil 0 0;
   '(_, r) ← ReadAll (S (S fuel)) next_cap h fil;
   Ret r) = Ret ([x00; x01; x04; x05], None).
Proof.
  unfold NewFile, FileWith.
  destruct (negb (ValidPath name) || contains_slash name); [discriminate|].
  simpl. intros [= <-]. reflexivity.
Qed.

Lemma write_seek_read_round_trip_witness :
  ('(fil, _) ← Write ∅ (mkFile 0 (Some (Slice (zeros 512) 0)) 0
                          (mkFileInfo "file" 0 384) None 0 ∅)
                 [x00; x01; x02; x03];
   '(fil, _) ← Seek ∅ fil (-2) 2;
   '(fil, _) ← Write ∅ fil [x04; x05];
   '(fil, _) ← Seek ∅ fil 0 0;
   '(_, r) ← ReadAll 2 id ∅ fil;
   Ret r) = Ret ([x00; x01; x04; x05], None).
Proof.
  apply (write_seek_read_round_trip "file" _ ∅ id 0). reflexivity.
Defined.

(** ** Seek *)

(** C10. On a file node, a whence other than 0, 1 and 2 is not rejected:
    Seek returns (0, nil) and sets the offset to 0, whatever the offset
    argument. *)
Theorem Seek_unknown_whence (h : heap) (fil : File) (offset whence : Z) :
  IsDir fil = false →
  whence ≠ 0 → whence ≠ 1 → whence ≠ 2 →
  Seek h fil offset whence = Ret (set_off fil 0, (0, None)).
Proof.
  intros Hdir H0 H1 H2. unfold Seek, seek_target. rewrite Hdir.
  destruct (Z.eqb_spec whence 0); [done|].
  destruct (Z.eqb_spec whence 1); [done|].
  destruct (Z.eqb_spec whence 2); [done|].
  reflexivity.
Qed.

Lemma Seek_unknown_whence_witness :
  Seek ∅ (mkFile 3 (bytes_lit [x00; x01; x02]) 0 (mkFileInfo "file" 3 384)
            None 0 ∅) 7 3
  = Ret (mkFile 0 (bytes_lit [x00; x01; x02]) 0 (mkFileInfo "file" 3 384)
           None 0 ∅, (0, None)).
Proof.
  apply (Seek_unknown_whence ∅ (mkFile 3 (bytes_lit [x00; x01; x02]) 0
           (mkFileInfo "file" 3 384) None 0 ∅) 7 3); [reflexivity|lia..].
Defined.

(** ** Construction *)

Lemma FileWith_offset (name : string) (content : option slice) (v : Z) :
  ValidPath name = true → contains_slash name = false →
  FileWith name content [WithFileOffset v] =
    if (v <? 0) || (v >? blen content) then Panic (PanicError ErrOutOfBounds)
    else Ret (Some (mkFile v content 0 (mkFileInfo name (blen content) 384)
                      None 0 ∅), None).
Proof. intros Hv Hs. unfold FileWith. rewrite Hv, Hs. reflexivity. Qed.

(** C9. For a valid single-segment name, construction with the offset
    option v panics with [ErrOutOfBounds], instead of returning an error,
    exactly when v is negative or beyond the length of the initial content;
    otherwise it returns the file with its offset equal to v.  The initial
    content of [NewFile] has length zero. *)
Theorem FileWith_offset_panics_iff
    (name : string) (content : option slice) (v : Z) :
  ValidPath name = true → contains_slash name = false →
  (FileWith name content [WithFileOffset v] = Panic (PanicError ErrOutOfBounds)
     ↔ v < 0 ∨ blen content < v) ∧
  (¬ (v < 0 ∨ blen content < v) →
     ∃ fil, FileWith name content [WithFileOffset v] = Ret (Some fil, None)
            ∧ off fil = v) ∧
  (NewFile name [WithFileOffset v] = Panic (PanicError ErrOutOfBounds)
     ↔ v < 0 ∨ 0 < v) ∧
  (¬ (v < 0 ∨ 0 < v) →
     ∃ fil, NewFile name [WithFileOffset v] = Ret (Some fil, None)
            ∧ off fil = v).
Proof.
  intros Hv Hs. unfold NewFile.
  rewrite !FileWith_offset by done.
  change (blen (Some (Slice (zeros (Z.to_nat MinRead)) 0))) with 0.
  repeat split.
  - destruct (Z.ltb_spec v 0), (Z.gtb_spec v (blen content));
      simpl; first [discriminate | lia].
  - intros [H|H].
    + destruct (Z.ltb_spec v 0); [done|lia].
    + destruct (Z.gtb_spec v (blen content)); [|lia].
      by rewrite orb_true_r.
  - intros H.
    destruct (Z.ltb_spec v 0), (Z.gtb_spec v (blen content)); try lia.
    simpl. eauto.
  - destruct (Z.ltb_spec v 0), (Z.gtb_spec v 0);
      simpl; first [discriminate | lia].
  - intros [H|H].
    + destruct (Z.ltb_spec v 0); [done|lia].
    + destruct (Z.gtb_spec v 0); [|lia].
      by rewrite orb_true_r.
  - intros H.
    destruct (Z.ltb_spec v 0), (Z.gtb_spec v 0); try lia.
    simpl. eauto.
Qed.

Lemma FileWith_offset_panics_iff_witness :
  (FileWith "file" (bytes_lit [x00; x01]) [WithFileOffset 3]
     = Panic (PanicError ErrOutOfBounds) ↔ 3 < 0 ∨ blen (bytes_lit [x00; x01]) < 3) ∧
  (¬ (3 < 0 ∨ blen (bytes_lit [x00; x01]) < 3) →
     ∃ fil, FileWith "file" (bytes_lit [x00; x01]) [WithFileOffset 3]
              = Ret (Some fil, None) ∧ off fil = 3) ∧
  (NewFile "file" [WithFileOffset 3] = Panic (PanicError ErrOutOfBounds)
     ↔ 3 < 0 ∨ 0 < 3) ∧
  (¬ (3 < 0 ∨ 0 < 3) →
     ∃ fil, NewFile "file" [WithFileOffset 3] = Ret (Some fil, None)
            ∧ off fil = 3).
Proof.
  apply (FileWith_offset_panics_iff "file" (bytes_lit [x00; x01]) 3);
    reflexivity.
Defined.

(** ** Sparse sequences *)

Lemma at0_ge (l : list byte) (i : nat) : (length l ≤ i)%nat → at0 l i = x00.
Proof. apply nth_overflow. Qed.

Lemma at0_zeros (n i : nat) : at0 (zeros n) i = x00.
Proof.
  unfold at0, zeros. revert i. induction n as [|n IH]; intros [|i]; simpl; auto.
Qed.

Lemma at0_app (l1 l2 : list byte) (i : nat) :
  at0 (l1 ++ l2) i =
    if decide (i < length l1)%nat then at0 l1 i else at0 l2 (i - length l1).
Proof.
  unfold at0. case_decide.
  - by apply app_nth1.
  - apply app_nth2. lia.
Qed.

Lemma at0_take (n : nat) (l : list byte) (i : nat) :
  at0 (take n l) i = if decide (i < n)%nat then at0 l i else x00.
Proof.
  unfold at0. rewrite nth_firstn.
  case_decide; destruct (Nat.ltb_spec i n); auto; lia.
Qed.

Lemma at0_drop (n : nat) (l : list byte) (i : nat) :
  at0 (drop n l) i = at0 l (n + i).
Proof. apply nth_skipn. Qed.

Lemma at0_resize (n : nat) (l : list byte) (i : nat) :
  at0 (resize n x00 l) i = if decide (i < n)%nat then at0 l i else x00.
Proof.
  rewrite resize_spec, at0_app, at0_take, length_take.
  fold (zeros (n - length l)). rewrite at0_zeros.
  repeat case_decide; auto; try lia.
  symmetry. apply at0_ge. lia.
Qed.

Lemma at0_ext (l1 l2 : list byte) :
  length l1 = length l2 →
  (∀ i, (i < length l1)%nat → at0 l1 i = at0 l2 i) → l1 = l2.
Proof. intros Hl H. by apply (nth_ext _ _ x00 x00). Qed.

Ltac lengths :=
  rewrite ?length_app, ?length_take, ?length_drop, ?length_resize,
    ?length_replicate; unfold zeros;
  rewrite ?length_app, ?length_take, ?length_drop, ?length_resize,
    ?length_replicate;
  change Init.Nat.min with Nat.min.

Ltac at0_simpl :=
  repeat first
    [ rewrite at0_app | rewrite at0_take | rewrite at0_drop
    | rewrite at0_resize | rewrite at0_zeros ].

Lemma buf_ok_at0 (s : slice) :
  buf_ok (Some s) ↔
  (len s ≤ length (arr s))%nat ∧ ∀ i, (len s ≤ i)%nat → at0 (arr s) i = x00.
Proof.
  simpl. split; intros [Hl H]; split; auto.
  - intros i Hi.
    replace i with (len s + (i - len s))%nat by lia.
    rewrite <- at0_drop, H. apply at0_zeros.
  - apply at0_ext.
    + lengths. lia.
    + intros i Hi. rewrite at0_drop, at0_zeros. apply H. lia.
Qed.

(** ** The primitives on slices *)


Lemma buf_ok_view (b : option slice) :
  buf_ok b ↔
  buf_wf b ∧ ∀ i, (Z.to_nat (blen b) ≤ i)%nat → view b i = x00.
Proof.
  destruct b as [s|].
  - rewrite buf_ok_at0. unfold view. simpl. by rewrite Nat2Z.id.
  - simpl. split; [|done]. intros _. split; [done|]. by intros [|i] _.
Qed.

Lemma bytes_of_view (b : option slice) (i : nat) :
  at0 (bytes_of b) i =
    if decide (i < Z.to_nat (blen b))%nat then view b i else x00.
Proof.
  destruct b as [s|]; unfold view.
  - simpl. by rewrite at0_take, Nat2Z.id.
  - destruct (decide _); by destruct i.
Qed.

Lemma length_bytes_of (b : option slice) :
  buf_wf b → length (bytes_of b) = Z.to_nat (blen b).
Proof. destruct b as [s|]; simpl; [|done]. intros H. lengths. lia. Qed.

Lemma blen_nonneg (b : option slice) : 0 ≤ blen b.
Proof. destruct b; simpl; lia. Qed.

Lemma bcap_nonneg (b : option slice) : 0 ≤ bcap b.
Proof. destruct b; simpl; lia. Qed.

Lemma buf_wf_le (b : option slice) : buf_wf b → blen b ≤ bcap b.
Proof. destruct b; simpl; lia. Qed.

Lemma buf_ok_wf (b : option slice) : buf_ok b → buf_wf b.
Proof. destruct b; simpl; tauto. Qed.

Lemma view_ge_cap (b : option slice) (i : nat) :
  (Z.to_nat (bcap b) ≤ i)%nat → view b i = x00.
Proof.
  intros H. apply at0_ge. destruct b; simpl in *; lia.
Qed.

Lemma reslice_Ret (b b' : option slice) (k : Z) :
  reslice b k = Ret b' →
  0 ≤ k ≤ bcap b ∧ backing b' = backing b ∧ blen b' = k ∧ bcap b' = bcap b
  ∧ is_nil b' = is_nil b ∧ buf_wf b'.
Proof.
  unfold reslice.
  destruct (Z.leb_spec 0 k), (Z.leb_spec k (bcap b)); simpl; try discriminate.
  destruct b as [s|]; intros [= <-]; simpl in *; repeat split; auto; lia.
Qed.

Lemma copy_at_Ret (b b' : option slice) (o n : Z) (p : list byte) :
  copy_at b o p = Ret (b', n) →
  buf_wf b →
  0 ≤ o ≤ blen b ∧ n = Z.min (blen b - o) (Z.of_nat (length p))
  ∧ blen b' = blen b ∧ bcap b' = bcap b ∧ is_nil b' = is_nil b
  ∧ ∀ i, view b' i =
      if decide (Z.to_nat o ≤ i < Z.to_nat (o + n))%nat
      then at0 p (i - Z.to_nat o) else view b i.
Proof.
  unfold copy_at.
  destruct (Z.leb_spec 0 o), (Z.leb_spec o (blen b)); simpl; try discriminate.
  destruct b as [s|]; intros [= <- <-] Hwf; simpl in *.
  - split; [lia|]. split; [lia|]. split; [done|].
    split; [lengths; lia|]. split; [done|].
    intros i. unfold view. simpl. at0_simpl. lengths.
    repeat case_decide; try lia; f_equal; lia.
  - repeat split; try lia. intros i. destruct (decide _); [lia|done].
Qed.

Lemma make_Ret (n c : Z) (b : option slice) :
  make n c = Ret b →
  0 ≤ n ≤ c ∧ blen b = n ∧ bcap b = c ∧ buf_ok b ∧ ∀ i, view b i = x00.
Proof.
  unfold make.
  destruct (Z.leb_spec 0 n), (Z.leb_spec n c); simpl; try discriminate.
  intros [= <-]. split; [lia|].
  assert (Hc : length (zeros (Z.to_nat c)) = Z.to_nat c) by apply length_replicate.
  simpl. rewrite Hc.
  split; [lia|]. split; [lia|]. split.
  - split; [lia|]. apply at0_ext; [lengths; lia|].
    intros i _. by rewrite at0_drop, !at0_zeros.
  - intros i. apply at0_zeros.
Qed.

Lemma makeSlice_Ret (n : Z) (s : slice) :
  makeSlice n = Ret s →
  0 ≤ n ∧ arr s = zeros (Z.to_nat n) ∧ len s = Z.to_nat n.
Proof.
  unfold makeSlice. destruct (Z.ltb_spec n 0); [discriminate|].
  intros [= <-]. simpl. split; [lia|done].
Qed.

(** A fresh array that received the content shows the same sparse
    sequence as a buffer whose tail is zero. *)
Lemma copy_into_fresh (n : Z) (tmp : slice) (b : option slice) :
  makeSlice n = Ret tmp → buf_ok b → blen b ≤ n →
  blen (Some (copy_into tmp b)) = n ∧ bcap (Some (copy_into tmp b)) = n
  ∧ buf_ok (Some (copy_into tmp b))
  ∧ ∀ i, view (Some (copy_into tmp b)) i = view b i.
Proof.
  intros (Hn & Harr & Hlen)%makeSlice_Ret Hok Hle.
  pose proof (buf_ok_wf _ Hok) as Hwf.
  pose proof (length_bytes_of _ Hwf) as Hlb.
  pose proof (blen_nonneg b).
  apply buf_ok_view in Hok as [_ Hz].
  assert (Hv : ∀ i, view (Some (copy_into tmp b)) i = view b i).
  { intros i. unfold view at 1, copy_into. simpl. rewrite Harr, Hlen.
    at0_simpl. rewrite bytes_of_view. lengths.
    repeat case_decide; try lia; auto.
    symmetry. apply Hz. lia. }
  assert (Hc : length (arr (copy_into tmp b)) = Z.to_nat n).
  { unfold copy_into. simpl. rewrite Harr, Hlen. lengths. lia. }
  assert (Hl : len (copy_into tmp b) = Z.to_nat n) by done.
  unfold blen at 1, bcap. rewrite Hc, Hl.
  split; [lia|]. split; [lia|]. split; [|done].
  apply buf_ok_view. split; [unfold buf_wf; lia|].
  intros i Hi. apply view_ge_cap. unfold blen in Hi. unfold bcap. lia.
Qed.

Lemma reslice_ok (b b' : option slice) (k : Z) :
  reslice b k = Ret b' →
  (∀ i, (Z.to_nat k ≤ i)%nat → view b i = x00) →
  buf_ok b' ∧ ∀ i, view b' i = view b i.
Proof.
  intros (Hk & Hb & Hl & Hc & _ & Hwf)%reslice_Ret Hz.
  assert (Hv : ∀ i, view b' i = view b i) by (intros i; unfold view; by rewrite Hb).
  split; [|done]. apply buf_ok_view. split; [done|].
  intros i Hi. rewrite Hv. apply Hz. lia.
Qed.

Lemma reslice_total (b : option slice) (k : Z) :
  0 ≤ k ≤ bcap b → ∃ b', reslice b k = Ret b'.
Proof.
  intros Hk. unfold reslice.
  destruct (Z.leb_spec 0 k), (Z.leb_spec k (bcap b)); try lia.
  destruct b; simpl; eauto.
Qed.

(** ** [grow] *)


Lemma grow_spec (fil fil' : File) (n : Z) :
  buf_wf (buf fil) → 0 ≤ n → grow fil n = Ret fil' →
  fil' = set_buf fil (buf fil') ∧ buf_wf (buf fil')
  ∧ blen (buf fil) ≤ blen (buf fil')
  ∧ grow_case fil n (buf fil')
  ∧ (∀ i, (i < Z.to_nat (blen (buf fil)))%nat →
          view (buf fil') i = view (buf fil) i)
  ∧ (bcap (buf fil) - off fil < n →
     ∀ i, (Z.to_nat (blen (buf fil)) ≤ i)%nat → view (buf fil') i = x00)
  ∧ (buf_ok (buf fil) →
     buf_ok (buf fil') ∧ ∀ i, view (buf fil') i = view (buf fil) i).
Proof.
  intros Hwf Hn. unfold grow, tryGrowByReslice, grow_case.
  pose proof (blen_nonneg (buf fil)) as Hl0.
  pose proof (buf_wf_le _ Hwf) as Hlc.
  destruct (Z.leb_spec n (blen (buf fil) - off fil)) as [H1|H1].
  { simpl. intros [= <-]. destruct fil as [o b fl inf par cur ents]; simpl in *.
    repeat split; auto; try lia; try tauto. }
  destruct (Z.leb_spec n (bcap (buf fil) - off fil)) as [H2|H2].
  { destruct (reslice (buf fil) (off fil + n)) as [b'| |] eqn:Hr;
      simpl; try discriminate.
    intros [= <-]. pose proof Hr as (Hk & Hb & Hl & Hc & Hnil & Hwf')%reslice_Ret.
    destruct fil as [o b fl inf par cur ents]; simpl in *.
    split; [done|]. split; [done|]. split; [lia|].
    split; [right; left; lia|].
    split; [intros i _; unfold view; by rewrite Hb|].
    split; [intros; lia|].
    intros Hok. eapply reslice_ok; [done|].
    intros i Hi. apply buf_ok_view in Hok as [_ Hz]. apply Hz. lia. }
  simpl.
  destruct (is_nil (buf fil) && (n <=? smallBufferSize)) eqn:Hsmall.
  { apply andb_true_iff in Hsmall as [Hnil Hs%Z.leb_le].
    destruct (make n smallBufferSize) as [b'| |] eqn:Hm; simpl; try discriminate.
    intros [= <-]. apply make_Ret in Hm as (Hns & Hl & Hc & Hok & Hz).
    destruct fil as [o [s|] ? ? ? ? ?]; simpl in *; [discriminate|].
    split; [done|]. split; [by apply buf_ok_wf|]. split; [lia|].
    split; [right; right; left; repeat split; auto; lia|].
    split; [intros i Hi; lia|].
    split; [intros _ i _; apply Hz|].
    intros _. split; [done|]. intros i. rewrite Hz. by destruct i. }
  destruct (makeSlice (bcap (buf fil) * 2 + n)) as [tmp| |] eqn:Hm;
    simpl; try discriminate.
  intros [= <-].
  assert (Hcase : is_nil (buf fil) = false ∨ smallBufferSize < n).
  { apply andb_false_iff in Hsmall as [?|?%Z.leb_gt]; auto. }
  pose proof Hm as (Hm0 & Harr & Hlen)%makeSlice_Ret.
  assert (Hl : len (copy_into tmp (buf fil)) = Z.to_nat (bcap (buf fil) * 2 + n))
    by done.
  assert (Hc : length (arr (copy_into tmp (buf fil)))
               = Z.to_nat (bcap (buf fil) * 2 + n)).
  { unfold copy_into. simpl. rewrite Harr, Hlen. lengths.
    rewrite (length_bytes_of _ Hwf). lia. }
  assert (Hv : ∀ i, view (Some (copy_into tmp (buf fil))) i =
               if decide (i < Z.to_nat (blen (buf fil)))%nat
               then view (buf fil) i else x00).
  { intros i. unfold view at 1, copy_into. simpl. rewrite Harr, Hlen.
    at0_simpl. rewrite bytes_of_view. lengths.
    rewrite (length_bytes_of _ Hwf).
    repeat case_decide; try lia; auto. }
  assert (Hl' : blen (Some (copy_into tmp (buf fil))) = bcap (buf fil) * 2 + n)
    by (unfold blen at 1; lia).
  assert (Hc' : bcap (Some (copy_into tmp (buf fil))) = bcap (buf fil) * 2 + n)
    by (unfold bcap at 1; lia).
  destruct fil as [o b fl inf par cur ents]; cbn [buf off set_buf] in *.
  split; [done|]. split; [unfold buf_wf; lia|].
  split; [lia|].
  split; [right; right; right; repeat split; auto; lia|].
  split; [intros i Hi; rewrite Hv; case_decide; [done|lia]|].
  split; [intros _ i Hi; rewrite Hv; case_decide; [lia|done]|].
  intros Hok. eapply copy_into_fresh in Hm as (_ & _ & ? & ?); eauto. lia.
Qed.

Lemma grow_total (fil : File) (n : Z) :
  buf_wf (buf fil) → 0 ≤ n → ∃ fil', grow fil n = Ret fil'.
Proof.
  intros Hwf Hn. unfold grow, tryGrowByReslice.
  pose proof (blen_nonneg (buf fil)) as Hl0.
  destruct (Z.leb_spec n (blen (buf fil) - off fil)) as [H1|H1];
    [simpl; eauto|].
  destruct (Z.leb_spec n (bcap (buf fil) - off fil)) as [H2|H2].
  { destruct (reslice_total (buf fil) (off fil + n)) as [b' ->]; [lia|].
    simpl. eauto. }
  simpl.
  destruct (is_nil (buf fil) && (n <=? smallBufferSize)) eqn:Hsmall.
  { apply andb_true_iff in Hsmall as [Hnil Hs%Z.leb_le].
    unfold make.
    destruct (Z.leb_spec 0 n), (Z.leb_spec n smallBufferSize); try lia.
    simpl. eauto. }
  unfold makeSlice. pose proof (bcap_nonneg (buf fil)).
  destruct (Z.ltb_spec (bcap (buf fil) * 2 + n) 0); [lia|]. simpl. eauto.
Qed.

(** ** [write] *)

Lemma write_offset_set_off (fil : File) (o : Z) :
  appending fil = false → write_offset (set_off fil o) = o.
Proof. unfold write_offset, appending. simpl. by intros ->. Qed.

Lemma at0_sparse_write (c q : list byte) (o i : nat) :
  at0 (sparse_write c o q) i =
    if decide (i < o)%nat then at0 c i
    else if decide (i < o + length q)%nat then at0 q (i - o)
    else at0 c i.
Proof.
  unfold sparse_write. at0_simpl. lengths.
  repeat case_decide; try lia; auto.
  f_equal. lia.
Qed.

Lemma length_sparse_write (c q : list byte) (o : nat) :
  length (sparse_write c o q) = (length c `max` (o + length q))%nat.
Proof. unfold sparse_write. lengths. lia. Qed.

Lemma write_spec (fil fil' : File) (p : list byte) (n : Z) :
  buf_wf (buf fil) → write fil p = Ret (fil', n) →
  let o := write_offset fil in
  0 ≤ o ∧ 0 ≤ n ≤ Z.of_nat (length p)
  ∧ fil' = set_buf (set_off fil (o + n)) (buf fil')
  ∧ buf_wf (buf fil')
  ∧ blen (buf fil') = Z.max (blen (buf fil)) (o + n)
  ∧ (o + Z.of_nat (length p) ≤ blen (buf fil) → n = Z.of_nat (length p))
  ∧ (∃ b1, grow_case (set_off fil o) (Z.of_nat (length p)) b1
           ∧ bcap (buf fil') = bcap b1)
  ∧ (buf_ok (buf fil) ∨ o ≤ blen (buf fil) →
     bytes_of (buf fil')
     = sparse_write (bytes_of (buf fil)) (Z.to_nat o) (take (Z.to_nat n) p))
  ∧ (buf_ok (buf fil) → buf_ok (buf fil')).
Proof.
  intros Hwf Hw o. unfold write in Hw.
  set (fil0 := if appending fil then set_off fil (blen (buf fil)) else fil) in Hw.
  assert (Hfil0 : fil0 = set_off fil o).
  { unfold fil0, o, write_offset. destruct (appending fil); [done|].
    by destruct fil. }
  clearbody fil0. subst fil0. cbn [buf set_off] in Hw.
  inv_bind Hw. rename a into fil1.
  apply grow_spec in Ha as (Hf1 & Hwf1 & Hle1 & Hcase & Hlow & _ & Hokg);
    [|done|lia].
  cbn [buf off set_off] in *.
  inv_bind Hw. destruct a as [b2 m].
  apply copy_at_Ret in Ha as (Ho & Hm & Hl2 & Hc2 & Hn2 & Hv2); [|done].
  cbn [buf off set_off set_buf] in Hw.
  inv_bind Hw. rename a into b3. injection Hw as <- <-.
  pose proof Ha as (Hk & Hb3 & Hl3 & Hc3 & Hn3 & Hwf3)%reslice_Ret.
  assert (Hoff1 : off fil1 = o) by (rewrite Hf1; done).
  rewrite Hoff1 in *.
  pose proof (blen_nonneg (buf fil)) as Hl0.
  assert (Hmax : (if o + m >? blen (buf fil) then o + m else blen (buf fil))
                 = Z.max (blen (buf fil)) (o + m)).
  { destruct (Z.gtb_spec (o + m) (blen (buf fil))); lia. }
  rewrite Hmax in *. clear Hmax.
  assert (Hv3 : ∀ i, view b3 i = view b2 i).
  { intros i. unfold view. by rewrite Hb3. }
  split; [lia|]. split; [lia|].
  split. { rewrite Hf1. by destruct fil. }
  cbn [buf set_buf].
  split; [done|]. split; [lia|]. split; [lia|].
  split. { exists (buf fil1). split; [done|]. lia. }
  split.
  - intros Hcond. apply at0_ext.
    + rewrite length_sparse_write, !length_bytes_of by done. lengths. lia.
    + intros i Hi. rewrite length_bytes_of in Hi by done.
      rewrite at0_sparse_write, !bytes_of_view, at0_take. lengths.
      rewrite Hv3, Hv2.
      assert (Hlow' : (i < Z.to_nat (blen (buf fil)))%nat →
                      view (buf fil1) i = view (buf fil) i) by auto.
      repeat case_decide; try lia; auto.
      all: destruct Hcond as [Hok|Hcond]; [|lia].
      all: destruct (Hokg Hok) as [_ Hall]; rewrite Hall.
      all: apply buf_ok_view in Hok as [_ Hz]; apply Hz; lia.
  - intros Hok. destruct (Hokg Hok) as [Hok1 Hall].
    eapply reslice_ok; [done|].
    intros i Hi. rewrite Hv2. case_decide; [lia|].
    rewrite Hall. apply buf_ok_view in Hok as [_ Hz]. apply Hz. lia.
Qed.

Lemma copy_at_total (b : option slice) (o : Z) (p : list byte) :
  0 ≤ o ≤ blen b →
  ∃ b', copy_at b o p = Ret (b', Z.min (blen b - o) (Z.of_nat (length p))).
Proof.
  intros Ho. unfold copy_at.
  destruct (Z.leb_spec 0 o), (Z.leb_spec o (blen b)); try lia.
  destruct b as [s|]; simpl in *.
  - eexists. do 2 f_equal. lia.
  - eexists. do 2 f_equal. lia.
Qed.

(** A write at an offset of at most twice the capacity stores all of p. *)
Lemma write_full (fil : File) (p : list byte) :
  buf_wf (buf fil) →
  0 ≤ write_offset fil ≤ 2 * bcap (buf fil) →
  ∃ fil', write fil p = Ret (fil', Z.of_nat (length p)).
Proof.
  intros Hwf Ho. unfold write.
  set (fil0 := if appending fil then set_off fil (blen (buf fil)) else fil).
  assert (Hfil0 : fil0 = set_off fil (write_offset fil)).
  { unfold fil0, write_offset. destruct (appending fil); [done|].
    by destruct fil. }
  clearbody fil0. subst fil0. cbn [buf set_off].
  set (o := write_offset fil) in *.
  destruct (grow_total (set_off fil o) (Z.of_nat (length p))) as [fil1 Hg];
    [done|lia|].
  rewrite Hg. simpl.
  apply grow_spec in Hg as (Hf1 & Hwf1 & Hle1 & Hcase & _); [|done|lia].
  cbn [buf off set_off] in *.
  assert (Hoff1 : off fil1 = o) by (rewrite Hf1; done).
  rewrite Hoff1.
  pose proof (blen_nonneg (buf fil)) as Hl0.
  pose proof (buf_wf_le _ Hwf) as Hlc.
  pose proof (buf_wf_le _ Hwf1) as Hlc1.
  assert (Hfit : o + Z.of_nat (length p) ≤ blen (buf fil1)
                 ∧ (blen (buf fil) `max` (o + Z.of_nat (length p))) ≤ bcap (buf fil1)).
  { unfold grow_case in Hcase. cbn [buf off set_off] in Hcase.
    destruct Hcase as [[? ->]|[(?&?&?)|[(?&Hnil&?&?&?)|(?&?&?&?)]]];
      try lia.
    destruct (buf fil); [discriminate|]. simpl in *. lia. }
  destruct (copy_at_total (buf fil1) o p) as [b2 Hc]; [lia|].
  rewrite Hc. simpl.
  replace (Z.min (blen (buf fil1) - o) (Z.of_nat (length p)))
    with (Z.of_nat (length p)) by lia.
  apply copy_at_Ret in Hc as (_ & _ & Hl2 & Hc2 & _); [|done].
  destruct (reslice_total b2
              (if o + Z.of_nat (length p) >? blen (buf fil)
               then o + Z.of_nat (length p) else blen (buf fil))) as [b3 Hr].
  { destruct (Z.gtb_spec (o + Z.of_nat (length p)) (blen (buf fil))); lia. }
  rewrite Hr. simpl. eauto.
Qed.

(** ** Writing in append mode *)

Lemma sparse_write_end (c q : list byte) :
  sparse_write c (length c) q = c ++ q.
Proof.
  unfold sparse_write. rewrite resize_all.
  rewrite drop_ge by lia. by rewrite app_nil_r.
Qed.

Lemma Write_append (h : heap) (fil : File) (p : list byte) :
  IsDir fil = false → appending fil = true → buf_wf (buf fil) →
  ∃ fil', Write h fil p = Ret (fil', (Z.of_nat (length p), None))
          ∧ bytes_of (buf fil') = bytes_of (buf fil) ++ p
          ∧ off fil' = blen (buf fil) + Z.of_nat (length p).
Proof.
  intros Hdir Happ Hwf. unfold Write. rewrite Hdir.
  assert (Ho : write_offset fil = blen (buf fil))
    by (unfold write_offset; by rewrite Happ).
  pose proof (blen_nonneg (buf fil)). pose proof (buf_wf_le _ Hwf).
  destruct (write_full fil p) as [fil' Hw]; [done|lia|].
  rewrite Hw. simpl. exists fil'. split; [done|].
  apply write_spec in Hw as (_ & _ & Hf & _ & _ & _ & _ & Hc & _); [|done].
  rewrite Ho in *. split.
  - rewrite Hc by lia. rewrite take_ge by lia.
    rewrite <- (length_bytes_of _ Hwf). apply sparse_write_end.
  - rewrite Hf. done.
Qed.

(** C4. In append mode every Write stores all of p at the end of the
    content, wherever the cursor is; and a file made with the content
    [0,1,2,3] and the append option, after Seek(-2, end), Write([4,5]) and
    Seek(0, start), reads in full as [0,1,2,3,4,5]. *)
Theorem Write_append_mode :
  (∀ (h : heap) (fil : File) (p : list byte),
     IsDir fil = false → appending fil = true → buf_wf (buf fil) →
     ∃ fil', Write h fil p = Ret (fil', (Z.of_nat (length p), None))
             ∧ bytes_of (buf fil') = bytes_of (buf fil) ++ p
             ∧ off fil' = blen (buf fil) + Z.of_nat (length p))
  ∧ (∀ (name : string) (fil : File) (h : heap) (next_cap : nat → nat)
       (fuel : nat),
       FileWith name (bytes_lit [x00; x01; x02; x03]) [WithFileAppend]
         = Ret (Some fil, None) →
       ('(fil, _) ← Seek h fil (-2) 2;
        '(fil, _) ← Write h fil [x04; x05];
        '(fil, _) ← Seek h fil 0 0;
        '(_, r) ← ReadAll (S (S fuel)) next_cap h fil;
        Ret r) = Ret ([x00; x01; x02; x03; x04; x05], None)).
Proof.
  split; [apply Write_append|].
  intros name fil h next_cap fuel. unfold FileWith.
  destruct (negb (ValidPath name) || contains_slash name); [discriminate|].
  simpl. intros [= <-]. reflexivity.
Qed.

Lemma Write_append_mode_witness :
  (∃ fil', Write ∅ (mkFile 1 (bytes_lit [x00; x01; x02; x03]) O_APPEND
                      (mkFileInfo "file" 4 384) None 0 ∅) [x04; x05]
           = Ret (fil', (2, None))
           ∧ bytes_of (buf fil') = [x00; x01; x02; x03; x04; x05]
           ∧ off fil' = 6)
  ∧ ('(fil, _) ← Seek ∅ (mkFile 0 (bytes_lit [x00; x01; x02; x03]) O_APPEND
                           (mkFileInfo "file" 4 384) None 0 ∅) (-2) 2;
     '(fil, _) ← Write ∅ fil [x04; x05];
     '(fil, _) ← Seek ∅ fil 0 0;
     '(_, r) ← ReadAll 2 id ∅ fil;
     Ret r) = Ret ([x00; x01; x02; x03; x04; x05], None).
Proof.
  split.
  - apply (proj1 Write_append_mode ∅
             (mkFile 1 (bytes_lit [x00; x01; x02; x03]) O_APPEND
                (mkFileInfo "file" 4 384) None 0 ∅) [x04; x05]);
      [reflexivity|reflexivity|simpl; lia].
  - apply (proj2 Write_append_mode "file" _ ∅ id 0%nat). reflexivity.
Defined.

(** ** Writing beyond the capacity *)

(** C2. The code at the failing inputs: after a seek beyond twice the
    capacity, Write stores a part of p and reports no error, or panics.
    The file holds [0,1,2] (capacity 3); at offset 7 a Write of two bytes
    returns 1, at offset 9 it panics.  The same on the file of [NewFile]
    (capacity 512) at the offsets 1025 and 1027. *)
Theorem Write_after_far_seek (h : heap) :
  (fil ← created (FileWith "file" (bytes_lit [x00; x01; x02]) []);
   '(fil, _) ← Seek h fil 7 0;
   '(_, r) ← Write h fil [x01; x02];
   Ret r) = Ret (1, None)
  ∧ (fil ← created (FileWith "file" (bytes_lit [x00; x01; x02]) []);
     '(fil, _) ← Seek h fil 9 0;
     '(_, r) ← Write h fil [x01; x02];
     Ret r) = Panic (PanicRuntime "slice bounds out of range")
  ∧ (fil ← created (NewFile "file" []);
     '(fil, _) ← Seek h fil 1025 0;
     '(_, r) ← Write h fil [x01; x02];
     Ret r) = Ret (1, None)
  ∧ (fil ← created (NewFile "file" []);
     '(fil, _) ← Seek h fil 1027 0;
     '(_, r) ← Write h fil [x01; x02];
     Ret r) = Panic (PanicRuntime "slice bounds out of range").
Proof. repeat split; reflexivity. Qed.


(** ** [WriteAt] beyond the capacity *)

Lemma WriteAt_beyond (h : heap) (fil : File) (p : list byte) (o : Z) :
  IsDir fil = false → appending fil = false → buf_wf (buf fil) →
  0 ≤ o → o + Z.of_nat (length p) ≤ max_int64 →
  bcap (buf fil) < o + Z.of_nat (length p) →
  ∃ fil', WriteAt h fil p o = Ret (fil', (Z.of_nat (length p), None))
    ∧ off fil' = off fil
    ∧ blen (buf fil') = o + Z.of_nat (length p)
    ∧ bytes_of (buf fil') = resize (Z.to_nat o) x00 (bytes_of (buf fil)) ++ p
    ∧ bcap (buf fil') = WriteAt_capacity fil o (Z.of_nat (length p)).
Proof.
  intros Hdir Happ Hwf Ho Hmax Hbig.
  pose proof (blen_nonneg (buf fil)) as Hl0.
  pose proof (bcap_nonneg (buf fil)) as Hc0.
  pose proof (buf_wf_le _ Hwf) as Hlc.
  set (pl := Z.of_nat (length p)) in *.
  unfold WriteAt. rewrite Hdir, Happ. fold pl. cbn [buf set_off].
  assert (Hw1 : wrap64 (o + pl) = o + pl).
  { apply wrap64_id. unfold min_int64, max_int64 in *. lia. }
  rewrite Hw1.
  assert (Hw2 : wrap64 (o + pl - blen (buf fil)) = o + pl - blen (buf fil)).
  { apply wrap64_id. unfold min_int64, max_int64 in *. lia. }
  rewrite Hw2.
  destruct (Z.gtb_spec (o + pl) (bcap (buf fil))) as [_|?]; [|lia].
  set (fil0 := set_off fil (bcap (buf fil))).
  destruct (grow_total fil0 (o + pl - blen (buf fil))) as [fil1 Hg];
    [done|lia|].
  rewrite Hg. simpl.
  apply grow_spec in Hg as (Hf1 & Hwf1 & Hle1 & Hcase & Hlow & Hzero & _);
    [|done|unfold fil0; simpl; lia].
  unfold grow_case in Hcase. cbn [fil0 buf off set_off] in *.
  specialize (Hzero ltac:(lia)).
  assert (Hcap1 : bcap (buf fil1) = WriteAt_capacity fil o pl
                  ∧ o + pl ≤ bcap (buf fil1)).
  { unfold WriteAt_capacity.
    destruct Hcase as [[? _]|[(?&_)|[(_&Hnil&Hs&_&Hc)|(_&Hns&_&Hc)]]];
      try lia.
    - rewrite Hnil. destruct (buf fil); [discriminate|]. simpl in *.
      destruct (Z.leb_spec (o + pl) smallBufferSize); simpl; lia.
    - destruct (buf fil) as [s|]; simpl in *.
      + lia.
      + destruct Hns as [?|Hns]; [discriminate|].
        destruct (Z.leb_spec (o + pl) smallBufferSize); simpl; lia. }
  destruct Hcap1 as [Hcap1 Hfit].
  destruct (reslice_total (buf fil1) (o + pl)) as [b2 Hr]; [lia|].
  rewrite Hr. simpl.
  pose proof Hr as (_ & Hb2 & Hl2 & Hc2 & _ & Hwf2)%reslice_Ret.
  set (fil2 := set_off (set_buf fil1 b2) o).
  assert (Happ2 : appending fil2 = false).
  { unfold fil2. rewrite Hf1. done. }
  assert (Hwo : write_offset fil2 = o).
  { unfold write_offset. rewrite Happ2. done. }
  destruct (write_full fil2 p) as [fil3 Hw].
  { done. }
  { rewrite Hwo. unfold fil2. simpl. lia. }
  rewrite Hw. simpl. eexists. split; [done|].
  apply write_spec in Hw
    as (_ & _ & Hf3 & Hwf3 & Hl3 & _ & (b1 & Hcase3 & Hc3) & Hcont & _);
    [|done].
  rewrite Hwo in *. cbn [fil2 buf off set_off set_buf] in *. fold pl in Hl3, Hcase3.
  cbn [off set_off]. split; [done|].
  split; [lia|]. split.
  - rewrite Hcont by lia. rewrite take_ge by lia.
    apply at0_ext.
    + rewrite length_sparse_write. lengths.
      rewrite !length_bytes_of by done. lia.
    + intros i _. rewrite at0_sparse_write. at0_simpl.
      rewrite !bytes_of_view. lengths.
      assert (Hv2 : ∀ j, view b2 j = view (buf fil1) j)
        by (intros j; unfold view; by rewrite Hb2).
      rewrite Hv2.
      repeat case_decide; try lia; auto.
      all: try (f_equal; lia).
      all: try (apply Hzero; lia).
      symmetry. apply at0_ge. lia.
  - rewrite Hc3, <- Hcap1, <- Hc2.
    unfold grow_case, fil2 in Hcase3.
    cbn [buf off set_off set_buf] in Hcase3. fold pl in Hcase3.
    destruct Hcase3 as [[_ ->]|[(?&_)|[(?&_)|(?&_)]]]; [done|lia..].
Qed.

Lemma maxAlloc_max_int64 : maxAlloc < max_int64.
Proof. reflexivity. Qed.

Lemma WriteAt_capacity_fits (fil : File) (o pl : Z) :
  buf_wf (buf fil) → o + pl ≤ WriteAt_capacity fil o pl.
Proof.
  intros Hwf. pose proof (buf_wf_le _ Hwf). pose proof (bcap_nonneg (buf fil)).
  unfold WriteAt_capacity.
  destruct (is_nil (buf fil)); simpl; [|lia].
  destruct (Z.leb_spec (o + pl) smallBufferSize); lia.
Qed.

(** C7, as the code has it.  On a file node not in append mode, WriteAt of
    p at an offset o >= 0 with o + len(p) beyond the capacity, when the
    capacity it asks for is at most [maxAlloc], stores all of p, leaves the
    cursor where it was, makes the length o + len(p) and the content the
    old content, zeros up to o, then p.  The capacity it leaves is the one
    of the growth of sequential writes, twice the old capacity plus the
    bytes the length grows by; a nil buffer that needs at most 64 bytes
    gets the capacity 64.  That capacity is o + len(p) exactly when the old
    capacity was zero and the buffer was not a nil one that needs fewer
    than 64 bytes; it is greater otherwise, so whenever the old capacity
    was positive. *)
Theorem WriteAt_beyond_capacity
    (h : heap) (fil : File) (p : list byte) (o : Z) :
  IsDir fil = false → appending fil = false → buf_wf (buf fil) →
  0 ≤ o → bcap (buf fil) < o + Z.of_nat (length p) →
  WriteAt_capacity fil o (Z.of_nat (length p)) ≤ maxAlloc →
  ∃ fil', WriteAt h fil p o = Ret (fil', (Z.of_nat (length p), None))
    ∧ off fil' = off fil
    ∧ blen (buf fil') = o + Z.of_nat (length p)
    ∧ bytes_of (buf fil') = resize (Z.to_nat o) x00 (bytes_of (buf fil)) ++ p
    ∧ bcap (buf fil') =
        (if is_nil (buf fil) && (o + Z.of_nat (length p) <=? smallBufferSize)
         then smallBufferSize
         else 2 * bcap (buf fil) + (o + Z.of_nat (length p) - blen (buf fil)))
    ∧ o + Z.of_nat (length p) ≤ bcap (buf fil')
    ∧ (bcap (buf fil') = o + Z.of_nat (length p)
       ↔ bcap (buf fil) = 0
         ∧ (is_nil (buf fil) = false
            ∨ smallBufferSize ≤ o + Z.of_nat (length p))).
Proof.
  intros Hdir Happ Hwf Ho Hbig Halloc.
  pose proof (WriteAt_capacity_fits fil o (Z.of_nat (length p)) Hwf) as Hfits.
  pose proof maxAlloc_max_int64 as Hlim.
  destruct (WriteAt_beyond h fil p o) as (fil' & Hw & Hoff & Hlen & Hc & Hcap);
    [done|done|done|done|lia|done|].
  exists fil'. rewrite Hcap. do 5 (split; [done|]). split; [done|].
  pose proof (buf_wf_le _ Hwf). pose proof (bcap_nonneg (buf fil)).
  pose proof (blen_nonneg (buf fil)).
  unfold WriteAt_capacity, smallBufferSize in *.
  destruct (buf fil) as [s|]; simpl in *.
  - split; [intros; split; [lia|by left]|intros [? _]; lia].
  - destruct (Z.leb_spec (o + Z.of_nat (length p)) 64);
      (split; [intros; split; [lia|right; lia]|intros [_ [?|?]]; [done|lia]]).
Qed.

Lemma WriteAt_beyond_capacity_witness :
  ∃ fil', WriteAt ∅ (mkFile 0 (bytes_lit [x00; x01; x02]) 0
                       (mkFileInfo "file" 3 384) None 0 ∅) [x03; x04; x05] 8
            = Ret (fil', (3, None))
    ∧ off fil' = 0
    ∧ blen (buf fil') = 11
    ∧ bytes_of (buf fil')
      = [x00; x01; x02; x00; x00; x00; x00; x00] ++ [x03; x04; x05]
    ∧ bcap (buf fil') = 14
    ∧ 11 ≤ bcap (buf fil')
    ∧ (bcap (buf fil') = 11 ↔ 3 = 0 ∧ (false = false ∨ 64 ≤ 11)).
Proof.
  apply (WriteAt_beyond_capacity ∅
           (mkFile 0 (bytes_lit [x00; x01; x02]) 0 (mkFileInfo "file" 3 384)
              None 0 ∅) [x03; x04; x05] 8);
    first [reflexivity | simpl; lia | vm_compute; discriminate].
Defined.

(** C7 as stated fails: the file holds [0,1,2] (capacity 3); after
    WriteAt([3,4,5], 1000) the length is 1003 and the capacity 1006. *)
Lemma WriteAt_capacity_not_exact :
  (fil ← created (FileWith "file" (bytes_lit [x00; x01; x02]) []);
   '(fil', r) ← WriteAt ∅ fil [x03; x04; x05] 1000;
   Ret (r, Len fil', Cap fil')) = Ret ((3, None), 1003, 1006)
  ∧ 1006 ≠ 1000 + 3.
Proof. split; [reflexivity|lia]. Qed.

(** ** Truncate, Grow and Seek *)

Lemma reslice_content (b b' : option slice) (k : Z) (c : list byte) :
  reslice b k = Ret b' →
  (∀ i, view b i = if decide (i < Z.to_nat k)%nat then at0 c i else x00) →
  buf_ok b' ∧ bytes_of b' = resize (Z.to_nat k) x00 c.
Proof.
  intros Hr Hv.
  pose proof Hr as (Hk & Hb & Hl & Hc & _ & Hwf)%reslice_Ret.
  destruct (reslice_ok _ _ _ Hr) as [Hok Hv'].
  { intros i Hi. rewrite Hv. case_decide; [lia|done]. }
  split; [done|]. apply at0_ext.
  - rewrite length_bytes_of by done. lengths. lia.
  - intros i _. rewrite bytes_of_view, at0_resize, Hv', Hv, Hl.
    repeat case_decide; try lia; auto.
Qed.

Lemma buf_ok_content (b : option slice) (i : nat) :
  buf_ok b → view b i = at0 (bytes_of b) i.
Proof.
  intros Hok. rewrite bytes_of_view. case_decide; [done|].
  apply buf_ok_view in Hok as [_ Hz]. apply Hz. lia.
Qed.

Lemma zeroOutSlice_from_Ret (b b' : option slice) (from : Z) :
  zeroOutSlice_from b from = Ret b' → buf_wf b →
  0 ≤ from ≤ blen b ∧ blen b' = blen b ∧ bcap b' = bcap b
  ∧ ∀ i, view b' i =
      if decide (Z.to_nat from ≤ i < Z.to_nat (blen b))%nat
      then x00 else view b i.
Proof.
  unfold zeroOutSlice_from.
  destruct (Z.leb_spec 0 from), (Z.leb_spec from (blen b)); simpl;
    try discriminate.
  destruct b as [s|]; intros [= <-] Hwf; simpl in *.
  - split; [lia|]. split; [done|]. split; [lengths; lia|].
    intros i. unfold view. simpl. at0_simpl. lengths.
    repeat case_decide; try lia; auto. f_equal. lia.
  - repeat split; try lia. intros i. destruct (decide _); [lia|done].
Qed.

Lemma Truncate_spec (h : heap) (fil fil' : File) (size : Z)
    (err : option error) :
  Truncate h fil size = Ret (fil', err) → buf_ok (buf fil) →
  buf_ok (buf fil')
  ∧ bytes_of (buf fil')
    = replay (bytes_of (buf fil)) (logged err (EvTruncate size)).
Proof.
  intros Ht Hok. unfold Truncate in Ht.
  pose proof (buf_ok_wf _ Hok) as Hwf.
  pose proof (blen_nonneg (buf fil)) as Hl0.
  pose proof (buf_wf_le _ Hwf) as Hlc.
  destruct (IsDir fil).
  { inv_bind Ht. by injection Ht as <- <-. }
  destruct (Z.ltb_spec size 0) as [|Hs0].
  { inv_bind Ht. by injection Ht as <- <-. }
  inv_bind Ht. injection Ht as <- <-. rename a into fil1.
  cbn [buf set_off logged replay foldl apply_event].
  unfold sparse_truncate.
  assert (Hgoal : ∀ b b', reslice b size = Ret b' →
            (∀ i, (i < Z.to_nat size)%nat → view b i = view (buf fil) i) →
            (∀ i, (Z.to_nat size ≤ i)%nat → view b i = x00) →
            buf_ok b' ∧ bytes_of b' = resize (Z.to_nat size) x00 (bytes_of (buf fil))).
  { intros b b' Hr Hlo Hhi. eapply reslice_content; [done|].
    intros i. case_decide.
    - rewrite Hlo by done. by apply buf_ok_content.
    - apply Hhi. lia. }
  assert (Hzero : ∀ i, (Z.to_nat (blen (buf fil)) ≤ i)%nat →
                       view (buf fil) i = x00).
  { apply buf_ok_view in Hok as [_ Hz]. done. }
  destruct (Z.eqb_spec size (blen (buf fil))) as [->|Hne].
  { injection Ha as <-. split; [done|].
    rewrite <- (length_bytes_of _ Hwf). by rewrite resize_all. }
  destruct (Z.eqb_spec size (bcap (buf fil))) as [Hc|Hnc].
  { inv_bind Ha. injection Ha as <-. cbn [buf set_buf].
    eapply Hgoal; [done|done|]. intros i Hi. apply Hzero. lia. }
  destruct ((size >? blen (buf fil)) && (size <? bcap (buf fil))) eqn:Hmid.
  { apply andb_true_iff in Hmid as [?%Z.gtb_lt ?%Z.ltb_lt].
    inv_bind Ha. injection Ha as <-. cbn [buf set_buf].
    eapply Hgoal; [done|done|]. intros i Hi. apply Hzero. lia. }
  destruct (Z.gtb_spec size (bcap (buf fil))) as [Hbig|Hsmall].
  { inv_bind Ha. rename a into fil2.
    apply grow_spec in Ha0 as (_ & _ & _ & _ & _ & _ & Hg); [|done|lia].
    cbn [buf set_off] in Hg. destruct (Hg Hok) as [Hok2 Hv2].
    inv_bind Ha. injection Ha as <-. cbn [buf set_buf].
    eapply Hgoal; [done|intros; apply Hv2|].
    intros i Hi. rewrite Hv2. apply Hzero. lia. }
  assert (size < blen (buf fil)).
  { apply andb_false_iff in Hmid as [Hm|?%Z.ltb_ge]; [|lia].
    rewrite Z.gtb_ltb in Hm. apply Z.ltb_ge in Hm. lia. }
  inv_bind Ha. rename a into b1.
  apply zeroOutSlice_from_Ret in Ha0 as (_ & Hl1 & Hc1 & Hv1); [|done].
  inv_bind Ha. injection Ha as <-. cbn [buf set_buf].
  eapply Hgoal; [done| |].
  - intros i Hi. rewrite Hv1. case_decide; [lia|done].
  - intros i Hi. rewrite Hv1. case_decide; [done|]. apply Hzero. lia.
Qed.

Lemma Grow_spec (fil fil' : File) (n : Z) :
  Grow fil n = Ret fil' → buf_ok (buf fil) →
  buf_ok (buf fil') ∧ bytes_of (buf fil') = bytes_of (buf fil).
Proof.
  intros Hg Hok. unfold Grow in Hg.
  pose proof (buf_ok_wf _ Hok) as Hwf.
  destruct (Z.ltb_spec n 0); [discriminate|].
  pose proof (buf_wf_le _ Hwf) as Hlc.
  destruct (IsDir fil); [by injection Hg as <-|].
  destruct (Z.leb_spec (wrap64 (blen (buf fil) + n)) (bcap (buf fil)));
    [by injection Hg as <-|].
  inv_bind Hg. rename a into tmp. inv_bind Hg. injection Hg as <-.
  cbn [buf set_buf].
  eapply copy_into_fresh in Ha as (_ & _ & Hok1 & Hv1); [|done|lia].
  eapply reslice_content in Ha0 as [? ->].
  - split; [done|].
    rewrite <- (length_bytes_of _ Hwf). apply resize_all.
  - intros i. rewrite Hv1. rewrite (buf_ok_content _ _ Hok).
    case_decide; [done|]. apply at0_ge.
    rewrite length_bytes_of by done. lia.
Qed.

Lemma Seek_buf (h : heap) (fil fil' : File) (offset whence : Z)
    (r : Z * option error) :
  Seek h fil offset whence = Ret (fil', r) → buf fil' = buf fil.
Proof.
  unfold Seek. intros Hs.
  destruct (IsDir fil); [inv_bind Hs; by injection Hs as <- <-|].
  destruct (Z.ltb _ 0); [inv_bind Hs; by injection Hs as <- <-|].
  by injection Hs as <- <-.
Qed.

(** ** Sequences of operations *)


Lemma Write_spec (h : heap) (fil fil' : File) (p : list byte) (n : Z)
    (err : option error) :
  Write h fil p = Ret (fil', (n, err)) → buf_ok (buf fil) →
  buf_ok (buf fil')
  ∧ bytes_of (buf fil')
    = replay (bytes_of (buf fil))
        (logged err (EvWrite (write_offset fil) (take (Z.to_nat n) p))).
Proof.
  intros Hw Hok. unfold Write in Hw.
  destruct (IsDir fil).
  { inv_bind Hw. by injection Hw as <- <- <-. }
  inv_bind Hw. destruct a as [fil1 m]. injection Hw as <- <- <-.
  apply write_spec in Ha as (_ & _ & _ & _ & _ & _ & _ & Hc & Hok');
    [|by apply buf_ok_wf].
  split; [auto|]. simpl. apply Hc. auto.
Qed.

Lemma WriteByte_spec (h : heap) (fil fil' : File) (b : byte)
    (err : option error) :
  WriteByte h fil b = Ret (fil', err) → buf_ok (buf fil) →
  buf_ok (buf fil')
  ∧ bytes_of (buf fil')
    = replay (bytes_of (buf fil))
        (logged err (EvWrite (write_offset fil)
                       (take (Z.to_nat (off fil' - write_offset fil)) [b]))).
Proof.
  intros Hw Hok. unfold WriteByte in Hw.
  destruct (IsDir fil).
  { inv_bind Hw. by injection Hw as <- <-. }
  inv_bind Hw. destruct a as [fil1 m]. injection Hw as <- <-.
  apply write_spec in Ha as (_ & _ & Hf & _ & _ & _ & _ & Hc & Hok');
    [|by apply buf_ok_wf].
  split; [auto|]. simpl.
  replace (off fil1 - write_offset fil) with m.
  - apply Hc. auto.
  - rewrite Hf. simpl. lia.
Qed.

Lemma WriteAt_spec (h : heap) (fil fil' : File) (p : list byte) (o n : Z)
    (err : option error) :
  WriteAt h fil p o = Ret (fil', (n, err)) →
  min_int64 ≤ o ≤ max_int64 → Z.of_nat (length p) ≤ max_int64 →
  buf_ok (buf fil) →
  buf_ok (buf fil')
  ∧ bytes_of (buf fil')
    = replay (bytes_of (buf fil)) (logged err (EvWrite o (take (Z.to_nat n) p))).
Proof.
  intros Hw Ho Hp Hok. unfold WriteAt in Hw.
  pose proof (buf_ok_wf _ Hok) as Hwf.
  pose proof (blen_nonneg (buf fil)) as Hl0.
  pose proof (bcap_nonneg (buf fil)) as Hc0.
  pose proof (buf_wf_le _ Hwf) as Hlc.
  destruct (IsDir fil).
  { inv_bind Hw. by injection Hw as <- <- <-. }
  destruct (appending fil) eqn:Happ.
  { by injection Hw as <- <- <-. }
  set (pl := Z.of_nat (length p)) in *.
  inv_bind Hw. rename a into fil1.
  inv_bind Hw. destruct a as [fil2 m]. injection Hw as <- <- <-.
  cbn [buf set_off logged replay foldl apply_event].
  destruct (Z.gtb_spec (wrap64 (o + pl)) (bcap (buf fil))) as [Hbig|Hsmall].
  - (* the buffer is grown to o + len(p) first *)
    assert (Hfit : o + pl ≤ max_int64).
    { destruct (Z.le_gt_cases (o + pl) max_int64) as [?|Hover]; [done|].
      exfalso. unfold wrap64, min_int64, max_int64 in *.
      replace (o + pl + 2 ^ 63) with ((o + pl - 2 ^ 63) + 1 * 2 ^ 64) in Hbig
        by lia.
      rewrite Z.mod_add, Z.mod_small in Hbig by lia. lia. }
    assert (Hs : wrap64 (o + pl) = o + pl).
    { apply wrap64_id. unfold min_int64, max_int64 in *. lia. }
    rewrite Hs in *. cbn [buf set_off] in Ha.
    rewrite wrap64_id in Ha by (unfold min_int64, max_int64 in *; lia).
    inv_bind Ha. rename a into fil3.
    apply grow_spec in Ha1 as (Hf3 & _ & _ & _ & _ & _ & Hg); [|done|simpl; lia].
    cbn [buf set_off] in Hg. destruct (Hg Hok) as [Hok3 Hv3].
    inv_bind Ha. injection Ha as <-.
    eapply (reslice_content _ _ _ (bytes_of (buf fil))) in Ha1 as [Hok4 Hc4].
    2:{ intros i. rewrite Hv3, (buf_ok_content _ _ Hok).
        case_decide; [done|]. apply at0_ge.
        rewrite length_bytes_of by done. lia. }
    assert (Happ4 : appending (set_off (set_buf fil3 a) o) = false).
    { rewrite Hf3. done. }
    apply write_spec in Ha0
      as (Ho0 & Hm & _ & Hwf2 & Hl2 & Hfull & _ & Hc2 & Hok2);
      [|by apply buf_ok_wf].
    unfold write_offset in *. rewrite Happ4 in *.
    cbn [buf off set_off set_buf] in *.
    assert (Hla : blen a = o + pl).
    { rewrite <- (Z2Nat.id (blen a)) by apply blen_nonneg.
      rewrite <- length_bytes_of by (by apply buf_ok_wf).
      rewrite Hc4. lengths. lia. }
    fold pl in Hfull, Hm. specialize (Hfull ltac:(lia)). subst m.
    split; [auto|]. rewrite Hc2, Hc4 by auto.
    apply at0_ext.
    + rewrite !length_sparse_write. lengths.
      rewrite length_bytes_of by done. lia.
    + intros i _. rewrite !at0_sparse_write. at0_simpl. lengths.
      repeat case_decide; try lia; auto.
      symmetry. apply at0_ge. rewrite length_bytes_of by done. lia.
  - injection Ha as <-.
    apply write_spec in Ha0 as (_ & _ & _ & _ & _ & _ & _ & Hc & Hok');
      [|done].
    rewrite write_offset_set_off in Hc by done.
    split; [auto|]. apply Hc. auto.
Qed.

Lemma step_spec (h : heap) (fil fil' : File) (o : op) (evs : list event) :
  step h fil o = Ret (fil', evs) → representable o → buf_ok (buf fil) →
  buf_ok (buf fil')
  ∧ bytes_of (buf fil') = replay (bytes_of (buf fil)) evs.
Proof.
  intros Hs Hrep Hok. destruct o as [p|p o|b|size|n|offset whence];
    simpl in Hs; inv_bind Hs.
  - destruct a as [fil1 [n err]]. injection Hs as <- <-.
    by eapply Write_spec.
  - destruct a as [fil1 [n err]]. injection Hs as <- <-.
    destruct Hrep. by eapply WriteAt_spec.
  - destruct a as [fil1 err]. injection Hs as <- <-.
    by eapply WriteByte_spec.
  - destruct a as [fil1 err]. injection Hs as <- <-.
    by eapply Truncate_spec.
  - injection Hs as <- <-. by eapply Grow_spec.
  - destruct a as [fil1 r]. injection Hs as <- <-.
    apply Seek_buf in Ha. rewrite Ha. done.
Qed.

Lemma replay_app (c : list byte) (l1 l2 : list event) :
  replay c (l1 ++ l2) = replay (replay c l1) l2.
Proof. apply foldl_app. Qed.

Lemma run_spec (h : heap) (ops : list op) (fil fil' : File) (log : list event) :
  run h fil ops = Ret (fil', log) → Forall representable ops →
  buf_ok (buf fil) →
  buf_ok (buf fil')
  ∧ bytes_of (buf fil') = replay (bytes_of (buf fil)) log.
Proof.
  revert fil log. induction ops as [|o ops IH]; intros fil log Hr Hrep Hok.
  - by injection Hr as <- <-.
  - simpl in Hr. inv_bind Hr. destruct a as [fil1 ev].
    inv_bind Hr. destruct a as [fil2 evs]. injection Hr as <- <-.
    apply Forall_cons in Hrep as [Ho Hops].
    destruct (step_spec _ _ _ _ _ Ha Ho Hok) as [Hok1 Hc1].
    destruct (IH _ _ Ha0 Hops Hok1) as [Hok2 Hc2].
    split; [done|]. by rewrite replay_app, <- Hc1.
Qed.

(** Without a truncation, replaying a log never shortens the content. *)
Lemma replay_writes_length (log : list event) (c : list byte) :
  Forall is_write log → (length c ≤ length (replay c log))%nat.
Proof.
  revert c. induction log as [|ev log IH]; intros c Hw; [done|].
  apply Forall_cons in Hw as [Hev Hw]. simpl.
  etrans; [|apply IH; done].
  destruct ev as [o q|?]; [|done]. simpl.
  rewrite length_sparse_write. lia.
Qed.

(** C3, as the code has it, for the operations of the buffer other than
    [ReadFrom].  Whenever a sequence of Write, WriteAt, WriteByte,
    Truncate, Grow and Seek ends without a panic on a buffer whose bytes
    between length and capacity are zero, these bytes are zero again; the
    content is the one of a sparse file on which the stored bytes and the
    truncations were replayed, so a byte that was never written reads as
    zero; and the length reaches the end of every write that no truncation
    follows. *)
Theorem buffer_operations_keep_invariant
    (h : heap) (ops : list op) (fil fil' : File) (log : list event) :
  Forall representable ops →
  buf_ok (buf fil) →
  run h fil ops = Ret (fil', log) →
  buf_ok (buf fil')
  ∧ bytes_of (buf fil') = replay (bytes_of (buf fil)) log
  ∧ ∀ log1 o q log2,
      log = log1 ++ EvWrite o q :: log2 → Forall is_write log2 →
      Z.of_nat (Z.to_nat o + length q) ≤ Len fil'.
Proof.
  intros Hrep Hok Hr.
  destruct (run_spec _ _ _ _ _ Hr Hrep Hok) as [Hok' Hc].
  split; [done|]. split; [done|].
  intros log1 o q log2 -> Hw2.
  unfold Len. rewrite <- (Z2Nat.id (blen _)) by apply blen_nonneg.
  rewrite <- length_bytes_of by (by apply buf_ok_wf).
  rewrite Hc, replay_app. simpl.
  apply inj_le. etrans; [|by apply replay_writes_length].
  rewrite length_sparse_write. lia.
Qed.

Lemma buffer_operations_keep_invariant_witness :
  buf_ok (bytes_lit [x00; x01; x04; x05])
  ∧ bytes_of (bytes_lit [x00; x01; x04; x05])
    = replay (bytes_of (bytes_lit [x00; x01; x02; x03]))
        [EvTruncate 2; EvWrite 2 [x04; x05]]
  ∧ ∀ log1 o q log2,
      [EvTruncate 2; EvWrite 2 [x04; x05]] = log1 ++ EvWrite o q :: log2 →
      Forall is_write log2 →
      Z.of_nat (Z.to_nat o + length q)
      ≤ Len (mkFile 4 (bytes_lit [x00; x01; x04; x05]) 0
               (mkFileInfo "file" 4 384) None 0 ∅).
Proof.
  apply (buffer_operations_keep_invariant ∅
           [OpTruncate 2; OpSeek 0 2; OpWrite [x04; x05]]
           (mkFile 0 (bytes_lit [x00; x01; x02; x03]) 0
              (mkFileInfo "file" 4 384) None 0 ∅)
           (mkFile 4 (bytes_lit [x00; x01; x04; x05]) 0
              (mkFileInfo "file" 4 384) None 0 ∅)
           [EvTruncate 2; EvWrite 2 [x04; x05]]).
  - repeat constructor.
  - split; [simpl; lia|reflexivity].
  - reflexivity.
Defined.

(** C3 as stated fails: a truncation leaves the length below an offset
    that was written.  On the file of [NewFile], Write([1,2,3]) and
    Truncate(0) leave the length 0. *)
Lemma Truncate_lowers_length :
  (fil ← created (NewFile "file" []);
   '(fil', log) ← run ∅ fil [OpWrite [x01; x02; x03]; OpTruncate 0];
   Ret (log, Len fil'))
  = Ret ([EvWrite 0 [x01; x02; x03]; EvTruncate 0], 0).
Proof. reflexivity. Qed.

(** ** Listing a directory *)


Lemma sorted_names_elem (fil : File) (name : string) :
  name ∈ sorted_names fil ↔ is_Some (entries fil !! name).
Proof.
  unfold sorted_names. rewrite merge_sort_Permutation.
  rewrite list_elem_of_fmap. split.
  - intros [[k l] [-> Hin]]. apply elem_of_map_to_list in Hin. eauto.
  - intros [l Hl]. exists (name, l). split; [done|].
    by apply elem_of_map_to_list.
Qed.

Lemma sorted_names_length (fil : File) :
  length (sorted_names fil) = size (entries fil).
Proof.
  unfold sorted_names. rewrite merge_sort_Permutation.
  rewrite length_fmap. apply length_map_to_list.
Qed.

Lemma sorted_names_sorted (fil : File) :
  StronglySorted String.le (sorted_names fil).
Proof. apply StronglySorted_merge_sort; apply _. Qed.

Lemma sorted_names_NoDup (fil : File) : NoDup (sorted_names fil).
Proof.
  unfold sorted_names. rewrite merge_sort_Permutation.
  apply NoDup_fst_map_to_list.
Qed.

Lemma read_entries_spec (h : heap) (fil : File) (names : list string)
    (cnt : nat) (i : Z) :
  0 ≤ i → (Z.to_nat i + cnt ≤ length names)%nat →
  (∀ name, name ∈ names → ∃ l, entries fil !! name = Some l ∧ is_Some (h !! l)) →
  ∃ ets, read_entries h fil names i cnt = Ret ets
         ∧ Forall2 (listed h fil) (take cnt (drop (Z.to_nat i) names)) ets.
Proof.
  revert i. induction cnt as [|cnt IH]; intros i Hi Hlen Hnames.
  - exists []. split; [done|]. rewrite take_0. constructor.
  - simpl. unfold index. destruct (Z.ltb_spec i 0); [lia|].
    destruct (names !! Z.to_nat i) as [name|] eqn:Hn.
    2:{ apply lookup_ge_None in Hn. lia. }
    simpl.
    destruct (Hnames name) as (l & Hl & [file Hf]).
    { by eapply list_elem_of_lookup_2. }
    rewrite Hl. simpl. unfold deref. rewrite Hf. simpl.
    destruct (IH (i + 1)) as (ets & -> & Hets); [lia|lia|done|].
    simpl. eexists. split; [done|].
    rewrite (drop_S _ _ _ Hn). simpl. constructor.
    + exists l, file. done.
    + replace (S (Z.to_nat i)) with (Z.to_nat (i + 1)) by lia. done.
Qed.

Lemma ReadDir_remaining (h : heap) (fil : File) (n : Z) :
  IsDir fil = true → n ≤ 0 → 0 ≤ cursor fil →
  Z.of_nat (size (entries fil)) ≤ max_int64 →
  (∀ name l, entries fil !! name = Some l → is_Some (h !! l)) →
  let count := Z.of_nat (size (entries fil)) in
  (cursor fil < count →
   ∃ ets, ReadDir h fil n = Ret (set_cursor fil count, (Some ets, None))
          ∧ Forall2 (listed h fil)
              (drop (Z.to_nat (cursor fil)) (sorted_names fil)) ets)
  ∧ (count ≤ cursor fil → ReadDir h fil n = Ret (fil, (None, Some EOF))).
Proof.
  intros Hdir Hn Hcur Hmax Hclosed count. unfold ReadDir. rewrite Hdir.
  fold count. simpl. split; intros Hc.
  - destruct (Z.leb_spec n 0); [|lia].
    destruct (Z.geb_spec (cursor fil) count); [lia|].
    rewrite (wrap64_id (count - cursor fil))
      by (unfold min_int64, max_int64 in *; lia).
    replace (cursor fil + (count - cursor fil)) with count by lia.
    rewrite wrap64_id by (unfold min_int64, max_int64 in *; lia).
    destruct (Z.gtb_spec count count); [lia|].
    destruct (Z.ltb_spec (count - cursor fil) 0); [lia|].
    destruct (read_entries_spec h fil (sorted_names fil)
                (Z.to_nat (count - cursor fil)) (cursor fil))
      as (ets & -> & Hets); [done| |..].
    + rewrite sorted_names_length. lia.
    + intros name [l Hl]%sorted_names_elem. eauto.
    + simpl. exists ets. split; [done|].
      rewrite take_ge in Hets; [done|].
      rewrite length_drop, sorted_names_length. lia.
  - destruct (Z.geb_spec (cursor fil) count); [done|lia].
Qed.

(** C5, as the code has it.  On a directory node whose entries are nodes
    of the heap, ReadDir(n) with n <= 0 returns without an error the
    entries from the cursor on, in the order of their names, and moves the
    cursor to the end, when at least one entry remains; when none remains
    (an empty directory, or a cursor at the end) it returns no entries and
    [io.EOF].  The names are sorted, without repetition, and are the keys
    of the directory's map, whatever the order they were added in; a
    directory that received "file2", "file0", "file1" in this order lists
    "file0", "file1", "file2". *)
Theorem ReadDir_all_remaining :
  (∀ (h : heap) (fil : File) (n : Z),
     IsDir fil = true → n ≤ 0 → 0 ≤ cursor fil →
     Z.of_nat (size (entries fil)) ≤ max_int64 →
     (∀ name l, entries fil !! name = Some l → is_Some (h !! l)) →
     (cursor fil < Z.of_nat (size (entries fil)) →
      ∃ ets, ReadDir h fil n
               = Ret (set_cursor fil (Z.of_nat (size (entries fil))),
                      (Some ets, None))
             ∧ Forall2 (listed h fil)
                 (drop (Z.to_nat (cursor fil)) (sorted_names fil)) ets)
     ∧ (Z.of_nat (size (entries fil)) ≤ cursor fil →
        ReadDir h fil n = Ret (fil, (None, Some EOF))))
  ∧ (∀ fil : File,
       StronglySorted String.le (sorted_names fil)
       ∧ NoDup (sorted_names fil)
       ∧ ∀ name, name ∈ sorted_names fil ↔ is_Some (entries fil !! name))
  ∧ ('(h, d) ← new ∅ (NewDirectory "dir");
     '(h, f2) ← new h (FileWith "file2" (bytes_lit [x02]) []);
     '(h, f0) ← new h (FileWith "file0" (bytes_lit [x00]) []);
     '(h, f1) ← new h (FileWith "file1" (bytes_lit [x01]) []);
     '(h, _) ← AddFile h d f2;
     '(h, _) ← AddFile h d f0;
     '(h, _) ← AddFile h d f1;
     dir ← deref h d;
     '(_, r) ← ReadDir h dir (-1);
     Ret (fst r ≫= Some ∘ map info_Name, snd r))
    = Ret (Some ["file0"; "file1"; "file2"], None).
Proof.
  split; [intros; by apply ReadDir_remaining|].
  split; [|by vm_compute].
  intros fil. split; [apply sorted_names_sorted|].
  split; [apply sorted_names_NoDup|apply sorted_names_elem].
Qed.

Lemma ReadDir_all_remaining_witness :
  (1 < Z.of_nat (size (entries (set_cursor
         (set_entries NewRoot {[ "a" := 2%positive; "b" := 3%positive ]}) 1))) →
   ∃ ets,
     ReadDir {[ 2%positive := NewRoot; 3%positive := NewRoot ]}
       (set_cursor
          (set_entries NewRoot {[ "a" := 2%positive; "b" := 3%positive ]}) 1) 0
     = Ret (set_cursor
              (set_cursor
                 (set_entries NewRoot {[ "a" := 2%positive; "b" := 3%positive ]}) 1)
              (Z.of_nat (size (entries (set_cursor
                 (set_entries NewRoot {[ "a" := 2%positive; "b" := 3%positive ]}) 1)))),
            (Some ets, None))
     ∧ Forall2 (listed {[ 2%positive := NewRoot; 3%positive := NewRoot ]}
                  (set_cursor
                     (set_entries NewRoot {[ "a" := 2%positive; "b" := 3%positive ]}) 1))
         (drop (Z.to_nat 1)
            (sorted_names (set_cursor
               (set_entries NewRoot {[ "a" := 2%positive; "b" := 3%positive ]}) 1)))
         ets)
  ∧ (Z.of_nat (size (entries (set_cursor
         (set_entries NewRoot {[ "a" := 2%positive; "b" := 3%positive ]}) 1))) ≤ 1 →
     ReadDir {[ 2%positive := NewRoot; 3%positive := NewRoot ]}
       (set_cursor
          (set_entries NewRoot {[ "a" := 2%positive; "b" := 3%positive ]}) 1) 0
     = Ret (set_cursor
              (set_entries NewRoot {[ "a" := 2%positive; "b" := 3%positive ]}) 1,
            (None, Some EOF))).
Proof.
  apply (proj1 ReadDir_all_remaining
           {[ 2%positive := NewRoot; 3%positive := NewRoot ]}
           (set_cursor
              (set_entries NewRoot {[ "a" := 2%positive; "b" := 3%positive ]}) 1)
           0).
  - reflexivity.
  - lia.
  - simpl. lia.
  - vm_compute. discriminate.
  - intros name l. cbn [entries set_cursor set_entries].
    intros [[_ <-]|[_ [_ <-]%lookup_singleton_Some]]%lookup_insert_Some;
      eexists; vm_compute; reflexivity.
Defined.

(** C5 as stated fails when no entry remains: on a new directory
    ReadDir(-1) is [io.EOF] with no entries, not an empty listing. *)
Lemma ReadDir_empty_is_EOF :
  (dir ← created (NewDirectory "dir");
   '(_, r) ← ReadDir ∅ dir (-1);
   Ret r) = Ret (None, Some EOF).
Proof. reflexivity. Qed.

(** ** Paths of valid segments *)


Lemma Split_no_slash (s : string) :
  contains_slash s = false → Split s = [s].
Proof.
  induction s as [|c s IH]; simpl; [done|].
  intros [Hc Hs]%orb_false_iff. rewrite Hc, IH by done. done.
Qed.

Lemma Split_app_slash (s t : string) :
  contains_slash s = false →
  Split (s +:+ String slash t) = s :: Split t.
Proof.
  induction s as [|c s IH]; simpl; [done|].
  intros [Hc Hs]%orb_false_iff. rewrite Hc, IH by done. done.
Qed.

Lemma concat_cons (s : string) (segs : list string) :
  segs ≠ [] →
  String.concat "/" (s :: segs) = s +:+ String slash (String.concat "/" segs).
Proof. destruct segs; [done|]. intros _. reflexivity. Qed.

Lemma Split_concat (segs : list string) :
  Forall valid_segment segs → segs ≠ [] →
  Split (String.concat "/" segs) = segs.
Proof.
  induction segs as [|s segs IH]; [done|]. intros Hv _.
  apply Forall_cons in Hv as [(_ & _ & Hs) Hv].
  destruct segs as [|s' segs].
  - simpl. by apply Split_no_slash.
  - rewrite concat_cons by done. rewrite Split_app_slash by done.
    f_equal. by apply IH.
Qed.

Lemma utf8_go_app_slash (s t : string) (st : option utf8_state) :
  utf8_go st (s +:+ String slash t) = utf8_go st s && utf8_go None t.
Proof.
  revert st. induction s as [|c s IH]; intros st.
  - destruct st as [[n| | | |]|]; reflexivity.
  - change (String c s +:+ String slash t) with (String c (s +:+ String slash t)).
    cbn [utf8_go].
    destruct (match st with
              | Some u => utf8_next u (N_of_ascii c)
              | None => utf8_lead (N_of_ascii c)
              end); [apply IH|done].
Qed.

Lemma ValidString_concat (segs : list string) :
  Forall valid_segment segs → ValidString (String.concat "/" segs) = true.
Proof.
  induction segs as [|s segs IH]; [done|]. intros Hv.
  apply Forall_cons in Hv as [(Hs & _ & _) Hv].
  destruct segs as [|s' segs]; [done|].
  rewrite concat_cons by done. unfold ValidString.
  rewrite utf8_go_app_slash. apply andb_true_iff. split; [done|].
  by apply IH.
Qed.

Lemma valid_segment_elems (segs : list string) :
  Forall valid_segment segs → forallb valid_elem segs = true.
Proof.
  intros Hv. apply forallb_forall. intros s Hs.
  rewrite Forall_forall in Hv. apply list_elem_of_In in Hs.
  by destruct (Hv s Hs) as (_ & ? & _).
Qed.

Lemma ValidPath_concat (segs : list string) :
  Forall valid_segment segs → segs ≠ [] →
  ValidPath (String.concat "/" segs) = true.
Proof.
  intros Hv Hne. unfold ValidPath.
  rewrite ValidString_concat, Split_concat by done.
  rewrite valid_segment_elems by done. simpl. apply orb_true_r.
Qed.

Lemma length_append (s t : string) :
  String.length (s +:+ t) = (String.length s + String.length t)%nat.
Proof. induction s as [|c s IH]; simpl; [done|]. by rewrite IH. Qed.

Lemma valid_elem_nonempty (s : string) :
  valid_elem s = true → nonempty s = true ∧ s ≠ "." ∧ s ≠ ".." ∧ s ≠ "".
Proof.
  unfold valid_elem, nonempty. intros H%negb_true_iff.
  apply orb_false_iff in H as [[H1 H2]%orb_false_iff H3].
  rewrite H1. repeat split; auto; intros ->; done.
Qed.

Lemma concat_not_dot (segs : list string) :
  Forall valid_segment segs → segs ≠ [] →
  String.eqb (String.concat "/" segs) "." = false.
Proof.
  intros Hv Hne. apply String.eqb_neq.
  destruct segs as [|s [|s' segs]]; [done|..];
    apply Forall_cons in Hv as [(_ & He & _) _];
    apply valid_elem_nonempty in He as (_ & Hdot & _ & Hemp).
  - done.
  - rewrite concat_cons by done. intros Heq.
    apply (f_equal String.length) in Heq.
    rewrite length_append in Heq. simpl in Heq.
    destruct s; [done|]. simpl in Heq. lia.
Qed.

Lemma clean_steps (rooted : bool) (segs stk : list string) :
  Forall valid_segment segs →
  fold_left (clean_step rooted) segs stk = rev segs ++ stk.
Proof.
  revert stk. induction segs as [|s segs IH]; intros stk Hv; [done|].
  apply Forall_cons in Hv as [(_ & He & _) Hv]. simpl.
  rewrite <- app_assoc. simpl. rewrite <- IH by done. f_equal.
  unfold clean_step. unfold valid_elem in He.
  apply negb_true_iff, orb_false_iff in He as [He1 He2].
  by rewrite He1, He2.
Qed.

Lemma Clean_concat (segs : list string) :
  Forall valid_segment segs → segs ≠ [] →
  Clean (String.concat "/" segs) = String.concat "/" segs.
Proof.
  intros Hv Hne. unfold Clean.
  assert (∃ c t, String.concat "/" segs = String c t
                 ∧ Ascii.eqb c slash = false) as (c & t & Heq & Hc).
  { destruct segs as [|s segs]; [done|].
    pose proof Hv as [(_ & He & Hs) _]%Forall_cons.
    apply valid_elem_nonempty in He as (_ & _ & _ & Hemp).
    destruct s as [|c s]; [done|]. simpl in Hs.
    apply orb_false_iff in Hs as [Hc _].
    destruct segs as [|s' segs]; [by exists c, s|].
    rewrite concat_cons by done. by eexists c, _. }
  rewrite Split_concat, clean_steps, app_nil_r, rev_involutive by done.
  assert (Hne' : String.eqb (String.concat "/" segs) "" = false)
    by (rewrite Heq; done).
  rewrite Hne'. rewrite Heq at 1. by rewrite Hc.
Qed.

Lemma Join_valid (segs : list string) :
  Forall valid_segment segs → segs ≠ [] →
  Join segs = String.concat "/" segs.
Proof.
  intros Hv Hne. unfold Join.
  assert (Hf : List.filter nonempty segs = segs).
  { clear Hne. induction segs as [|s segs IH]; [done|].
    apply Forall_cons in Hv as [(_ & He & _) Hv]. simpl.
    apply valid_elem_nonempty in He as (-> & _). by rewrite IH. }
  rewrite Hf. destruct segs; [done|]. by apply Clean_concat.
Qed.

(** ** Resolving a path *)

Lemma ret_bind {A B} (a : A) (k : A → outcome B) : Ret a ≫= k = k a.
Proof. reflexivity. Qed.

Lemma open_go_single (k : nat) (h : heap) (dir : loc) (s : string) :
  valid_segment s →
  open_go (S k) h dir s =
    d ← deref h dir;
    match entries d !! s with
    | Some fil => Ret (Some fil, None)
    | None => Ret (None, Some (PathError "open" s ErrNotExist))
    end.
Proof.
  intros Hs. assert (Hv : Forall valid_segment [s]) by (by constructor).
  pose proof (ValidPath_concat [s] Hv ltac:(done)) as H1.
  pose proof (concat_not_dot [s] Hv ltac:(done)) as H2.
  pose proof (Split_concat [s] Hv ltac:(done)) as H3.
  simpl in H1, H2, H3. cbn [open_go]. rewrite H1, H2, H3. reflexivity.
Qed.

Lemma open_go_missing (h : heap) (seg : string) (post pre : list string)
    (fuel : nat) (dir d : loc) (fd : File) :
  (length (pre ++ seg :: post) ≤ fuel)%nat →
  Forall valid_segment (pre ++ seg :: post) →
  walk h dir pre = Some d → h !! d = Some fd → entries fd !! seg = None →
  open_go fuel h dir (String.concat "/" (pre ++ seg :: post))
  = Ret (None, Some (PathError "open" seg ErrNotExist)).
Proof.
  revert fuel dir. induction pre as [|p pre IH]; intros fuel dir Hfuel Hv Hw Hd He.
  - change ([] ++ seg :: post) with (seg :: post) in *.
    simpl in Hw, Hfuel. injection Hw as <-.
    apply Forall_cons in Hv as [Hseg Hpost].
    destruct fuel as [|k]; [lia|].
    assert (Hone : ∀ k', open_go (S k') h dir seg
                         = Ret (None, Some (PathError "open" seg ErrNotExist))).
    { intros k'. rewrite open_go_single by done.
      unfold deref. rewrite Hd. simpl. by rewrite He. }
    destruct post as [|s post]; [apply Hone|].
    cbn [open_go].
    rewrite ValidPath_concat, concat_not_dot, Split_concat
      by (done || by constructor).
    simpl length. simpl hd.
    destruct k as [|k']; [simpl in Hfuel; lia|].
    rewrite Hone. reflexivity.
  - simpl in Hw.
    destruct (h !! dir) as [fdir|] eqn:Hdir; [|done].
    destruct (entries fdir !! p) as [l|] eqn:Hp; [|done].
    pose proof Hv as [Hpv Hrest]%Forall_cons.
    destruct fuel as [|k]; [simpl in Hfuel; lia|].
    assert (Hne : pre ++ seg :: post ≠ []) by (by destruct pre).
    change ((p :: pre) ++ seg :: post) with (p :: (pre ++ seg :: post)) in *.
    cbn [open_go].
    rewrite ValidPath_concat, concat_not_dot, Split_concat by done.
    assert (Hlen : (1 <? length (p :: pre ++ seg :: post))%nat = true).
    { apply Nat.ltb_lt. simpl. destruct pre; simpl; lia. }
    rewrite Hlen. simpl hd. simpl tl.
    destruct k as [|k'].
    { simpl in Hfuel. destruct pre; simpl in Hfuel; lia. }
    assert (Hfirst : open_go (S k') h dir p = Ret (Some l, None)).
    { rewrite open_go_single by done.
      unfold deref. rewrite Hdir. simpl. by rewrite Hp. }
    rewrite Hfirst, ret_bind. cbv beta iota.
    rewrite Join_valid by done.
    apply IH; try done. simpl in Hfuel. lia.
Qed.

Lemma length_concat_segments (segs : list string) :
  Forall valid_segment segs →
  (length segs ≤ String.length (String.concat "/" segs))%nat.
Proof.
  induction segs as [|s segs IH]; [done|]. intros Hv.
  apply Forall_cons in Hv as [(_ & He & _) Hv].
  apply valid_elem_nonempty in He as (_ & _ & _ & Hemp).
  assert (1 ≤ String.length s)%nat by (destruct s; [done|simpl; lia]).
  destruct segs as [|s' segs]; [simpl; lia|].
  rewrite concat_cons by done. rewrite length_append.
  specialize (IH Hv). simpl in *. lia.
Qed.

(** C8, as the code has it.  When the resolution of a path of valid
    segments first fails at a segment — the segments before it lead from
    entry to entry to a node that has no entry of that name — [open]
    returns the not-found error whose path is that segment alone, without
    the segments before it and without the segments after it. *)
Theorem open_reports_missing_segment
    (h : heap) (dir d : loc) (fd : File) (pre post : list string)
    (seg : string) :
  Forall valid_segment (pre ++ seg :: post) →
  walk h dir pre = Some d → h !! d = Some fd → entries fd !! seg = None →
  open h dir (String.concat "/" (pre ++ seg :: post))
  = Ret (None, Some (PathError "open" seg ErrNotExist)).
Proof.
  intros Hv Hw Hd He. unfold open.
  eapply open_go_missing; eauto.
  pose proof (length_concat_segments _ Hv). lia.
Qed.

Lemma open_reports_missing_segment_witness :
  open {[ 1%positive := set_entries NewRoot {[ "sub" := 2%positive ]};
          2%positive := NewRoot ]} 1
    (String.concat "/" (["sub"] ++ "nope" :: ["deeper"]))
  = Ret (None, Some (PathError "open" "nope" ErrNotExist)).
Proof.
  apply (open_reports_missing_segment
           {[ 1%positive := set_entries NewRoot {[ "sub" := 2%positive ]};
              2%positive := NewRoot ]}
           1%positive 2%positive NewRoot ["sub"] ["deeper"] "nope").
  - repeat constructor.
  - reflexivity.
  - reflexivity.
  - reflexivity.
Defined.

(** C8 as stated fails: in a root that holds the directory "sub", the
    path "sub/nope/deeper" fails at "nope"; the error's path is "nope", not
    the remaining "nope/deeper". *)
Lemma open_path_is_not_the_remaining_path :
  ('(h, root) ← new ∅ (Ret (Some NewRoot, None));
   '(h, sub) ← new h (NewDirectory "sub");
   '(h, _) ← AddFile h root sub;
   '(_, err) ← open h root "sub/nope/deeper";
   Ret err) = Ret (Some (PathError "open" "nope" ErrNotExist)).
Proof. reflexivity. Qed.

(** ** Adding a node that has a parent *)

(** When the path of the node can be computed, [AddFile] of a node that
    has a parent returns the error and the heap it was given: no entry, no
    parent link and no content is changed. *)
Lemma AddFile_has_parent (h : heap) (d c : loc) (fil file : File)
    (pl : loc) (pth : string) :
  h !! d = Some fil → h !! c = Some file → IsDir fil = true →
  parent file = Some pl → path h file = Ret pth →
  AddFile h d c = Ret (h, Some (PathError "AddFile" pth ErrHasParent)).
Proof.
  intros Hd Hc Hdir Hp Hpath. unfold AddFile, deref.
  rewrite Hd, Hc. simpl. rewrite Hdir, Hp. simpl. by rewrite Hpath.
Qed.

Lemma path_go_cycle (h : heap) (l : loc) (fil : File) (fuel : nat) :
  h !! l = Some fil → parent fil = Some l → path_go fuel h fil = Diverge.
Proof.
  intros Hl Hp. induction fuel as [|k IH]; [done|].
  simpl. by rewrite Hp, Hl, IH.
Qed.

(** C6. The code at the failing input: a directory "d" added to itself is
    its own parent; the path of such a node has no end, whatever the
    fuel, so adding it to the root never returns the error. *)
Theorem AddFile_of_own_parent_diverges :
  ∃ (h : heap) (d root : loc) (fil : File),
    ('(h, d) ← new ∅ (NewDirectory "d");
     '(h, root) ← new h (Ret (Some NewRoot, None));
     '(h, err) ← AddFile h d d;
     Ret (h, d, root, err)) = Ret (h, d, root, None)
    ∧ h !! d = Some fil ∧ parent fil = Some d
    ∧ (∀ fuel, path_go fuel h fil = Diverge)
    ∧ AddFile h root d = Diverge.
Proof.
  eexists _, _, _, _. split; [vm_compute; reflexivity|].
  split; [vm_compute; reflexivity|].
  split; [reflexivity|].
  split; [|vm_compute; reflexivity].
  intros fuel. eapply path_go_cycle; [|reflexivity].
  vm_compute. reflexivity.
Qed.

(** ** The fuel of [path] *)

Section path_fuel.

Context (h : heap).

Lemma path_go_Diverge (n : nat) (fil : File) :
  path_go n h fil = Diverge ↔ ancestors n h fil = None.
Proof.
  revert fil. induction n as [|n IH]; intros fil; simpl; [done|].
  destruct (parent fil) as [pl|]; [|done].
  destruct (h !! pl) as [pf|]; [|done].
  specialize (IH pf). destruct (path_go n h pf) as [par| |];
    destruct (ancestors n h pf); simpl.
  - destruct (String.eqb par ""); done.
  - destruct IH as [_ IH]. by specialize (IH eq_refl).
  - done.
  - destruct IH as [_ IH]. by specialize (IH eq_refl).
  - destruct IH as [IH _]. by specialize (IH eq_refl).
  - done.
Qed.

Lemma ancestors_fuel (n : nat) (fil : File) (ls : list loc) :
  ancestors n h fil = Some ls →
  (length ls < n)%nat
  ∧ ∀ m, (length ls < m)%nat →
         ancestors m h fil = Some ls ∧ path_go m h fil = path_go n h fil.
Proof.
  revert fil ls. induction n as [|n IH]; intros fil ls; simpl; [done|].
  destruct (parent fil) as [pl|] eqn:Hp.
  2:{ intros [= <-]. split; [simpl; lia|]. intros [|m] Hm; [simpl in Hm; lia|].
      simpl. by rewrite Hp. }
  destruct (h !! pl) as [pf|] eqn:Hl.
  2:{ intros [= <-]. split; [simpl; lia|]. intros [|m] Hm; [simpl in Hm; lia|].
      simpl. by rewrite Hp, Hl. }
  destruct (ancestors n h pf) as [ls'|] eqn:Ha; [|done].
  intros [= <-]. destruct (IH _ _ Ha) as [Hlen Hm].
  split; [simpl; lia|]. intros [|m] Hlt; [lia|].
  simpl in Hlt. destruct (Hm m ltac:(lia)) as [Ha' Hp'].
  simpl. by rewrite Hp, Hl, Ha', Hp'.
Qed.

Lemma ancestors_suffix (n : nat) (fil : File) (a b : list loc)
    (l : loc) :
  ancestors n h fil = Some (a ++ l :: b) →
  ∃ pf m, h !! l = Some pf ∧ ancestors m h pf = Some b.
Proof.
  revert fil a. induction n as [|n IH]; intros fil a; simpl; [done|].
  destruct (parent fil) as [pl|]; [|by destruct a].
  destruct (h !! pl) as [pf|] eqn:Hl; [|by destruct a].
  destruct (ancestors n h pf) as [ls'|] eqn:Ha; [|done].
  simpl. intros [= Heq]. destruct a as [|x a]; simpl in Heq.
  - injection Heq as -> ->. eauto.
  - injection Heq as -> ->. eauto.
Qed.

Lemma ancestors_NoDup (n : nat) (fil : File) (ls : list loc) :
  ancestors n h fil = Some ls →
  NoDup ls ∧ ∀ l, l ∈ ls → is_Some (h !! l).
Proof.
  revert fil ls. induction n as [|n IH]; intros fil ls; simpl; [done|].
  destruct (parent fil) as [pl|].
  2:{ intros [= <-]. split; [constructor|]. by intros l ?%elem_of_nil. }
  destruct (h !! pl) as [pf|] eqn:Hl.
  2:{ intros [= <-]. split; [constructor|]. by intros l ?%elem_of_nil. }
  destruct (ancestors n h pf) as [ls'|] eqn:Ha; [|done].
  intros [= <-]. destruct (IH _ _ Ha) as [Hnd Hin]. split.
  - constructor; [|done]. intros (a & b & ->)%list_elem_of_split.
    destruct (ancestors_suffix _ _ _ _ _ Ha) as (pf' & m & Hl' & Hb).
    rewrite Hl in Hl'. injection Hl' as <-.
    destruct (ancestors_fuel _ _ _ Ha) as [L1 H1].
    destruct (ancestors_fuel _ _ _ Hb) as [L2 H2].
    destruct (H1 (S (n + m)) ltac:(lia)) as [E1 _].
    destruct (H2 (S (n + m)) ltac:(lia)) as [E2 _].
    rewrite E1 in E2. injection E2 as E2.
    apply (f_equal length) in E2. rewrite length_app in E2. simpl in E2. lia.
  - intros l [->|?]%elem_of_cons; eauto.
Qed.

(** With as much fuel as the heap has nodes, and one more, [path_go]
    stops short only on a chain of parents that has no end: any outcome
    some fuel gives is the outcome of [path]. *)
Lemma path_fuel_enough (n : nat) (fil : File) :
  path_go n h fil ≠ Diverge → path h fil = path_go n h fil.
Proof.
  intros Hn. destruct (ancestors n h fil) as [ls|] eqn:Ha.
  2:{ by apply path_go_Diverge in Ha. }
  destruct (ancestors_NoDup _ _ _ Ha) as [Hnd Hin].
  destruct (ancestors_fuel _ _ _ Ha) as [_ Hm].
  apply Hm. apply Nat.lt_succ_r.
  rewrite <- size_dom. unfold size, set_size. simpl.
  apply submseteq_length, NoDup_submseteq; [done|].
  intros l Hl. apply elem_of_elements, elem_of_dom. auto.
Qed.

End path_fuel.

(** ** The fuel of [open] *)

Lemma Split_nonempty (s : string) : Split s ≠ [].
Proof. induction s as [|c s IH]; simpl; [done|]. by repeat case_match. Qed.

Lemma concat_Split (s : string) : String.concat "/" (Split s) = s.
Proof.
  induction s as [|c s IH]; [done|]. simpl.
  destruct (Ascii.eqb_spec c slash) as [->|Hc].
  - rewrite concat_cons by apply Split_nonempty. by rewrite IH.
  - destruct (Split s) as [|x [|y ys]] eqn:Hs.
    + by destruct (Split_nonempty s).
    + simpl in *. by rewrite IH.
    + rewrite concat_cons in * by done. simpl. by rewrite <- IH.
Qed.

Lemma Split_no_slashes (s : string) :
  Forall (λ e, contains_slash e = false) (Split s).
Proof.
  induction s as [|c s IH]; simpl; [by repeat constructor|].
  destruct (Ascii.eqb c slash) eqn:Hc; [by constructor|].
  destruct (Split s) as [|x xs]; [by repeat constructor; simpl; rewrite Hc|].
  apply Forall_cons in IH as [Hx Hxs]. constructor; [|done].
  simpl. by rewrite Hc, Hx.
Qed.

Lemma ValidString_segments (segs : list string) :
  ValidString (String.concat "/" segs) = true →
  Forall (λ e, ValidString e = true) segs.
Proof.
  induction segs as [|s segs IH]; [constructor|].
  destruct segs as [|s' segs]; [by repeat constructor|].
  rewrite concat_cons by done. unfold ValidString at 1.
  rewrite utf8_go_app_slash. intros [? ?]%andb_true_iff.
  constructor; [done|]. by apply IH.
Qed.

(** The elements of a path other than "." that [fs.ValidPath] accepts. *)
Lemma ValidPath_segments (name : string) :
  ValidPath name = true → String.eqb name "." = false →
  Forall valid_segment (Split name).
Proof.
  unfold ValidPath. intros [Hu He]%andb_true_iff Hdot.
  rewrite Hdot in He. simpl in He.
  rewrite <- (concat_Split name) in Hu.
  apply ValidString_segments in Hu. pose proof (Split_no_slashes name) as Hs.
  rewrite forallb_forall in He. apply Forall_forall. intros s Hin.
  rewrite Forall_forall in Hu, Hs. split; [auto|]. split; [|auto].
  apply He. by apply list_elem_of_In.
Qed.

Lemma open_go_segments (h : heap) (segs : list string) (fuel : nat) (dir : loc) :
  Forall valid_segment segs → segs ≠ [] → (length segs ≤ fuel)%nat →
  open_go fuel h dir (String.concat "/" segs) ≠ Diverge.
Proof.
  revert fuel dir. induction segs as [|s segs IH]; [done|].
  intros fuel dir Hv _ Hfuel.
  pose proof Hv as [Hs Hrest]%Forall_cons.
  destruct fuel as [|k]; [simpl in Hfuel; lia|].
  assert (Hone : ∀ k', open_go (S k') h dir s ≠ Diverge).
  { intros k'. rewrite open_go_single by done. unfold deref.
    destruct (h !! dir) as [d|]; [|done]. simpl.
    by destruct (entries d !! s). }
  destruct segs as [|s' segs]; [apply Hone|].
  cbn [open_go].
  rewrite ValidPath_concat, concat_not_dot, Split_concat by done.
  simpl length. simpl hd. simpl tl.
  destruct k as [|k']; [simpl in Hfuel; lia|].
  specialize (Hone k').
  destruct (open_go (S k') h dir s) as [[[l|] [err|]]| |]; try done.
  rewrite ret_bind. cbv beta iota. rewrite Join_valid by done.
  apply IH; [done|done|]. simpl in *. lia.
Qed.

(** [open] returns or panics on every path: the fuel it starts with, the
    length of the name and one more, is never used up. *)
Lemma open_never_out_of_fuel (h : heap) (dir : loc) (name : string) :
  open h dir name ≠ Diverge.
Proof.
  unfold open.
  destruct (ValidPath name) eqn:Hv; [|by simpl; rewrite Hv].
  destruct (String.eqb name ".") eqn:Hdot; [by simpl; rewrite Hv, Hdot|].
  pose proof (ValidPath_segments _ Hv Hdot) as Hsegs.
  rewrite <- (concat_Split name) at 2.
  apply open_go_segments; [done|apply Split_nonempty|].
  pose proof (length_concat_segments _ Hsegs) as Hl.
  rewrite concat_Split in Hl. lia.
Qed.

(** ** [ReadFrom] and the bytes beyond the length *)

(** [ReadFrom] is not among the operations of
    the invariant of the sequences: it reads into the array beyond the
    length and does not always clear what it moved from there.  The file
    holds [0,1,2] at offset 0 and the reader hands out "ABC", then "D";
    the content becomes "ABCD", the array keeps "BC" beyond the length,
    and Truncate(6) shows them. *)
Lemma ReadFrom_leaves_bytes_beyond_length :
  (fil ← created (FileWith "file" (bytes_lit [x00; x01; x02]) []);
   '(fil, _, r) ← ReadFrom 4 ∅ fil [Chunk [x41; x42; x43] None [];
                                     Chunk [x44] None []];
   '(fil', _) ← Truncate ∅ fil 6;
   Ret (r, bytes_of (buf fil), bytes_of (buf fil')))
  = Ret ((4, None), [x41; x42; x43; x44], [x41; x42; x43; x44; x42; x43]).
Proof. vm_compute. reflexivity. Qed.

(** After a seek beyond the length, the bytes read are moved onto their
    own source: the file holds [0,1,2] at offset 4 and the reader hands
    out "ABC"; the content becomes [0,1,2,"A","A","B",0]. *)
Lemma ReadFrom_beyond_length :
  (fil ← created (FileWith "file" (bytes_lit [x00; x01; x02]) []);
   '(fil, _) ← Seek ∅ fil 4 0;
   '(fil, _, r) ← ReadFrom 4 ∅ fil [Chunk [x41; x42; x43] None []];
   Ret (r, bytes_of (buf fil)))
  = Ret ((3, None), [x00; x01; x02; x41; x41; x42; x00]).
Proof. vm_compute. reflexivity. Qed.

(** With the length at the capacity and [bytes.MinRead] bytes after the
    offset, the reader is handed an empty destination, time and again. *)
Lemma ReadFrom_full_buffer_diverges (fuel : nat) :
  ReadFrom fuel ∅
    (mkFile 0 (Some (Slice (zeros 512) 512)) 0 (mkFileInfo "file" 512 384)
       None 0 ∅)
    [Chunk [x41] None []]
  = Diverge.
Proof.
  unfold ReadFrom. change (IsDir _) with false. change (appending _) with false.
  cbv iota.
  induction fuel as [|k IH]; [done|].
  etrans; [|exact IH]. vm_compute. reflexivity.
Qed.

(** ** Further properties of writes and of [AddFile] *)

(** On a file node, a Write with the cursor (or, in append mode, the
    length) at most twice the capacity stores all of p: it returns len(p)
    and no error, advances the cursor by len(p), and the content is the
    old one with zeros up to the offset and p from there on. *)
Theorem Write_within_twice_capacity (h : heap) (fil : File) (p : list byte) :
  IsDir fil = false → buf_ok (buf fil) →
  0 ≤ write_offset fil ≤ 2 * bcap (buf fil) →
  ∃ fil', Write h fil p = Ret (fil', (Z.of_nat (length p), None))
    ∧ off fil' = write_offset fil + Z.of_nat (length p)
    ∧ bytes_of (buf fil')
      = sparse_write (bytes_of (buf fil)) (Z.to_nat (write_offset fil)) p
    ∧ buf_ok (buf fil').
Proof.
  intros Hdir Hok Ho. unfold Write. rewrite Hdir.
  destruct (write_full fil p) as [fil' Hw]; [by apply buf_ok_wf|done|].
  rewrite Hw. simpl. exists fil'. split; [done|].
  apply write_spec in Hw as (_ & _ & Hf & _ & _ & _ & _ & Hc & Hok');
    [|by apply buf_ok_wf].
  split; [by rewrite Hf|]. split; [|auto].
  rewrite Hc by auto. by rewrite take_ge by lia.
Qed.

Lemma Write_within_twice_capacity_witness :
  ∃ fil', Write ∅ (mkFile 5 (bytes_lit [x00; x01; x02]) 0
                     (mkFileInfo "file" 3 384) None 0 ∅) [x07; x08]
          = Ret (fil', (2, None))
    ∧ off fil' = 5 + 2
    ∧ bytes_of (buf fil') = [x00; x01; x02; x00; x00; x07; x08]
    ∧ buf_ok (buf fil').
Proof.
  apply (Write_within_twice_capacity ∅
           (mkFile 5 (bytes_lit [x00; x01; x02]) 0 (mkFileInfo "file" 3 384)
              None 0 ∅) [x07; x08]).
  - reflexivity.
  - split; [simpl; lia|reflexivity].
  - vm_compute. split; discriminate.
Defined.

(** When the chain of parents of a node ends, so that its path is some
    [pth], [AddFile] of that node into any directory, the node having a
    parent already, returns the error [ErrHasParent] with that path and the
    heap it was given: the parent link of the node, the entries of every
    directory and all contents are as before. *)
Theorem AddFile_rejects_attached_node
    (h : heap) (d c : loc) (fil file : File) (pl : loc) (n : nat)
    (pth : string) :
  h !! d = Some fil → h !! c = Some file → IsDir fil = true →
  parent file = Some pl → path_go n h file = Ret pth →
  AddFile h d c = Ret (h, Some (PathError "AddFile" pth ErrHasParent)).
Proof.
  intros Hd Hc Hdir Hp Hpath. eapply AddFile_has_parent; eauto.
  rewrite (path_fuel_enough h n); [done|]. by rewrite Hpath.
Qed.

Lemma AddFile_rejects_attached_node_witness :
  AddFile {[ 1%positive := set_entries NewRoot {[ "f" := 3%positive ]};
             2%positive := NewRoot;
             3%positive := mkFile 0 None 0 (mkFileInfo "f" 0 384)
                             (Some 1%positive) 0 ∅ ]} 2 3
  = Ret ({[ 1%positive := set_entries NewRoot {[ "f" := 3%positive ]};
            2%positive := NewRoot;
            3%positive := mkFile 0 None 0 (mkFileInfo "f" 0 384)
                            (Some 1%positive) 0 ∅ ]},
         Some (PathError "AddFile" "f" ErrHasParent)).
Proof.
  apply (AddFile_rejects_attached_node _ 2%positive 3%positive NewRoot
           (mkFile 0 None 0 (mkFileInfo "f" 0 384) (Some 1%positive) 0 ∅)
           1%positive 2 "f"); reflexivity.
Defined.

(** [AddFile] of a parentless file or directory under a free name puts it
    into the entries of the directory under its name and makes the
    directory its parent; no other node changes. *)
Theorem AddFile_attaches (h : heap) (d c : loc) (fil file : File) :
  h !! d = Some fil → h !! c = Some file → IsDir fil = true →
  parent file = None →
  Type_ file = ModeDir ∨ Type_ file = 0 →
  entries fil !! Name file = None →
  ∃ h' fd fc,
    AddFile h d c = Ret (h', None)
    ∧ h' !! d = Some fd ∧ h' !! c = Some fc
    ∧ entries fd = <[Name file := c]> (entries fil)
    ∧ parent fc = Some d
    ∧ ∀ l, l ≠ d → l ≠ c → h' !! l = h !! l.
Proof.
  intros Hd Hc Hdir Hp Hty Hfree. unfold AddFile, deref.
  rewrite Hd, Hc. simpl. rewrite Hdir, Hp. simpl.
  assert (Ht : negb ((Type_ file =? ModeDir) || (Type_ file =? 0)) = false).
  { destruct Hty as [->| ->]; done. }
  rewrite Ht, Hfree.
  destruct (decide (d = c)) as [->|Hne].
  - rewrite lookup_insert_eq. simpl.
    eexists _, _, _. split; [done|].
    rewrite !lookup_insert_eq. repeat split; try done.
    intros l H1 H2. by rewrite !lookup_insert_ne.
  - rewrite lookup_insert_ne, Hc by done. simpl.
    eexists _, _, _. split; [done|].
    rewrite lookup_insert_ne, !lookup_insert_eq by done.
    repeat split; try done.
    intros l H1 H2. by rewrite !lookup_insert_ne.
Qed.

Lemma AddFile_attaches_witness :
  ∃ h' fd fc,
    AddFile {[ 1%positive := NewRoot;
               2%positive := mkFile 0 None 0 (mkFileInfo "f" 0 384) None 0 ∅ ]}
      1 2 = Ret (h', None)
    ∧ h' !! 1%positive = Some fd ∧ h' !! 2%positive = Some fc
    ∧ entries fd
      = <[Name (mkFile 0 None 0 (mkFileInfo "f" 0 384) None 0 ∅) := 2%positive]>
          (entries NewRoot)
    ∧ parent fc = Some 1%positive
    ∧ ∀ l, l ≠ 1%positive → l ≠ 2%positive →
           h' !! l
           = ({[ 1%positive := NewRoot;
                 2%positive := mkFile 0 None 0 (mkFileInfo "f" 0 384) None 0 ∅ ]}
                : heap) !! l.
Proof.
  apply (AddFile_attaches _ 1%positive 2%positive NewRoot
           (mkFile 0 None 0 (mkFileInfo "f" 0 384) None 0 ∅));
    first [reflexivity | by right].
Defined.

(** ** Operations that return *)


Lemma zeroOutSlice_from_total (b : option slice) (from : Z) :
  0 ≤ from ≤ blen b → ∃ b', zeroOutSlice_from b from = Ret b'.
Proof.
  intros H. unfold zeroOutSlice_from.
  destruct (Z.leb_spec 0 from), (Z.leb_spec from (blen b)); try lia.
  destruct b; simpl; eauto.
Qed.

Lemma makeSlice_total (n : Z) : 0 ≤ n → ∃ s, makeSlice n = Ret s.
Proof.
  intros H. unfold makeSlice. destruct (Z.ltb_spec n 0); [lia|eauto].
Qed.

Lemma Truncate_total (h : heap) (fil : File) (size : Z) :
  IsDir fil = false → buf_wf (buf fil) → 0 ≤ size →
  ∃ fil', Truncate h fil size = Ret (fil', None).
Proof.
  intros Hdir Hwf Hs. unfold Truncate. rewrite Hdir.
  pose proof (blen_nonneg (buf fil)) as Hl0.
  pose proof (buf_wf_le _ Hwf) as Hlc.
  destruct (Z.ltb_spec size 0); [lia|].
  destruct (Z.eqb_spec size (blen (buf fil))); [simpl; eauto|].
  destruct (Z.eqb_spec size (bcap (buf fil))).
  { destruct (reslice_total (buf fil) size) as [b ->]; [lia|]. simpl. eauto. }
  destruct ((size >? blen (buf fil)) && (size <? bcap (buf fil))) eqn:Hmid.
  { apply andb_true_iff in Hmid as [?%Z.gtb_lt ?%Z.ltb_lt].
    destruct (reslice_total (buf fil) size) as [b ->]; [lia|]. simpl. eauto. }
  destruct (Z.gtb_spec size (bcap (buf fil))) as [Hbig|Hsmall].
  - destruct (grow_total (set_off fil (bcap (buf fil))) (size - blen (buf fil)))
      as [fil1 Hg]; [done|lia|].
    rewrite Hg. simpl.
    apply grow_spec in Hg as (_ & _ & _ & Hcase & _); [|done|simpl; lia].
    unfold grow_case in Hcase. cbn [buf off set_off] in Hcase.
    destruct (reslice_total (buf fil1) size) as [b ->]; [|simpl; eauto].
    destruct Hcase as [[? _]|[(?&_)|[(_&Hnil&?&_&?)|(_&_&_&?)]]]; try lia.
    destruct (buf fil); [discriminate|]. simpl in *. lia.
  - assert (size < blen (buf fil)).
    { apply andb_false_iff in Hmid as [Hm|?%Z.ltb_ge]; [|lia].
      rewrite Z.gtb_ltb in Hm. apply Z.ltb_ge in Hm. lia. }
    destruct (zeroOutSlice_from_total (buf fil) size) as [b1 Hz]; [lia|].
    rewrite Hz. simpl.
    apply zeroOutSlice_from_Ret in Hz as (_ & _ & Hc1 & _); [|done].
    destruct (reslice_total b1 size) as [b ->]; [lia|]. simpl. eauto.
Qed.

Lemma Grow_total (fil : File) (n : Z) :
  buf_wf (buf fil) → 0 ≤ n → ∃ fil', Grow fil n = Ret fil'.
Proof.
  intros Hwf Hn. unfold Grow.
  pose proof (blen_nonneg (buf fil)) as Hl0.
  destruct (Z.ltb_spec n 0); [lia|].
  destruct (IsDir fil); [eauto|].
  pose proof (bcap_nonneg (buf fil)) as Hc0.
  pose proof (buf_wf_le _ Hwf) as Hlc.
  destruct (Z.leb_spec (wrap64 (blen (buf fil) + n)) (bcap (buf fil)));
    [eauto|].
  destruct (makeSlice_total (wrap64 (blen (buf fil) + n))) as [tmp Hm]; [lia|].
  rewrite Hm. simpl.
  apply makeSlice_Ret in Hm as (_ & Harr & Hlen).
  destruct (reslice_total (Some (copy_into tmp (buf fil))) (blen (buf fil)))
    as [b ->]; [|simpl; eauto].
  split; [done|]. unfold bcap, copy_into. simpl. rewrite Harr, Hlen. lengths.
  rewrite (length_bytes_of _ Hwf). lia.
Qed.

Lemma WriteAt_total (h : heap) (fil : File) (p : list byte) (o : Z) :
  IsDir fil = false → buf_wf (buf fil) →
  0 ≤ o → o + Z.of_nat (length p) ≤ max_int64 →
  ∃ r, WriteAt h fil p o = Ret r.
Proof.
  intros Hdir Hwf Ho Hmax.
  destruct (appending fil) eqn:Happ.
  { unfold WriteAt. rewrite Hdir, Happ. eauto. }
  destruct (Z.lt_ge_cases (bcap (buf fil)) (o + Z.of_nat (length p))) as [Hbig|Hfit].
  { destruct (WriteAt_beyond h fil p o) as (fil' & -> & _); eauto. }
  unfold WriteAt. rewrite Hdir, Happ.
  rewrite wrap64_id by (unfold min_int64, max_int64 in *; lia).
  destruct (Z.gtb_spec (o + Z.of_nat (length p)) (bcap (buf fil))); [lia|].
  simpl.
  destruct (write_full (set_off fil o) p) as [fil' ->]; [done| |simpl; eauto].
  rewrite write_offset_set_off by done. simpl. lia.
Qed.

(** On a file node whose slice has its length within its capacity, every
    enabled operation returns: it neither panics nor runs without end.
    For WriteAt, Truncate and Grow the operation is enabled only when the
    size it allocates is at most [maxAlloc], the bound of the runtime. *)
Theorem enabled_operation_returns (h : heap) (fil : File) (o : op) :
  IsDir fil = false → buf_wf (buf fil) → enabled fil o →
  ∃ fil' log, step h fil o = Ret (fil', log).
Proof.
  intros Hdir Hwf Hen.
  destruct o as [p|p o|b|size|n|offset whence]; simpl in *.
  - unfold Write. rewrite Hdir.
    destruct (write_full fil p) as [fil' ->]; [done|done|]. simpl. eauto.
  - destruct Hen as (Ho & Hmax & _).
    destruct (WriteAt_total h fil p o) as [[fil' [n err]] ->]; eauto.
  - unfold WriteByte. rewrite Hdir.
    destruct (write_full fil [b]) as [fil' ->]; [done|done|]. simpl. eauto.
  - destruct Hen as [Hs _].
    destruct (Truncate_total h fil size) as [fil' ->]; eauto.
  - destruct Hen as [Hn _].
    destruct (Grow_total fil n) as [fil' ->]; eauto.
  - unfold Seek. rewrite Hdir.
    destruct (Z.ltb_spec (seek_target fil offset whence) 0); [lia|].
    simpl. eauto.
Qed.

Lemma enabled_operation_returns_witness :
  ∃ fil' log,
    step ∅ (mkFile 1 (bytes_lit [x00; x01; x02]) 0 (mkFileInfo "file" 3 384)
              None 0 ∅) (OpTruncate 1000)
    = Ret (fil', log).
Proof.
  apply (enabled_operation_returns ∅
           (mkFile 1 (bytes_lit [x00; x01; x02]) 0 (mkFileInfo "file" 3 384)
              None 0 ∅) (OpTruncate 1000)).
  - reflexivity.
  - simpl. lia.
  - split; [lia|]. right. vm_compute. discriminate.
Defined.

(** ** Path resolution comes to an end *)

(** [open] returns or panics for every heap, directory and name: each
    nested call is on a shorter name, and the fuel the model starts with is
    never used up. *)
Theorem open_terminates (h : heap) (dir : loc) (name : string) :
  (∃ r, open h dir name = Ret r) ∨ (∃ v, open h dir name = Panic v).
Proof.
  pose proof (open_never_out_of_fuel h dir name) as H.
  destruct (open h dir name) as [r|v|]; [eauto|eauto|done].
Qed.

(** ** Reading *)

Lemma set_off_off (fil : File) : set_off fil (off fil) = fil.
Proof. by destruct fil. Qed.

Lemma set_off_set_off (fil : File) (a b : Z) :
  set_off (set_off fil a) b = set_off fil b.
Proof. reflexivity. Qed.

Lemma Read_EOF (h : heap) (fil : File) (k : nat) :
  IsDir fil = false → (0 < k)%nat → blen (buf fil) ≤ off fil →
  Read h fil k = Ret (fil, ([], 0, Some EOF)).
Proof.
  intros Hd Hk Ho. unfold Read. rewrite Hd.
  replace (0 <? Z.of_nat k) with true by (symmetry; apply Z.ltb_lt; lia).
  replace (off fil >=? blen (buf fil)) with true
    by (symmetry; apply Z.geb_le; lia).
  reflexivity.
Qed.

Lemma Read_data (h : heap) (fil : File) (k : nat) :
  IsDir fil = false → 0 ≤ off fil ≤ blen (buf fil) →
  (k = 0%nat ∨ off fil < blen (buf fil)) →
  let data := take k (drop (Z.to_nat (off fil)) (bytes_of (buf fil))) in
  Read h fil k
  = Ret (set_off fil (off fil + Z.of_nat (length data)),
         (data, Z.of_nat (length data), None)).
Proof.
  intros Hd Ho Hk data. unfold Read, slice_from. rewrite Hd.
  replace ((0 <? Z.of_nat k) && (off fil >=? blen (buf fil))) with false.
  2:{ symmetry. apply andb_false_iff. destruct Hk as [->|Hk].
      - by left.
      - right. rewrite Z.geb_leb. apply Z.leb_gt. lia. }
  replace ((0 <=? off fil) && (off fil <=? blen (buf fil))) with true.
  2:{ symmetry. apply andb_true_iff. split; apply Z.leb_le; lia. }
  reflexivity.
Qed.

Lemma ReadAll_go_rest (h : heap) (next_cap : nat → nat) :
  (∀ c, (c < next_cap c)%nat) →
  ∀ (fuel : nat) (fil : File) (b : list byte) (c : nat),
    IsDir fil = false → buf_wf (buf fil) → 0 ≤ off fil ≤ blen (buf fil) →
    (length b < c)%nat →
    (Z.to_nat (blen (buf fil) - off fil) + 2 ≤ fuel)%nat →
    ReadAll_go fuel next_cap h fil b c
    = Ret (set_off fil (blen (buf fil)),
           (b ++ drop (Z.to_nat (off fil)) (bytes_of (buf fil)), None)).
Proof.
  intros Hgrow fuel.
  induction fuel as [|fuel IH]; intros fil b c Hd Hwf Ho Hb Hf; [lia|].
  pose proof (length_bytes_of _ Hwf) as Hlen.
  cbn [ReadAll_go].
  destruct (decide (off fil = blen (buf fil))) as [He|Hne].
  - rewrite Read_EOF by (auto; lia). rewrite ret_bind. cbv beta iota.
    rewrite drop_ge by lia. rewrite <- He. by rewrite set_off_off.
  - rewrite Read_data by (auto; lia). rewrite ret_bind. cbv beta iota.
    set (rest := drop (Z.to_nat (off fil)) (bytes_of (buf fil))).
    set (data := take (c - length b) rest).
    assert (length rest = Z.to_nat (blen (buf fil) - off fil)) as Hrest
      by (unfold rest; lengths; lia).
    assert (1 ≤ length data)%nat as Hdata by (unfold data; lengths; lia).
    assert (length data ≤ c - length b)%nat as Hdata' by (unfold data; lengths; lia).
    assert (length data ≤ length rest)%nat as Hdata'' by (unfold data; lengths; lia).
    rewrite IH; cbn [buf off set_off]; auto; try lia.
    + do 3 f_equal. rewrite <- app_assoc. f_equal.
      replace (Z.to_nat (off fil + Z.of_nat (length data)))
        with (Z.to_nat (off fil) + length data)%nat by lia.
      rewrite <- drop_drop. fold rest. unfold data.
      destruct (decide (c - length b ≤ length rest)%nat).
      * rewrite length_take, Nat.min_l by lia. by rewrite take_drop.
      * rewrite take_ge by lia. rewrite drop_all. by rewrite app_nil_r.
    + destruct (length (b ++ data) =? c)%nat eqn:E.
      * apply Nat.eqb_eq in E. pose proof (Hgrow c). lia.
      * apply Nat.eqb_neq in E. rewrite length_app in *. lia.
Qed.

(** Reading a file node until the end of the data, with [io.ReadAll] or
    with [String], returns the bytes from the offset to the end of the
    content and leaves the offset at the length, whatever the capacities the
    buffer of [io.ReadAll] grows through. *)
Theorem reading_returns_the_rest
    (h : heap) (fil : File) (next_cap : nat → nat) (fuel : nat) :
  IsDir fil = false → buf_wf (buf fil) → 0 ≤ off fil ≤ blen (buf fil) →
  (∀ c, (c < next_cap c)%nat) →
  (Z.to_nat (blen (buf fil) - off fil) + 2 ≤ fuel)%nat →
  let rest := drop (Z.to_nat (off fil)) (bytes_of (buf fil)) in
  ReadAll fuel next_cap h fil = Ret (set_off fil (blen (buf fil)), (rest, None))
  ∧ String_ fil = Ret (set_off fil (blen (buf fil)), rest).
Proof.
  intros Hd Hwf Ho Hgrow Hf rest. split.
  - unfold ReadAll. rewrite ReadAll_go_rest; auto. simpl. lia.
  - unfold String_, slice_from.
    replace ((0 <=? off fil) && (off fil <=? blen (buf fil))) with true.
    2:{ symmetry. apply andb_true_iff. split; apply Z.leb_le; lia. }
    reflexivity.
Qed.

Lemma reading_returns_the_rest_witness :
  ReadAll 4 S ∅ (mkFile 1 (bytes_lit [x00; x01; x02]) 0
                   (mkFileInfo "file" 3 384) None 0 ∅)
  = Ret (mkFile 3 (bytes_lit [x00; x01; x02]) 0 (mkFileInfo "file" 3 384)
           None 0 ∅, ([x01; x02], None))
  ∧ String_ (mkFile 1 (bytes_lit [x00; x01; x02]) 0
               (mkFileInfo "file" 3 384) None 0 ∅)
  = Ret (mkFile 3 (bytes_lit [x00; x01; x02]) 0 (mkFileInfo "file" 3 384)
           None 0 ∅, [x01; x02]).
Proof.
  apply (reading_returns_the_rest ∅
           (mkFile 1 (bytes_lit [x00; x01; x02]) 0 (mkFileInfo "file" 3 384)
              None 0 ∅) S 4);
    [reflexivity | simpl; lia | simpl; lia | lia | simpl; lia].
Defined.

(** [ReadAt] with an offset that is not negative returns the bytes of
    the content from that offset, at most as many as asked for, with
    [io.EOF] exactly when they are fewer than asked for; it leaves the file
    node, its offset included, as it was. *)
Theorem ReadAt_keeps_offset (h : heap) (fil : File) (k : nat) (o : Z) :
  IsDir fil = false → buf_wf (buf fil) →
  0 ≤ o → (0 < k)%nat ∨ o ≤ blen (buf fil) →
  let data := take k (drop (Z.to_nat o) (bytes_of (buf fil))) in
  ReadAt h fil k o
  = Ret (fil, (data, Z.of_nat (length data),
               if (length data <? k)%nat then Some EOF else None)).
Proof.
  intros Hd Hwf Ho Hk data. unfold ReadAt. rewrite Hd.
  pose proof (length_bytes_of _ Hwf) as Hlen.
  destruct (decide (o < blen (buf fil) ∨ k = 0%nat)) as [Hin|Hout].
  - rewrite Read_data; cbn [buf off set_off]; auto; try lia.
    rewrite ret_bind. cbv beta iota. fold data.
    rewrite !set_off_set_off, set_off_off.
    destruct (Z.of_nat (length data) <? Z.of_nat k) eqn:E.
    + apply Z.ltb_lt in E.
      replace (length data <? k)%nat with true
        by (symmetry; apply Nat.ltb_lt; lia). done.
    + apply Z.ltb_ge in E.
      replace (length data <? k)%nat with false
        by (symmetry; apply Nat.ltb_ge; lia). done.
  - rewrite Read_EOF; cbn [buf off set_off]; auto; try lia.
    rewrite ret_bind. cbv beta iota. rewrite !set_off_set_off, set_off_off.
    assert (data = []) as ->.
    { unfold data. rewrite drop_ge by lia. by rewrite take_nil. }
    simpl. replace (0 <? k)%nat with true
      by (symmetry; apply Nat.ltb_lt; lia). done.
Qed.

Lemma ReadAt_keeps_offset_witness :
  ReadAt ∅ (mkFile 0 (bytes_lit [x00; x01; x02]) 0 (mkFileInfo "file" 3 384)
              None 0 ∅) 4 1
  = Ret (mkFile 0 (bytes_lit [x00; x01; x02]) 0 (mkFileInfo "file" 3 384)
           None 0 ∅, ([x01; x02], 2, Some EOF)).
Proof.
  apply (ReadAt_keeps_offset ∅
           (mkFile 0 (bytes_lit [x00; x01; x02]) 0 (mkFileInfo "file" 3 384)
              None 0 ∅) 4 1);
    [reflexivity | simpl; lia | lia | left; lia].
Defined.

(** With an offset that is not negative, [ReadByte] behaves as [Read]
    into a slice of one byte: the same error, the same offset afterwards,
    and the byte that [Read] stores, also on a directory. *)
Theorem ReadByte_as_Read (h : heap) (fil : File) :
  0 ≤ off fil → buf_wf (buf fil) →
  ReadByte h fil
  = '(fil', (data, _, err)) ← Read h fil 1; Ret (fil', (hd x00 data, err)).
Proof.
  intros Ho Hwf. unfold ReadByte.
  destruct (IsDir fil) eqn:Hd.
  - unfold Read. rewrite Hd. by destruct (path_error h fil "read" EISDIR).
  - pose proof (length_bytes_of _ Hwf) as Hlen.
    destruct (off fil >=? blen (buf fil)) eqn:E.
    + rewrite Z.geb_leb in E. apply Z.leb_le in E.
      rewrite Read_EOF by (auto; lia). done.
    + rewrite Z.geb_leb in E. apply Z.leb_gt in E.
      rewrite Read_data by (auto; lia). rewrite ret_bind. cbv beta iota.
      unfold elem_at.
      replace ((0 <=? off fil) && (off fil <? blen (buf fil))) with true.
      2:{ symmetry. apply andb_true_iff. split; [apply Z.leb_le|apply Z.ltb_lt]; lia. }
      rewrite ret_bind.
      destruct (drop (Z.to_nat (off fil)) (bytes_of (buf fil))) as [|x rest] eqn:Er.
      { apply (f_equal length) in Er. revert Er. lengths. simpl. lia. }
      simpl. do 3 f_equal.
      change x with (at0 (x :: rest) 0). rewrite <- Er, at0_drop.
      f_equal. lia.
Qed.

Lemma ReadByte_as_Read_witness :
  ReadByte ∅ (mkFile 2 (bytes_lit [x00; x01; x02]) 0 (mkFileInfo "file" 3 384)
                None 0 ∅)
  = '(fil', (data, _, err)) ←
      Read ∅ (mkFile 2 (bytes_lit [x00; x01; x02]) 0 (mkFileInfo "file" 3 384)
                None 0 ∅) 1;
    Ret (fil', (hd x00 data, err)).
Proof.
  apply (ReadByte_as_Read ∅
           (mkFile 2 (bytes_lit [x00; x01; x02]) 0 (mkFileInfo "file" 3 384)
              None 0 ∅)); simpl; lia.
Defined.

(** On a file node whose offset lies beyond the length (as after a
    seek past the end), [Read] into a slice that is not empty and
    [ReadByte] return [io.EOF] and change nothing, while [Read] into an
    empty slice, [String] and [WriteTo] panic on the slice expression
    [buf[off:]]. *)
Theorem reading_beyond_the_length
    {W : Type} (wr : Writer W) (w : W) (h : heap) (fil : File) (k : nat) :
  IsDir fil = false → blen (buf fil) < off fil → (0 < k)%nat →
  Read h fil k = Ret (fil, ([], 0, Some EOF))
  ∧ ReadByte h fil = Ret (fil, (x00, Some EOF))
  ∧ Read h fil 0 = Panic (PanicRuntime "slice bounds out of range")
  ∧ String_ fil = Panic (PanicRuntime "slice bounds out of range")
  ∧ WriteTo wr h fil w = Panic (PanicRuntime "slice bounds out of range").
Proof.
  intros Hd Ho Hk.
  assert ((0 <=? off fil) && (off fil <=? blen (buf fil)) = false) as Hs.
  { apply andb_false_iff. right. apply Z.leb_gt. lia. }
  split; [apply Read_EOF; auto; lia|].
  split.
  { unfold ReadByte. rewrite Hd.
    replace (off fil >=? blen (buf fil)) with true
      by (symmetry; apply Z.geb_le; lia). done. }
  split.
  { unfold Read, slice_from. rewrite Hd, Hs. done. }
  split.
  { unfold String_, slice_from. by rewrite Hs. }
  unfold WriteTo, slice_from. by rewrite Hd, Hs.
Qed.

Lemma reading_beyond_the_length_witness :
  Read ∅ (mkFile 5 (bytes_lit [x00; x01; x02]) 0 (mkFileInfo "file" 3 384)
            None 0 ∅) 2
  = Ret (mkFile 5 (bytes_lit [x00; x01; x02]) 0 (mkFileInfo "file" 3 384)
           None 0 ∅, ([], 0, Some EOF))
  ∧ ReadByte ∅ (mkFile 5 (bytes_lit [x00; x01; x02]) 0
                  (mkFileInfo "file" 3 384) None 0 ∅)
    = Ret (mkFile 5 (bytes_lit [x00; x01; x02]) 0 (mkFileInfo "file" 3 384)
             None 0 ∅, (x00, Some EOF))
  ∧ Read ∅ (mkFile 5 (bytes_lit [x00; x01; x02]) 0 (mkFileInfo "file" 3 384)
              None 0 ∅) 0
    = Panic (PanicRuntime "slice bounds out of range")
  ∧ String_ (mkFile 5 (bytes_lit [x00; x01; x02]) 0 (mkFileInfo "file" 3 384)
               None 0 ∅)
    = Panic (PanicRuntime "slice bounds out of range")
  ∧ WriteTo (File_Writer ∅) ∅
      (mkFile 5 (bytes_lit [x00; x01; x02]) 0 (mkFileInfo "file" 3 384)
         None 0 ∅) NewRoot
    = Panic (PanicRuntime "slice bounds out of range").
Proof.
  apply (reading_beyond_the_length (File_Writer ∅) NewRoot ∅
           (mkFile 5 (bytes_lit [x00; x01; x02]) 0 (mkFileInfo "file" 3 384)
              None 0 ∅) 2);
    [reflexivity | simpl; lia | lia].
Defined.

(** ** What the buffer operations leave alone *)

Lemma set_buf_buf (fil : File) : set_buf fil (buf fil) = fil.
Proof. by destruct fil. Qed.

Lemma Truncate_frame (h : heap) (fil fil' : File) (size : Z)
    (err : option error) :
  Truncate h fil size = Ret (fil', err) → buf_wf (buf fil) →
  fil' = set_buf fil (buf fil').
Proof.
  intros Ht Hwf. unfold Truncate in Ht.
  pose proof (blen_nonneg (buf fil)) as Hl0.
  pose proof (buf_wf_le _ Hwf) as Hlc.
  destruct (IsDir fil).
  { inv_bind Ht. injection Ht as <- <-. by destruct fil. }
  destruct (Z.ltb_spec size 0) as [|Hs0].
  { inv_bind Ht. injection Ht as <- <-. by destruct fil. }
  inv_bind Ht. injection Ht as <- <-. rename a into fil1.
  destruct (Z.eqb_spec size (blen (buf fil))).
  { injection Ha as <-. by destruct fil. }
  destruct (Z.eqb_spec size (bcap (buf fil))).
  { inv_bind Ha. injection Ha as <-. by destruct fil. }
  destruct ((size >? blen (buf fil)) && (size <? bcap (buf fil))).
  { inv_bind Ha. injection Ha as <-. by destruct fil. }
  destruct (Z.gtb_spec size (bcap (buf fil))).
  { inv_bind Ha. rename a into fil2.
    apply grow_spec in Ha0 as (Hf & _); [|done|lia].
    inv_bind Ha. injection Ha as <-. rewrite Hf. by destruct fil. }
  inv_bind Ha. inv_bind Ha. injection Ha as <-. by destruct fil.
Qed.

Lemma Grow_frame (fil fil' : File) (n : Z) :
  Grow fil n = Ret fil' → fil' = set_buf fil (buf fil').
Proof.
  unfold Grow. intros Hg.
  destruct (Z.ltb_spec n 0); [discriminate|].
  destruct (IsDir fil); [injection Hg as <-; by destruct fil|].
  destruct (Z.leb_spec (wrap64 (blen (buf fil) + n)) (bcap (buf fil)));
    [injection Hg as <-; by destruct fil|].
  inv_bind Hg. inv_bind Hg. by injection Hg as <-.
Qed.

Lemma WriteAt_frame (h : heap) (fil fil' : File) (p : list byte) (o : Z)
    (r : Z * option error) :
  WriteAt h fil p o = Ret (fil', r) → buf_wf (buf fil) →
  0 ≤ o → o + Z.of_nat (length p) ≤ max_int64 →
  fil' = set_buf fil (buf fil').
Proof.
  intros Hw Hwf Ho Hmax. unfold WriteAt in Hw.
  pose proof (blen_nonneg (buf fil)) as Hl0.
  pose proof (buf_wf_le _ Hwf) as Hlc.
  destruct (IsDir fil).
  { inv_bind Hw. injection Hw as <- <-. by destruct fil. }
  destruct (appending fil) eqn:Happ.
  { injection Hw as <- <-. by destruct fil. }
  inv_bind Hw. rename a into fil1. inv_bind Hw. destruct a as [fil2 n].
  injection Hw as <- <-.
  assert (set_off fil1 o = set_buf (set_off fil o) (buf fil1)
          ∧ buf_wf (buf fil1)) as [Hf1 Hwf1].
  { rewrite wrap64_id in Ha by (unfold min_int64, max_int64 in *; lia).
    destruct (Z.gtb_spec (o + Z.of_nat (length p)) (bcap (buf fil))).
    - inv_bind Ha. rename a into fil3.
      rewrite wrap64_id in Ha1 by (unfold min_int64, max_int64 in *; simpl; lia).
      apply grow_spec in Ha1 as (Hf & _); [|done|simpl; lia].
      inv_bind Ha. injection Ha as <-.
      apply reslice_Ret in Ha1 as (_ & _ & _ & _ & _ & Hwf').
      split; [|done]. rewrite Hf. by destruct fil.
    - injection Ha as <-. split; [by destruct fil|done]. }
  apply write_spec in Ha0 as (_ & _ & Hf2 & _); [|done].
  rewrite Hf2, Hf1. by destruct fil.
Qed.

(** ** Truncate *)

(** [Truncate] to a size that is not negative and, when it is beyond
    the capacity, makes [grow] allocate at most [maxAlloc] bytes, returns
    no error, makes the content the old one cut at that size or padded
    with zeros up to it, and changes nothing but the buffer: the offset
    stays where it was, also in append mode and also beyond the new
    length.  The bytes between the length and the capacity stay zero. *)
Theorem Truncate_sets_length (h : heap) (fil : File) (size : Z) :
  IsDir fil = false → buf_ok (buf fil) → 0 ≤ size →
  size ≤ Cap fil ∨ grow_alloc (buf fil) (size - Len fil) ≤ maxAlloc →
  ∃ fil', Truncate h fil size = Ret (fil', None)
    ∧ fil' = set_buf fil (buf fil')
    ∧ Len fil' = size
    ∧ bytes_of (buf fil') = resize (Z.to_nat size) x00 (bytes_of (buf fil))
    ∧ buf_ok (buf fil').
Proof.
  intros Hd Hok Hs _. pose proof (buf_ok_wf _ Hok) as Hwf.
  destruct (Truncate_total h fil size) as [fil' Ht]; auto.
  exists fil'. split; [done|].
  pose proof (Truncate_frame _ _ _ _ _ Ht Hwf) as Hf.
  apply Truncate_spec in Ht as [Hok' Hc]; [|done].
  simpl in Hc. unfold sparse_truncate in Hc.
  split; [done|]. split; [|done].
  unfold Len. apply (f_equal length) in Hc.
  rewrite length_bytes_of, length_resize in Hc by by apply buf_ok_wf.
  pose proof (blen_nonneg (buf fil')). lia.
Qed.

Lemma Truncate_sets_length_witness :
  ∃ fil', Truncate ∅ (mkFile 3 (bytes_lit [x01; x02; x03]) 0
                        (mkFileInfo "file" 3 384) None 0 ∅) 1
          = Ret (fil', None)
    ∧ fil' = set_buf (mkFile 3 (bytes_lit [x01; x02; x03]) 0
                        (mkFileInfo "file" 3 384) None 0 ∅) (buf fil')
    ∧ Len fil' = 1
    ∧ bytes_of (buf fil') = [x01]
    ∧ buf_ok (buf fil').
Proof.
  apply (Truncate_sets_length ∅
           (mkFile 3 (bytes_lit [x01; x02; x03]) 0 (mkFileInfo "file" 3 384)
              None 0 ∅) 1);
    [reflexivity | by vm_compute | lia | left; vm_compute; discriminate].
Defined.

(** ** Grow *)

(** The sum of the length and n wraps: [Grow] by the largest [int] on a
    file of three bytes finds the sum negative and returns at once, with
    the capacity still three. *)
Lemma Grow_sum_wraps :
  Grow (mkFile 3 (bytes_lit [x01; x02; x03]) 0 (mkFileInfo "file" 3 384)
          None 0 ∅) max_int64
  = Ret (mkFile 3 (bytes_lit [x01; x02; x03]) 0 (mkFileInfo "file" 3 384)
           None 0 ∅).
Proof. reflexivity. Qed.

(** [Grow] by n >= 0, with the length plus n at most [maxAlloc], changes
    nothing but the buffer, of which it keeps the content and the length,
    and leaves room for n bytes beyond the length; a [Write] of at most n
    bytes at an offset within the length then stores all of them without
    changing the capacity. *)
Theorem Grow_reserves_capacity (h : heap) (fil : File) (n : Z) (p : list byte) :
  IsDir fil = false → buf_ok (buf fil) → 0 ≤ n → Len fil + n ≤ maxAlloc →
  Z.of_nat (length p) ≤ n → 0 ≤ write_offset fil ≤ Len fil →
  ∃ fil' fil'',
    Grow fil n = Ret fil'
    ∧ fil' = set_buf fil (buf fil')
    ∧ bytes_of (buf fil') = bytes_of (buf fil)
    ∧ Len fil' + n ≤ Cap fil'
    ∧ Write h fil' p = Ret (fil'', (Z.of_nat (length p), None))
    ∧ Cap fil'' = Cap fil'.
Proof.
  intros Hd Hok Hn Hmax Hp Ho. pose proof (buf_ok_wf _ Hok) as Hwf.
  unfold Len, Cap in *.
  destruct (Grow_total fil n) as [fil' Hg]; auto.
  pose proof (Grow_frame _ _ _ Hg) as Hf.
  pose proof (Grow_spec _ _ _ Hg Hok) as [Hok' Hc].
  pose proof (buf_ok_wf _ Hok') as Hwf'.
  assert (blen (buf fil') = blen (buf fil)) as Hl.
  { apply (f_equal length) in Hc. rewrite !length_bytes_of in Hc by done.
    pose proof (blen_nonneg (buf fil)). pose proof (blen_nonneg (buf fil')).
    lia. }
  assert (blen (buf fil') + n ≤ bcap (buf fil')) as Hroom.
  { unfold Grow in Hg.
    destruct (Z.ltb_spec n 0); [lia|]. rewrite Hd in Hg.
    pose proof (blen_nonneg (buf fil)).
    rewrite wrap64_id in Hg
      by (unfold min_int64, max_int64, maxAlloc in *; lia).
    destruct (Z.leb_spec (blen (buf fil) + n) (bcap (buf fil))).
    - injection Hg as <-. lia.
    - inv_bind Hg. rename a into tmp. inv_bind Hg. injection Hg as <-.
      cbn [buf set_buf] in *.
      apply (copy_into_fresh _ _ (buf fil)) in Ha as (_ & Hcap & _); [|done|lia].
      apply reslice_Ret in Ha0 as (_ & _ & Hl' & Hc' & _). lia. }
  assert (write_offset fil' = write_offset fil) as Hwo.
  { rewrite Hf. unfold write_offset, appending. cbn [flag off buf set_buf].
    by rewrite Hl. }
  assert (IsDir fil' = false) as Hd' by (by rewrite Hf).
  destruct (write_full fil' p) as [fil'' Hw]; [done|rewrite Hwo; lia|].
  exists fil', fil''. split; [done|]. split; [done|]. split; [done|].
  split; [done|]. unfold Write. rewrite Hd', Hw. split; [done|].
  apply write_spec in Hw as (_ & _ & _ & _ & _ & _ & (b1 & Hcase & ->) & _);
    [|done].
  unfold grow_case in Hcase. rewrite Hwo in Hcase.
  cbn [buf off set_off] in Hcase.
  destruct Hcase as [[_ ->]|[(_&_&?)|[(?&_)|(?&_)]]]; [done|done|lia..].
Qed.

Lemma Grow_reserves_capacity_witness :
  ∃ fil' fil'',
    Grow (mkFile 3 (bytes_lit [x01; x02; x03]) 0 (mkFileInfo "file" 3 384)
            None 0 ∅) 2 = Ret fil'
    ∧ fil' = set_buf (mkFile 3 (bytes_lit [x01; x02; x03]) 0
                        (mkFileInfo "file" 3 384) None 0 ∅) (buf fil')
    ∧ bytes_of (buf fil') = [x01; x02; x03]
    ∧ Len fil' + 2 ≤ Cap fil'
    ∧ Write ∅ fil' [x04; x05] = Ret (fil'', (2, None))
    ∧ Cap fil'' = Cap fil'.
Proof.
  apply (Grow_reserves_capacity ∅
           (mkFile 3 (bytes_lit [x01; x02; x03]) 0 (mkFileInfo "file" 3 384)
              None 0 ∅) 2 [x04; x05]);
    [reflexivity | by vm_compute | lia | vm_compute; discriminate
    | simpl; lia | vm_compute; split; discriminate].
Defined.

(** ** Writes one after the other *)

Lemma sparse_write_app (c p q : list byte) (o : nat) :
  sparse_write (sparse_write c o p) (o + length p) q
  = sparse_write c o (p ++ q).
Proof.
  apply at0_ext.
  - rewrite !length_sparse_write, length_app. lia.
  - intros i _. rewrite !at0_sparse_write, at0_app, length_app.
    repeat case_decide; try lia; auto. f_equal. lia.
Qed.

(** On a file node whose bytes between the length and the capacity are
    zero, two writes one after the other leave the content and the offset
    that one write of the two slices joined leaves, when the first starts
    at an offset of at most twice the capacity. *)
Theorem Write_twice (h : heap) (fil : File) (p q : list byte) :
  IsDir fil = false → buf_ok (buf fil) →
  0 ≤ write_offset fil ≤ 2 * bcap (buf fil) →
  ∃ fil1 fil2 fil12,
    Write h fil p = Ret (fil1, (Z.of_nat (length p), None))
    ∧ Write h fil1 q = Ret (fil2, (Z.of_nat (length q), None))
    ∧ Write h fil (p ++ q) = Ret (fil12, (Z.of_nat (length (p ++ q)), None))
    ∧ bytes_of (buf fil2) = bytes_of (buf fil12)
    ∧ off fil2 = off fil12.
Proof.
  intros Hd Hok Ho. pose proof (buf_ok_wf _ Hok) as Hwf.
  pose proof (blen_nonneg (buf fil)) as Hl0.
  destruct (write_full fil p) as [fil1 Hw1]; [done..|].
  destruct (write_full fil (p ++ q)) as [fil12 Hw12]; [done..|].
  pose proof Hw1 as Hs1. pose proof Hw12 as Hs12.
  apply write_spec in Hs1
    as (_ & _ & Hf1 & Hwf1 & Hl1 & _ & _ & Hc1 & Hok1); [|done].
  apply write_spec in Hs12
    as (_ & _ & Hf12 & _ & _ & _ & _ & Hc12 & _); [|done].
  specialize (Hok1 Hok).
  assert (IsDir fil1 = false) as Hd1 by (by rewrite Hf1).
  assert (write_offset fil1 = write_offset fil + Z.of_nat (length p)) as Hwo1.
  { rewrite Hf1. unfold write_offset at 1, appending.
    cbn [flag off buf set_buf set_off]. fold (appending fil).
    unfold write_offset in *. destruct (appending fil); lia. }
  pose proof (buf_wf_le _ Hwf1) as Hlc1.
  destruct (write_full fil1 q) as [fil2 Hw2]; [done|rewrite Hwo1; lia|].
  pose proof Hw2 as Hs2.
  apply write_spec in Hs2
    as (_ & _ & Hf2 & _ & _ & _ & _ & Hc2 & _); [|done].
  exists fil1, fil2, fil12. unfold Write.
  rewrite Hd, Hd1, Hw1, Hw2, Hw12. do 3 (split; [done|]).
  split.
  - rewrite Hc2, Hc12, Hc1 by auto. rewrite !take_ge by lia.
    rewrite Hwo1, <- sparse_write_app. f_equal. lia.
  - rewrite Hf2, Hf12, Hwo1. cbn [off set_off set_buf].
    rewrite length_app. lia.
Qed.

Lemma Write_twice_witness :
  ∃ fil1 fil2 fil12,
    Write ∅ (mkFile 1 (bytes_lit [x01; x02; x03]) 0 (mkFileInfo "file" 3 384)
               None 0 ∅) [x07]
    = Ret (fil1, (1, None))
    ∧ Write ∅ fil1 [x08; x09] = Ret (fil2, (2, None))
    ∧ Write ∅ (mkFile 1 (bytes_lit [x01; x02; x03]) 0 (mkFileInfo "file" 3 384)
                 None 0 ∅) ([x07] ++ [x08; x09])
      = Ret (fil12, (3, None))
    ∧ bytes_of (buf fil2) = bytes_of (buf fil12)
    ∧ off fil2 = off fil12.
Proof.
  apply (Write_twice ∅
           (mkFile 1 (bytes_lit [x01; x02; x03]) 0 (mkFileInfo "file" 3 384)
              None 0 ∅) [x07] [x08; x09]);
    [reflexivity | by vm_compute | vm_compute; split; discriminate].
Defined.

(** ** [WriteAt] within and beyond the capacity *)

(** [WriteAt] on a file node not in append mode, at an offset off >= 0
    with off + len(p) at most the largest [int64] and either within the
    capacity or with the capacity it asks for at most [maxAlloc], returns
    len(p) and no error, changes nothing but the buffer (the offset stays),
    and the content is the old one with zeros up to the offset and p from
    there on.  Within the capacity, the capacity stays. *)
Theorem WriteAt_stores_all (h : heap) (fil : File) (p : list byte) (o : Z) :
  IsDir fil = false → appending fil = false → buf_ok (buf fil) →
  0 ≤ o → o + Z.of_nat (length p) ≤ max_int64 →
  o + Z.of_nat (length p) ≤ Cap fil
  ∨ WriteAt_capacity fil o (Z.of_nat (length p)) ≤ maxAlloc →
  ∃ fil', WriteAt h fil p o = Ret (fil', (Z.of_nat (length p), None))
    ∧ fil' = set_buf fil (buf fil')
    ∧ bytes_of (buf fil') = sparse_write (bytes_of (buf fil)) (Z.to_nat o) p
    ∧ buf_ok (buf fil')
    ∧ (o + Z.of_nat (length p) ≤ Cap fil → Cap fil' = Cap fil).
Proof.
  intros Hd Happ Hok Ho Hmax _. pose proof (buf_ok_wf _ Hok) as Hwf.
  pose proof (blen_nonneg (buf fil)) as Hl0.
  pose proof (buf_wf_le _ Hwf) as Hlc.
  assert (∃ fil', WriteAt h fil p o = Ret (fil', (Z.of_nat (length p), None))
            ∧ (o + Z.of_nat (length p) ≤ Cap fil → Cap fil' = Cap fil))
    as (fil' & Hw & Hcap).
  { unfold Cap.
    destruct (Z.lt_ge_cases (bcap (buf fil)) (o + Z.of_nat (length p)))
      as [Hbig|Hfit].
    { destruct (WriteAt_beyond h fil p o) as (fil' & Hw & _); auto.
      exists fil'. split; [done|]. lia. }
    unfold WriteAt. rewrite Hd, Happ.
    rewrite wrap64_id by (unfold min_int64, max_int64 in *; lia).
    destruct (Z.gtb_spec (o + Z.of_nat (length p)) (bcap (buf fil))); [lia|].
    rewrite ret_bind.
    destruct (write_full (set_off fil o) p) as [fil1 Hw1]; [done| |].
    { rewrite write_offset_set_off by done. simpl. lia. }
    rewrite Hw1. simpl. eexists. split; [done|]. intros _.
    cbn [buf set_off].
    apply write_spec in Hw1
      as (_ & _ & _ & _ & _ & _ & (b1 & Hcase & ->) & _); [|done].
    rewrite write_offset_set_off in Hcase by done.
    unfold grow_case in Hcase. cbn [buf off set_off] in Hcase.
    destruct Hcase as [[_ ->]|[(_&_&?)|[(?&_)|(?&_)]]]; [done|done|lia..]. }
  exists fil'. split; [done|].
  split; [by eapply WriteAt_frame|].
  apply WriteAt_spec in Hw as [Hok' Hc]; auto.
  2:{ unfold min_int64, max_int64 in *. lia. }
  2:{ unfold max_int64 in *. lia. }
  simpl in Hc. rewrite take_ge in Hc by lia. done.
Qed.

Lemma WriteAt_stores_all_witness :
  ∃ fil', WriteAt ∅ (mkFile 3 (Some (Slice [x01; x02; x03; x00; x00; x00] 3)) 0
                       (mkFileInfo "file" 3 384) None 0 ∅) [x07] 4
          = Ret (fil', (1, None))
    ∧ fil' = set_buf (mkFile 3 (Some (Slice [x01; x02; x03; x00; x00; x00] 3)) 0
                        (mkFileInfo "file" 3 384) None 0 ∅) (buf fil')
    ∧ bytes_of (buf fil') = [x01; x02; x03; x00; x07]
    ∧ buf_ok (buf fil')
    ∧ (4 + 1 ≤ Cap (mkFile 3 (Some (Slice [x01; x02; x03; x00; x00; x00] 3)) 0
                      (mkFileInfo "file" 3 384) None 0 ∅) →
       Cap fil' = 6).
Proof.
  apply (WriteAt_stores_all ∅
           (mkFile 3 (Some (Slice [x01; x02; x03; x00; x00; x00] 3)) 0
              (mkFileInfo "file" 3 384) None 0 ∅) [x07] 4);
    [reflexivity | reflexivity | split; [simpl; lia | reflexivity] | lia
    | by vm_compute | left; vm_compute; discriminate].
Defined.

(** ** Rewinding, and moving to the end *)

Lemma write_at_end (fil : File) (p : list byte) :
  buf_wf (buf fil) → write_offset fil = blen (buf fil) →
  ∃ fil', write fil p = Ret (fil', Z.of_nat (length p))
    ∧ fil' = set_buf (set_off fil (blen (buf fil) + Z.of_nat (length p)))
               (buf fil')
    ∧ bytes_of (buf fil') = bytes_of (buf fil) ++ p
    ∧ (buf_ok (buf fil) → buf_ok (buf fil')).
Proof.
  intros Hwf Ho.
  pose proof (blen_nonneg (buf fil)) as Hl0.
  pose proof (buf_wf_le _ Hwf) as Hlc.
  destruct (write_full fil p) as [fil' Hw]; [done|lia|].
  exists fil'. split; [done|].
  apply write_spec in Hw as (_ & _ & Hf & _ & _ & _ & _ & Hc & Hok); [|done].
  rewrite Ho in *. split; [done|]. split; [|done].
  rewrite Hc by lia. rewrite take_ge by lia.
  rewrite <- (length_bytes_of _ Hwf). apply sparse_write_end.
Qed.

(** [SeekStart] and [Close] put the offset at zero, so that reading
    until the end of the data then returns the whole content; [SeekEnd]
    puts it at the length, so that a [Write] then appends to the content.
    Both seeks return the offset the file had. *)
Theorem rewind_and_move_to_end
    (h : heap) (fil : File) (p : list byte) (next_cap : nat → nat)
    (fuel : nat) :
  IsDir fil = false → buf_wf (buf fil) →
  (∀ c, (c < next_cap c)%nat) → (Z.to_nat (Len fil) + 2 ≤ fuel)%nat →
  snd (SeekStart fil) = off fil ∧ snd (SeekEnd fil) = off fil
  ∧ Close (Some fil) = (Some (fst (SeekStart fil)), None)
  ∧ ReadAll fuel next_cap h (fst (SeekStart fil))
    = Ret (set_off fil (Len fil), (bytes_of (buf fil), None))
  ∧ ∃ fil', Write h (fst (SeekEnd fil)) p
            = Ret (fil', (Z.of_nat (length p), None))
      ∧ bytes_of (buf fil') = bytes_of (buf fil) ++ p
      ∧ off fil' = Len fil + Z.of_nat (length p).
Proof.
  intros Hd Hwf Hgrow Hf. unfold Len in *.
  pose proof (blen_nonneg (buf fil)) as Hl0.
  do 3 (split; [done|]). split.
  - unfold ReadAll, SeekStart. cbn [fst].
    rewrite ReadAll_go_rest; cbn [buf off set_off]; auto; try (simpl; lia).
  - unfold SeekEnd. cbn [fst].
    destruct (write_at_end (set_off fil (blen (buf fil))) p)
      as (fil' & Hw & Hf' & Hc & _); [done| |].
    { unfold write_offset. by destruct (appending _). }
    exists fil'. unfold Write.
    replace (IsDir (set_off fil (blen (buf fil)))) with false by done.
    rewrite Hw. split; [done|]. split; [done|]. by rewrite Hf'.
Qed.

Lemma rewind_and_move_to_end_witness :
  snd (SeekStart (mkFile 1 (bytes_lit [x01; x02]) 0 (mkFileInfo "file" 2 384)
                    None 0 ∅)) = 1
  ∧ snd (SeekEnd (mkFile 1 (bytes_lit [x01; x02]) 0 (mkFileInfo "file" 2 384)
                    None 0 ∅)) = 1
  ∧ Close (Some (mkFile 1 (bytes_lit [x01; x02]) 0 (mkFileInfo "file" 2 384)
                   None 0 ∅))
    = (Some (mkFile 0 (bytes_lit [x01; x02]) 0 (mkFileInfo "file" 2 384)
               None 0 ∅), None)
  ∧ ReadAll 4 S ∅ (mkFile 0 (bytes_lit [x01; x02]) 0 (mkFileInfo "file" 2 384)
                     None 0 ∅)
    = Ret (mkFile 2 (bytes_lit [x01; x02]) 0 (mkFileInfo "file" 2 384)
             None 0 ∅, ([x01; x02], None))
  ∧ ∃ fil', Write ∅ (mkFile 2 (bytes_lit [x01; x02]) 0
                       (mkFileInfo "file" 2 384) None 0 ∅) [x03]
            = Ret (fil', (1, None))
      ∧ bytes_of (buf fil') = [x01; x02] ++ [x03]
      ∧ off fil' = 2 + 1.
Proof.
  apply (rewind_and_move_to_end ∅
           (mkFile 1 (bytes_lit [x01; x02]) 0 (mkFileInfo "file" 2 384)
              None 0 ∅) [x03] S 4);
    [reflexivity | simpl; lia | lia | simpl; lia].
Defined.

(** ** Release *)

(** [Release] hands out the buffer and leaves the node with a nil
    buffer and the offset zero; a [Write] on it then starts a new content,
    which is exactly p, in a buffer of capacity 64 when p has at most 64
    bytes and of capacity len(p) otherwise (the buffer stays nil for an
    empty p). *)
Theorem Release_then_Write (h : heap) (fil : File) (p : list byte) :
  IsDir fil = false →
  snd (Release fil) = buf fil
  ∧ Len (fst (Release fil)) = 0 ∧ Cap (fst (Release fil)) = 0
  ∧ Offset (fst (Release fil)) = 0
  ∧ ∃ fil', Write h (fst (Release fil)) p
            = Ret (fil', (Z.of_nat (length p), None))
      ∧ bytes_of (buf fil') = p
      ∧ off fil' = Z.of_nat (length p)
      ∧ Cap fil' = if Z.of_nat (length p) =? 0 then 0
                   else if Z.of_nat (length p) <=? smallBufferSize
                        then smallBufferSize else Z.of_nat (length p).
Proof.
  intros Hd. do 4 (split; [done|]).
  unfold Release. cbn [fst]. set (fil1 := set_buf (set_off fil 0) None).
  assert (write_offset fil1 = 0) as Hwo.
  { unfold write_offset. by destruct (appending fil1). }
  destruct (write_full fil1 p) as [fil' Hw]; [done|rewrite Hwo; simpl; lia|].
  exists fil'. unfold Write.
  replace (IsDir fil1) with false by done. rewrite Hw. split; [done|].
  apply write_spec in Hw
    as (_ & _ & Hf & _ & _ & _ & (b1 & Hcase & Hcap) & Hc & _); [|done].
  rewrite Hwo in *. split.
  { rewrite Hc by (right; simpl; lia). rewrite take_ge by lia.
    apply (sparse_write_end [] p). }
  split; [by rewrite Hf|].
  unfold Cap. rewrite Hcap. unfold grow_case in Hcase.
  cbn [fil1 buf off set_off set_buf blen bcap is_nil] in Hcase.
  unfold smallBufferSize in *.
  destruct (Z.eqb_spec (Z.of_nat (length p)) 0),
    (Z.leb_spec (Z.of_nat (length p)) 64);
    destruct Hcase as [[? ->]|[(?&_)|[(?&_&?&_&?)|(?&[?|?]&_&?)]]];
    simpl; try lia; try discriminate.
Qed.

Lemma Release_then_Write_witness :
  snd (Release (mkFile 1 (bytes_lit [x01; x02]) 0 (mkFileInfo "file" 2 384)
                  None 0 ∅)) = bytes_lit [x01; x02]
  ∧ Len (fst (Release (mkFile 1 (bytes_lit [x01; x02]) 0
                         (mkFileInfo "file" 2 384) None 0 ∅))) = 0
  ∧ Cap (fst (Release (mkFile 1 (bytes_lit [x01; x02]) 0
                         (mkFileInfo "file" 2 384) None 0 ∅))) = 0
  ∧ Offset (fst (Release (mkFile 1 (bytes_lit [x01; x02]) 0
                            (mkFileInfo "file" 2 384) None 0 ∅))) = 0
  ∧ ∃ fil', Write ∅ (mkFile 0 None 0 (mkFileInfo "file" 2 384) None 0 ∅)
              [x07; x08; x09]
            = Ret (fil', (3, None))
      ∧ bytes_of (buf fil') = [x07; x08; x09]
      ∧ off fil' = 3
      ∧ Cap fil' = 64.
Proof.
  apply (Release_then_Write ∅
           (mkFile 1 (bytes_lit [x01; x02]) 0 (mkFileInfo "file" 2 384)
              None 0 ∅) [x07; x08; x09]).
  reflexivity.
Defined.

(** ** Writing a file to another one *)

(** [WriteTo] with another file node as the writer, one whose bytes
    between the length and the capacity are zero, copies the bytes from
    the offset, which lies within the length, to the end of the content
    into the writer, at the writer's offset (its length in append mode)
    when that is at most twice its capacity; it returns their count and
    leaves the offset of the file written from at the length. *)
Theorem WriteTo_another_file (h : heap) (fil dst : File) :
  IsDir fil = false → buf_wf (buf fil) → 0 ≤ off fil ≤ Len fil →
  IsDir dst = false → buf_ok (buf dst) →
  0 ≤ write_offset dst ≤ 2 * Cap dst →
  let rest := drop (Z.to_nat (off fil)) (bytes_of (buf fil)) in
  ∃ dst',
    WriteTo (File_Writer h) h fil dst
    = Ret (set_off fil (Len fil), dst', (Len fil - off fil, None))
    ∧ bytes_of (buf dst')
      = sparse_write (bytes_of (buf dst)) (Z.to_nat (write_offset dst)) rest
    ∧ off dst' = write_offset dst + (Len fil - off fil)
    ∧ buf_ok (buf dst').
Proof.
  intros Hd Hwf Ho Hdd Hok Hwo rest. unfold Len, Cap in *.
  pose proof (buf_ok_wf _ Hok) as Hwfd.
  assert (Z.of_nat (length rest) = blen (buf fil) - off fil) as Hrest.
  { unfold rest. lengths. rewrite length_bytes_of by done. lia. }
  destruct (write_full dst rest) as [dst' Hw]; [done..|].
  exists dst'. unfold WriteTo, slice_from. rewrite Hd.
  replace ((0 <=? off fil) && (off fil <=? blen (buf fil))) with true.
  2:{ symmetry. apply andb_true_iff. split; apply Z.leb_le; lia. }
  rewrite ret_bind. fold rest. cbn [File_Writer writer_Write].
  unfold Write. rewrite Hdd, Hw. simpl.
  apply write_spec in Hw as (_ & _ & Hf & _ & _ & _ & _ & Hc & Hok');
    [|done].
  rewrite Hrest. split.
  { do 4 f_equal. lia. }
  split.
  { rewrite Hc by auto. by rewrite take_ge by lia. }
  split; [|auto]. rewrite Hf. cbn [off set_off set_buf]. lia.
Qed.

Lemma WriteTo_another_file_witness :
  ∃ dst',
    WriteTo (File_Writer ∅) ∅
      (mkFile 1 (bytes_lit [x01; x02; x03]) 0 (mkFileInfo "a" 3 384) None 0 ∅)
      (mkFile 2 (bytes_lit [x07; x08; x09]) 0 (mkFileInfo "b" 3 384) None 0 ∅)
    = Ret (set_off (mkFile 1 (bytes_lit [x01; x02; x03]) 0
                      (mkFileInfo "a" 3 384) None 0 ∅) 3,
           dst', (3 - 1, None))
    ∧ bytes_of (buf dst') = [x07; x08; x02; x03]
    ∧ off dst' = 2 + (3 - 1)
    ∧ buf_ok (buf dst').
Proof.
  apply (WriteTo_another_file ∅
           (mkFile 1 (bytes_lit [x01; x02; x03]) 0 (mkFileInfo "a" 3 384)
              None 0 ∅)
           (mkFile 2 (bytes_lit [x07; x08; x09]) 0 (mkFileInfo "b" 3 384)
              None 0 ∅));
    [reflexivity | simpl; lia | vm_compute; split; discriminate | reflexivity
    | by vm_compute | vm_compute; split; discriminate].
Defined.

(** ** [ReadFrom] at the end of the content *)

Lemma store_at_cap (b : option slice) (l : nat) (d : list byte) :
  (l + length d ≤ Z.to_nat (bcap b))%nat →
  bcap (store_at b l d) = bcap b ∧ blen (store_at b l d) = blen b.
Proof.
  destruct b as [s|]; simpl; [|done]. intros Hl. split; [|done].
  lengths. lia.
Qed.

Lemma store_at_view (b : option slice) (l : nat) (d : list byte) (i : nat) :
  (l + length d ≤ Z.to_nat (bcap b))%nat →
  view (store_at b l d) i
  = if decide (l ≤ i < l + length d)%nat then at0 d (i - l) else view b i.
Proof.
  destruct b as [s|]; unfold view; simpl; intros Hl.
  - at0_simpl. lengths. repeat case_decide; try lia; auto.
    + f_equal. lia.
    + f_equal. lia.
  - case_decide; [lia|done].
Qed.

Lemma reader_Read_delivered (r r' : list chunk) (k : nat)
    (data junk : list byte) (err : option error) :
  reader_Read r k = (r', (data, junk, err)) → (0 < k)%nat →
  (length data + length junk ≤ k)%nat
  ∧ (tidy r → junk = [] ∧ tidy r')
  ∧ match err with
    | None =>
        delivered r
        = (data ++ (delivered r').1.1, (delivered r').1.2, (delivered r').2)
        ∧ (rounds r' < rounds r)%nat
    | Some e => delivered r = (data, match e with EOF => None | _ => Some e end, r')
    end.
Proof.
  intros Hr Hk. destruct r as [|[d e g] r0]; simpl in Hr.
  { injection Hr as <- <- <- <-. simpl. split; [lia|done]. }
  destruct (Nat.leb_spec (length d) k) as [Hle|Hgt].
  - injection Hr as <- <- <- <-. split; [rewrite length_take; lia|]. split.
    { intros [Hg Ht]%Forall_cons. simpl in Hg. subst g.
      by rewrite take_nil. }
    destruct e as [e|]; simpl; [done|].
    destruct (delivered r0) as [[ds e'] rest]. simpl. split; [done|lia].
  - injection Hr as <- <- <- <-. split; [simpl; rewrite length_take; lia|]. split.
    { intros [Hg Ht]%Forall_cons. split; [done|]. by constructor. }
    split.
    + destruct e as [e|]; simpl.
      * by rewrite app_nil_r || by rewrite take_drop.
      * destruct (delivered r0) as [[ds e'] rest]. simpl.
        by rewrite app_assoc, take_drop.
    + simpl. lengths. lia.
Qed.

Lemma ReadFrom_go_appends (fuel : nat) :
  ∀ (fil : File) (r : list chunk) (total : Z),
    buf_wf (buf fil) → off fil = blen (buf fil) → (rounds r < fuel)%nat →
    ∃ fil',
      ReadFrom_go fuel fil r total
      = Ret (fil', (delivered r).2,
             (total + Z.of_nat (length (delivered r).1.1), (delivered r).1.2))
      ∧ fil' = set_buf (set_off fil (blen (buf fil)
                                    + Z.of_nat (length (delivered r).1.1)))
                 (buf fil')
      ∧ bytes_of (buf fil') = bytes_of (buf fil) ++ (delivered r).1.1
      ∧ (buf_ok (buf fil) → tidy r → buf_ok (buf fil')).
Proof.
  induction fuel as [|fuel IH]; intros fil r total Hwf Hoff Hfuel; [lia|].
  pose proof (blen_nonneg (buf fil)) as Hl0.
  pose proof (buf_wf_le _ Hwf) as Hlc.
  pose proof (length_bytes_of _ Hwf) as Hlen.
  cbn [ReadFrom_go].
  destruct (grow_total fil MinRead) as [fil1 Hg]; [done|done|].
  rewrite Hg, ret_bind.
  apply grow_spec in Hg as (Hf1 & Hwf1 & _ & Hcase & Hlow & _ & Hsame);
    [|done|done].
  assert (off fil1 = blen (buf fil)) as Hoff1 by (rewrite Hf1; done).
  assert (blen (buf fil) + MinRead ≤ bcap (buf fil1)) as Hroom.
  { pose proof (buf_wf_le _ Hwf1). unfold grow_case in Hcase.
    unfold MinRead, smallBufferSize in *.
    destruct Hcase as [[? _]|[(_&?&_)|[(_&_&?&_)|(_&_&?&?)]]]; lia. }
  set (l := blen (buf fil)) in *.
  set (k := Z.to_nat (bcap (buf fil1) - l)).
  assert (0 < k)%nat as Hk by (unfold k, MinRead in *; lia).
  destruct (reader_Read r k) as [r' [[data junk] err]] eqn:Hr.
  apply reader_Read_delivered in Hr as (Hdata & Htidy & Hdel); [|done].
  rewrite Hoff1, Z.eqb_refl. cbn [negb]. rewrite ret_bind.
  cbn [buf off set_off set_buf].
  set (n := Z.of_nat (length data)) in *.
  set (b := store_at (buf fil1) (Z.to_nat l) (data ++ junk)).
  assert (Z.to_nat l + length (data ++ junk) ≤ Z.to_nat (bcap (buf fil1)))%nat
    as Hfit by (rewrite length_app; unfold k in *; lia).
  destruct (store_at_cap (buf fil1) (Z.to_nat l) (data ++ junk) Hfit)
    as [Hbc Hbl].
  fold b in Hbc, Hbl.
  assert ((if l + n >? l then l + n else l) = l + n) as ->.
  { destruct (Z.gtb_spec (l + n) l); lia. }
  destruct (reslice_total b (l + n)) as [b' Hb']; [unfold n, k in *; lia|].
  rewrite Hb', ret_bind.
  pose proof Hb' as (_ & Hback & Hlb' & _ & _ & Hwf')%reslice_Ret.
  assert (Hvb : ∀ i, view b' i = view b i)
    by (intros i; unfold view; by rewrite Hback).
  assert (bytes_of b' = bytes_of (buf fil) ++ data) as Hc'.
  { apply at0_ext.
    - rewrite length_app, !length_bytes_of by done. unfold n, l in *. lia.
    - intros i _. rewrite bytes_of_view, Hvb. unfold b.
      rewrite store_at_view by done. rewrite !at0_app, Hlb', length_app, Hlen.
      rewrite bytes_of_view. fold l. unfold n in *.
      repeat case_decide; try lia; auto.
      all: try (f_equal; lia).
      all: try (apply Hlow; lia).
      all: symmetry; apply at0_ge; lia. }
  assert (buf_ok (buf fil) → tidy r → buf_ok b') as Hok'.
  { intros Hok [-> _]%Htidy. destruct (Hsame Hok) as [_ Hv1].
    eapply reslice_ok; [done|].
    intros i Hi. unfold b. rewrite store_at_view by done.
    rewrite app_nil_r in *. case_decide; [unfold n in *; lia|].
    rewrite Hv1. apply buf_ok_view in Hok as [_ Hz]. apply Hz.
    fold l. lia. }
  set (fil2 := set_buf (set_off (set_buf fil1 b) (l + n)) b').
  assert (fil2 = set_buf (set_off fil (l + n)) b') as Hf2.
  { unfold fil2. rewrite Hf1. by destruct fil. }
  destruct err as [e|].
  - rewrite Hdel. cbn [fst snd].
    exists fil2. split; [by destruct e|].
    split; [by rewrite Hf2|]. by rewrite Hf2.
  - destruct Hdel as [Hdel Hlt].
    destruct (IH fil2 r' (total + n)) as (fil' & Hrun & Hf' & Hcont & Hokf).
    { by rewrite Hf2. }
    { rewrite Hf2. cbn [off buf set_off set_buf]. lia. }
    { lia. }
    exists fil'. rewrite Hdel. cbn [fst snd]. rewrite Hrun.
    split.
    { rewrite length_app. do 3 f_equal. unfold n. lia. }
    split.
    { rewrite Hf', Hf2. cbn [off buf set_off set_buf]. rewrite Hlb'.
      rewrite length_app. unfold n.
      replace (l + Z.of_nat (length data)
               + Z.of_nat (length (delivered r').1.1))
        with (l + Z.of_nat (length data + length (delivered r').1.1)) by lia.
      by destruct fil. }
    split.
    { rewrite Hcont, Hf2. cbn [buf set_buf]. by rewrite Hc', app_assoc. }
    intros Hok Ht. apply Hokf.
    + rewrite Hf2. cbn [buf set_buf]. by apply Hok'.
    + by apply Htidy.
Qed.

(** [ReadFrom] on a file node in append mode, or with the offset at
    the length, appends to the content what the reader delivers until its
    first error, returns the count of these bytes and that error (none for
    [io.EOF]), and leaves the offset at the new length.  The bytes between
    the length and the capacity are zero afterwards when they were zero
    before and the reader left its destination alone behind the bytes it
    returned. *)
Theorem ReadFrom_appends
    (h : heap) (fil : File) (r : list chunk) (fuel : nat) :
  IsDir fil = false → buf_wf (buf fil) → write_offset fil = Len fil →
  (rounds r < fuel)%nat →
  ∃ fil',
    ReadFrom fuel h fil r
    = Ret (fil', (delivered r).2,
           (Z.of_nat (length (delivered r).1.1), (delivered r).1.2))
    ∧ bytes_of (buf fil') = bytes_of (buf fil) ++ (delivered r).1.1
    ∧ off fil' = Len fil + Z.of_nat (length (delivered r).1.1)
    ∧ (buf_ok (buf fil) → tidy r → buf_ok (buf fil')).
Proof.
  intros Hd Hwf Hwo Hfuel. unfold ReadFrom, Len in *. rewrite Hd.
  set (fil0 := if appending fil then set_off fil (blen (buf fil)) else fil).
  assert (fil0 = set_off fil (blen (buf fil))) as ->.
  { unfold fil0, write_offset in *. destruct (appending fil); [done|].
    rewrite <- Hwo. by destruct fil. }
  destruct (ReadFrom_go_appends fuel (set_off fil (blen (buf fil))) r 0)
    as (fil' & Hrun & Hf & Hc & Hok'); [done|done|done|].
  exists fil'. rewrite Hrun. split; [done|]. split; [done|].
  split; [|done]. by rewrite Hf.
Qed.

Lemma ReadFrom_appends_witness :
  ∃ fil',
    ReadFrom 8 ∅ (mkFile 0 (bytes_lit [x01; x02]) O_APPEND
                    (mkFileInfo "file" 2 384) None 0 ∅)
      [Chunk [x03] None [xff]; Chunk [x04; x05] (Some EOF) [];
       Chunk [x06] None []]
    = Ret (fil', [Chunk [x06] None []], (3, None))
    ∧ bytes_of (buf fil') = [x01; x02] ++ [x03; x04; x05]
    ∧ off fil' = 2 + 3
    ∧ (buf_ok (buf (mkFile 0 (bytes_lit [x01; x02]) O_APPEND
                      (mkFileInfo "file" 2 384) None 0 ∅)) →
       tidy [Chunk [x03] None [xff]; Chunk [x04; x05] (Some EOF) [];
             Chunk [x06] None []] →
       buf_ok (buf fil')).
Proof.
  apply (ReadFrom_appends ∅
           (mkFile 0 (bytes_lit [x01; x02]) O_APPEND (mkFileInfo "file" 2 384)
              None 0 ∅)
           [Chunk [x03] None [xff]; Chunk [x04; x05] (Some EOF) [];
            Chunk [x06] None []] 8);
    [reflexivity | simpl; lia | reflexivity | vm_compute; lia].
Defined.

(** A reader that uses its destination as scratch space: the file holds
    [1,2] in append mode and the reader returns [3] with [io.EOF], having
    written 0xff twice behind it.  The content becomes [1,2,3]; the two
    bytes stay beyond the length, and Truncate(5) shows them. *)
Lemma ReadFrom_keeps_scratch_bytes :
  (fil ← created (FileWith "file" (bytes_lit [x01; x02]) [WithFileAppend]);
   '(fil, _, r) ← ReadFrom 2 ∅ fil [Chunk [x03] (Some EOF) [xff; xff]];
   '(fil', _) ← Truncate ∅ fil 5;
   Ret (r, bytes_of (buf fil), bytes_of (buf fil')))
  = Ret ((1, None), [x01; x02; x03], [x01; x02; x03; xff; xff]).
Proof. vm_compute. reflexivity. Qed.

(** ** Resolving the path of an existing node *)

Lemma open_go_found (h : heap) (segs : list string) :
  ∀ (fuel : nat) (dir l : loc),
    (length segs ≤ fuel)%nat → Forall valid_segment segs → segs ≠ [] →
    walk h dir segs = Some l →
    open_go fuel h dir (String.concat "/" segs) = Ret (Some l, None).
Proof.
  induction segs as [|s segs IH]; [done|].
  intros fuel dir l Hfuel Hv _ Hw.
  pose proof Hv as [Hs Hrest]%Forall_cons.
  simpl in Hw.
  destruct (h !! dir) as [fdir|] eqn:Hdir; [|done].
  destruct (entries fdir !! s) as [m|] eqn:Hm; [|done].
  destruct fuel as [|k]; [simpl in Hfuel; lia|].
  assert (Hone : ∀ k', open_go (S k') h dir s = Ret (Some m, None)).
  { intros k'. rewrite open_go_single by done.
    unfold deref. rewrite Hdir. simpl. by rewrite Hm. }
  destruct segs as [|s' segs].
  { simpl in Hw. injection Hw as <-. apply Hone. }
  cbn [open_go].
  rewrite ValidPath_concat, concat_not_dot, Split_concat by done.
  simpl length. simpl hd. simpl tl.
  destruct k as [|k']; [simpl in Hfuel; lia|].
  rewrite Hone, ret_bind. cbv beta iota. rewrite Join_valid by done.
  apply IH; try done. simpl in *. lia.
Qed.

Lemma open_found (h : heap) (segs : list string) (dir l : loc) :
  Forall valid_segment segs → segs ≠ [] → walk h dir segs = Some l →
  open h dir (String.concat "/" segs) = Ret (Some l, None).
Proof.
  intros Hv Hne Hw. unfold open. apply open_go_found; try done.
  pose proof (length_concat_segments _ Hv). lia.
Qed.

(** [open] of a path of valid segments returns the node that the
    entries lead to, segment by segment, and [open] of "." returns the
    directory itself. *)
Theorem open_follows_entries
    (h : heap) (dir l : loc) (segs : list string) :
  Forall valid_segment segs → segs ≠ [] → walk h dir segs = Some l →
  open h dir (String.concat "/" segs) = Ret (Some l, None)
  ∧ open h dir "." = Ret (Some dir, None).
Proof. intros Hv Hne Hw. split; [by apply open_found|done]. Qed.

Lemma open_follows_entries_witness :
  open {[ 1%positive := set_entries NewRoot {[ "sub" := 2%positive ]};
          2%positive := set_entries NewRoot {[ "file" := 3%positive ]};
          3%positive := NewRoot ]} 1 (String.concat "/" ["sub"; "file"])
  = Ret (Some 3%positive, None)
  ∧ open {[ 1%positive := set_entries NewRoot {[ "sub" := 2%positive ]};
            2%positive := set_entries NewRoot {[ "file" := 3%positive ]};
            3%positive := NewRoot ]} 1 "."
    = Ret (Some 1%positive, None).
Proof.
  apply (open_follows_entries
           {[ 1%positive := set_entries NewRoot {[ "sub" := 2%positive ]};
              2%positive := set_entries NewRoot {[ "file" := 3%positive ]};
              3%positive := NewRoot ]} 1 3 ["sub"; "file"]);
    [by repeat constructor | done | reflexivity].
Defined.

(** ** What [AddFile] does and does not change *)

Lemma AddFile_success (h h' : heap) (d c : loc) :
  AddFile h d c = Ret (h', None) →
  ∃ fil file file1,
    h !! d = Some fil ∧ h !! c = Some file ∧ IsDir fil = true
    ∧ parent file = None ∧ (Type_ file = ModeDir ∨ Type_ file = 0)
    ∧ entries fil !! Name file = None
    ∧ <[d := set_entries fil (<[Name file := c]> (entries fil))]> h !! c
      = Some file1
    ∧ h' = <[c := set_parent file1 (Some d)]>
             (<[d := set_entries fil (<[Name file := c]> (entries fil))]> h).
Proof.
  unfold AddFile, deref. intros Ha.
  destruct (h !! d) as [fil|] eqn:Hd; [|done].
  destruct (h !! c) as [file|] eqn:Hc; [|done].
  simpl in Ha.
  destruct (IsDir fil) eqn:Hdir; [|done]. simpl in Ha.
  case_bool_decide as Hp.
  { inv_bind Ha. done. }
  destruct ((Type_ file =? ModeDir) || (Type_ file =? 0)) eqn:Ht; [|done].
  simpl in Ha.
  destruct (entries fil !! Name file) eqn:He; [done|].
  destruct (<[d := set_entries fil (<[Name file := c]> (entries fil))]> h !! c)
    as [file1|] eqn:Hc1; [|done].
  simpl in Ha. injection Ha as <-.
  exists fil, file, file1. repeat split; try done.
  apply orb_true_iff in Ht as [?%Z.eqb_eq|?%Z.eqb_eq]; auto.
Qed.

Lemma walk_app (h : heap) (segs1 segs2 : list string) (dir m : loc) :
  walk h dir segs1 = Some m →
  walk h dir (segs1 ++ segs2) = walk h m segs2.
Proof.
  revert dir. induction segs1 as [|s segs1 IH]; intros dir Hw; simpl in *.
  - by injection Hw as <-.
  - destruct (h !! dir) as [fd|]; [|done].
    destruct (entries fd !! s); [|done]. by apply IH.
Qed.

(** After [AddFile] has added a node to a directory without an
    error, the directory holds the node under the node's name, the node
    has the directory as its parent, and [open] of the path of the
    directory followed by that name returns the node, when the name is a
    valid path element. *)
Theorem AddFile_then_open
    (h h' : heap) (d c root : loc) (file : File) (segs : list string) :
  AddFile h d c = Ret (h', None) → h !! c = Some file →
  valid_segment (Name file) → Forall valid_segment segs →
  walk h' root segs = Some d →
  attached h' d [Name file] c
  ∧ open h' root (String.concat "/" (segs ++ [Name file]))
    = Ret (Some c, None).
Proof.
  intros Ha Hc Hname Hsegs Hw.
  apply AddFile_success in Ha
    as (fil & file' & file1 & Hd & Hc' & Hdir & Hp & _ & He & Hc1 & ->).
  rewrite Hc in Hc'. injection Hc' as <-.
  set (fil1 := set_entries fil (<[Name file := c]> (entries fil))) in *.
  assert (Name file1 = Name file) as Hn1.
  { destruct (decide (c = d)) as [->|Hne].
    - rewrite lookup_insert_eq in Hc1. injection Hc1 as <-.
      rewrite Hd in Hc. by injection Hc as ->.
    - rewrite lookup_insert_ne in Hc1 by done. rewrite Hc in Hc1.
      by injection Hc1 as ->. }
  assert (∃ fd, <[c := set_parent file1 (Some d)]> (<[d := fil1]> h) !! d
                = Some fd ∧ entries fd !! Name file = Some c)
    as (fd & Hfd & Hent).
  { destruct (decide (c = d)) as [->|Hne].
    - rewrite lookup_insert_eq. eexists. split; [done|].
      rewrite lookup_insert_eq in Hc1. injection Hc1 as <-.
      simpl. by rewrite lookup_insert_eq.
    - rewrite lookup_insert_ne, lookup_insert_eq by done.
      eexists. split; [done|]. simpl. by rewrite lookup_insert_eq. }
  assert (attached (<[c := set_parent file1 (Some d)]> (<[d := fil1]> h)) d
            [Name file] c) as Hatt.
  { simpl. exists fd, c, (set_parent file1 (Some d)).
    rewrite lookup_insert_eq. repeat split; try done. }
  split; [done|].
  apply open_found.
  - apply Forall_app. split; [done|]. constructor; [done|constructor].
  - by destruct segs.
  - rewrite (walk_app _ _ _ _ _ Hw). simpl. by rewrite Hfd, Hent.
Qed.

Lemma AddFile_then_open_witness :
  attached
    {[ 1%positive := set_entries NewRoot {[ "sub" := 2%positive ]};
       2%positive := set_entries (set_parent NewRoot (Some 1%positive))
                       {[ "f" := 3%positive ]};
       3%positive := mkFile 0 None 0 (mkFileInfo "f" 0 384) (Some 2%positive)
                       0 ∅ ]}
    2 [Name (mkFile 0 None 0 (mkFileInfo "f" 0 384) None 0 ∅)] 3
  ∧ open
      {[ 1%positive := set_entries NewRoot {[ "sub" := 2%positive ]};
         2%positive := set_entries (set_parent NewRoot (Some 1%positive))
                         {[ "f" := 3%positive ]};
         3%positive := mkFile 0 None 0 (mkFileInfo "f" 0 384)
                         (Some 2%positive) 0 ∅ ]}
      1 (String.concat "/"
           (["sub"] ++ [Name (mkFile 0 None 0 (mkFileInfo "f" 0 384) None 0 ∅)]))
    = Ret (Some 3%positive, None).
Proof.
  apply (AddFile_then_open
           {[ 1%positive := set_entries NewRoot {[ "sub" := 2%positive ]};
              2%positive := set_parent NewRoot (Some 1%positive);
              3%positive := mkFile 0 None 0 (mkFileInfo "f" 0 384) None 0 ∅ ]}
           _ 2 3 1 (mkFile 0 None 0 (mkFileInfo "f" 0 384) None 0 ∅) ["sub"]);
    [by vm_compute | reflexivity | by vm_compute | by repeat constructor
    | reflexivity].
Defined.

(** An [AddFile] that returns an error leaves every node as it was.
    The checks come in this order: the receiver is not a directory
    (ENOTDIR, with the joined names as the path), the node has a parent
    ([ErrHasParent], with the node's path), the node is neither a regular
    file nor a directory ([fs.ErrInvalid]), the directory has an entry of
    the node's name ([fs.ErrExist]). *)
Theorem AddFile_error_changes_nothing
    (h h' : heap) (d c : loc) (e : error) :
  AddFile h d c = Ret (h', Some e) →
  h' = h
  ∧ ∃ fil file,
      h !! d = Some fil ∧ h !! c = Some file
      ∧ ((IsDir fil = false
          ∧ e = PathError "open" (Join [info_name (info fil); Name file])
                  ENOTDIR)
         ∨ (IsDir fil = true ∧ parent file ≠ None
            ∧ ∃ pth, path h file = Ret pth
                     ∧ e = PathError "AddFile" pth ErrHasParent)
         ∨ (IsDir fil = true ∧ parent file = None
            ∧ Type_ file ≠ ModeDir ∧ Type_ file ≠ 0 ∧ e = ErrInvalid)
         ∨ (IsDir fil = true ∧ parent file = None
            ∧ (Type_ file = ModeDir ∨ Type_ file = 0)
            ∧ is_Some (entries fil !! Name file) ∧ e = ErrExist)).
Proof.
  unfold AddFile, deref. intros Ha.
  destruct (h !! d) as [fil|] eqn:Hd; [|done].
  destruct (h !! c) as [file|] eqn:Hc; [|done].
  simpl in Ha.
  destruct (IsDir fil) eqn:Hdir; simpl in Ha.
  2:{ injection Ha as <- <-. split; [done|]. exists fil, file. auto. }
  case_bool_decide as Hp.
  { inv_bind Ha. injection Ha as <- <-. split; [done|].
    exists fil, file. do 2 (split; [done|]). right. left. eauto. }
  assert (parent file = None) as Hp' by (destruct (parent file); naive_solver).
  destruct ((Type_ file =? ModeDir) || (Type_ file =? 0)) eqn:Ht; simpl in Ha.
  2:{ injection Ha as <- <-. split; [done|]. exists fil, file.
      do 2 (split; [done|]). right. right. left.
      apply orb_false_iff in Ht as [?%Z.eqb_neq ?%Z.eqb_neq]. auto. }
  apply orb_true_iff in Ht.
  destruct (entries fil !! Name file) eqn:He.
  - injection Ha as <- <-. split; [done|]. exists fil, file.
    do 2 (split; [done|]). right. right. right.
    repeat split; try done.
    destruct Ht as [?%Z.eqb_eq|?%Z.eqb_eq]; auto.
  - destruct (<[d := set_entries fil (<[Name file := c]> (entries fil))]> h !! c);
      simpl in Ha; done.
Qed.

Lemma AddFile_error_changes_nothing_witness :
  ({[ 1%positive := set_entries NewRoot {[ "f" := 3%positive ]};
      2%positive := mkFile 0 None 0 (mkFileInfo "f" 0 384) None 0 ∅ ]} : heap)
  = {[ 1%positive := set_entries NewRoot {[ "f" := 3%positive ]};
       2%positive := mkFile 0 None 0 (mkFileInfo "f" 0 384) None 0 ∅ ]}
  ∧ ∃ fil file,
      ({[ 1%positive := set_entries NewRoot {[ "f" := 3%positive ]};
          2%positive := mkFile 0 None 0 (mkFileInfo "f" 0 384) None 0 ∅ ]}
         : heap) !! 1%positive = Some fil
      ∧ ({[ 1%positive := set_entries NewRoot {[ "f" := 3%positive ]};
            2%positive := mkFile 0 None 0 (mkFileInfo "f" 0 384) None 0 ∅ ]}
           : heap) !! 2%positive = Some file
      ∧ ((IsDir fil = false
          ∧ ErrExist = PathError "open" (Join [info_name (info fil); Name file])
                         ENOTDIR)
         ∨ (IsDir fil = true ∧ parent file ≠ None
            ∧ ∃ pth,
                path {[ 1%positive := set_entries NewRoot {[ "f" := 3%positive ]};
                        2%positive := mkFile 0 None 0 (mkFileInfo "f" 0 384)
                                        None 0 ∅ ]} file = Ret pth
                ∧ ErrExist = PathError "AddFile" pth ErrHasParent)
         ∨ (IsDir fil = true ∧ parent file = None
            ∧ Type_ file ≠ ModeDir ∧ Type_ file ≠ 0 ∧ ErrExist = ErrInvalid)
         ∨ (IsDir fil = true ∧ parent file = None
            ∧ (Type_ file = ModeDir ∨ Type_ file = 0)
            ∧ is_Some (entries fil !! Name file) ∧ ErrExist = ErrExist)).
Proof.
  apply (AddFile_error_changes_nothing
           {[ 1%positive := set_entries NewRoot {[ "f" := 3%positive ]};
              2%positive := mkFile 0 None 0 (mkFileInfo "f" 0 384) None 0 ∅ ]}
           _ 1 2 ErrExist).
  by vm_compute.
Defined.

(** ** The file system of a directory *)

(** [fsDir.open] returns the node [open] returns; when a segment is
    missing it turns the error of [open] into openat and ENOENT with the
    same path, the missing segment; the error for a name that is no valid
    path stays as it is. *)
Theorem fsDir_open_errors :
  (∀ (h : heap) (dir l : loc) (segs : list string),
     Forall valid_segment segs → segs ≠ [] → walk h dir segs = Some l →
     fsDir_open h dir (String.concat "/" segs) = Ret (Some l, None))
  ∧ (∀ (h : heap) (dir d : loc) (fd : File) (pre post : list string)
       (seg : string),
       Forall valid_segment (pre ++ seg :: post) →
       walk h dir pre = Some d → h !! d = Some fd → entries fd !! seg = None →
       fsDir_open h dir (String.concat "/" (pre ++ seg :: post))
       = Ret (None, Some (PathError "openat" seg ENOENT)))
  ∧ (∀ (h : heap) (dir : loc) (name : string),
       ValidPath name = false →
       fsDir_open h dir name
       = Ret (None, Some (PathError "open" name ErrInvalid))).
Proof.
  split; [|split].
  - intros h dir l segs Hv Hne Hw. unfold fsDir_open.
    by rewrite (open_found _ _ _ l).
  - intros h dir d fd pre post seg Hv Hw Hd He. unfold fsDir_open, open.
    rewrite (open_go_missing h seg post pre _ dir d fd); try done.
    pose proof (length_concat_segments _ Hv). lia.
  - intros h dir name Hv. unfold fsDir_open, open. cbn [open_go].
    by rewrite Hv.
Qed.

Lemma fsDir_open_errors_witness :
  fsDir_open {[ 1%positive := set_entries NewRoot {[ "sub" := 2%positive ]};
                2%positive := NewRoot ]} 1
    (String.concat "/" (["sub"] ++ "nope" :: ["deeper"]))
  = Ret (None, Some (PathError "openat" "nope" ENOENT)).
Proof.
  apply (proj1 (proj2 fsDir_open_errors)
           {[ 1%positive := set_entries NewRoot {[ "sub" := 2%positive ]};
              2%positive := NewRoot ]} 1%positive 2%positive NewRoot
           ["sub"] ["deeper"] "nope");
    [by repeat constructor | reflexivity | reflexivity | reflexivity].
Defined.

Lemma walk_insert (h : heap) (l : loc) (fil fil' : File) (segs : list string) :
  h !! l = Some fil → entries fil' = entries fil →
  ∀ dir, walk (<[l := fil']> h) dir segs = walk h dir segs.
Proof.
  intros Hl He. induction segs as [|s segs IH]; intros dir; [done|].
  simpl. destruct (decide (dir = l)) as [->|Hne].
  - rewrite lookup_insert_eq, Hl, He. by destruct (entries fil !! s).
  - rewrite lookup_insert_ne by done.
    destruct (h !! dir) as [fd|]; [|done]. by destruct (entries fd !! s).
Qed.

Lemma ReadDir_EOF (h : heap) (fil : File) (n : Z) :
  IsDir fil = true → Z.of_nat (size (entries fil)) ≤ cursor fil →
  ReadDir h fil n = Ret (fil, (None, Some EOF)).
Proof.
  intros Hd Hc. unfold ReadDir. rewrite Hd. simpl.
  by destruct (Z.geb_spec (cursor fil) (Z.of_nat (size (entries fil))));
    [|lia].
Qed.

(** [fsDir.ReadDir] of a directory that has entries, none of them
    yielded yet, returns all of them in the order of their names; as the
    cursor it moves is the one of the node, the same call once more
    returns no entries and [io.EOF]. *)
Theorem fsDir_ReadDir_twice
    (h : heap) (dir l : loc) (fil : File) (segs : list string) :
  Forall valid_segment segs → segs ≠ [] → walk h dir segs = Some l →
  h !! l = Some fil → IsDir fil = true → cursor fil = 0 →
  0 < Z.of_nat (size (entries fil)) ≤ max_int64 →
  (∀ name m, entries fil !! name = Some m → is_Some (h !! m)) →
  let h' := <[l := set_cursor fil (Z.of_nat (size (entries fil)))]> h in
  ∃ ets,
    fsDir_ReadDir h dir (String.concat "/" segs) = Ret (h', (Some ets, None))
    ∧ Forall2 (listed h fil) (sorted_names fil) ets
    ∧ fsDir_ReadDir h' dir (String.concat "/" segs)
      = Ret (h', (None, Some EOF)).
Proof.
  intros Hv Hne Hw Hl Hd Hcur Hsize Hclosed h'.
  destruct (ReadDir_remaining h fil (-1)) as [Hall _]; try done; try lia.
  destruct Hall as (ets & Hrd & Hets); [lia|].
  rewrite Hcur in Hets. simpl in Hets.
  exists ets. split; [|split; [done|]].
  - unfold fsDir_ReadDir, fsDir_open. rewrite (open_found _ _ _ l) by done.
    rewrite !ret_bind. unfold deref. rewrite Hl, ret_bind, Hd. simpl negb.
    cbv iota. by rewrite Hrd.
  - assert (walk h' dir segs = Some l) as Hw'.
    { unfold h'. by rewrite (walk_insert h l fil). }
    unfold fsDir_ReadDir, fsDir_open. rewrite (open_found _ _ _ l) by done.
    assert (h' !! l = Some (set_cursor fil (Z.of_nat (size (entries fil)))))
      as Hl' by apply lookup_insert_eq.
    rewrite !ret_bind. unfold deref. rewrite Hl', ret_bind.
    replace (IsDir (set_cursor fil (Z.of_nat (size (entries fil))))) with true
      by done.
    simpl negb. cbv iota.
    rewrite ReadDir_EOF by (done || (simpl; lia)).
    rewrite ret_bind. unfold h'. by rewrite insert_insert_eq.
Qed.

Lemma fsDir_ReadDir_twice_witness :
  ∃ ets,
    fsDir_ReadDir
      {[ 1%positive := set_entries NewRoot {[ "sub" := 2%positive ]};
         2%positive := set_entries NewRoot {[ "f" := 3%positive ]};
         3%positive := mkFile 0 None 0 (mkFileInfo "f" 0 384) None 0 ∅ ]}
      1 (String.concat "/" ["sub"])
    = Ret (<[2%positive := set_cursor
               (set_entries NewRoot {[ "f" := 3%positive ]})
               (Z.of_nat (size (entries
                  (set_entries NewRoot {[ "f" := 3%positive ]}))))]>
             {[ 1%positive := set_entries NewRoot {[ "sub" := 2%positive ]};
                2%positive := set_entries NewRoot {[ "f" := 3%positive ]};
                3%positive := mkFile 0 None 0 (mkFileInfo "f" 0 384) None 0 ∅ ]},
           (Some ets, None))
    ∧ Forall2
        (listed
           {[ 1%positive := set_entries NewRoot {[ "sub" := 2%positive ]};
              2%positive := set_entries NewRoot {[ "f" := 3%positive ]};
              3%positive := mkFile 0 None 0 (mkFileInfo "f" 0 384) None 0 ∅ ]}
           (set_entries NewRoot {[ "f" := 3%positive ]}))
        (sorted_names (set_entries NewRoot {[ "f" := 3%positive ]})) ets
    ∧ fsDir_ReadDir
        (<[2%positive := set_cursor
             (set_entries NewRoot {[ "f" := 3%positive ]})
             (Z.of_nat (size (entries
                (set_entries NewRoot {[ "f" := 3%positive ]}))))]>
           {[ 1%positive := set_entries NewRoot {[ "sub" := 2%positive ]};
              2%positive := set_entries NewRoot {[ "f" := 3%positive ]};
              3%positive := mkFile 0 None 0 (mkFileInfo "f" 0 384) None 0 ∅ ]})
        1 (String.concat "/" ["sub"])
      = Ret (<[2%positive := set_cursor
                 (set_entries NewRoot {[ "f" := 3%positive ]})
                 (Z.of_nat (size (entries
                    (set_entries NewRoot {[ "f" := 3%positive ]}))))]>
               {[ 1%positive := set_entries NewRoot {[ "sub" := 2%positive ]};
                  2%positive := set_entries NewRoot {[ "f" := 3%positive ]};
                  3%positive := mkFile 0 None 0 (mkFileInfo "f" 0 384) None 0 ∅ ]},
             (None, Some EOF)).
Proof.
  apply (fsDir_ReadDir_twice
           {[ 1%positive := set_entries NewRoot {[ "sub" := 2%positive ]};
              2%positive := set_entries NewRoot {[ "f" := 3%positive ]};
              3%positive := mkFile 0 None 0 (mkFileInfo "f" 0 384) None 0 ∅ ]}
           1 2 (set_entries NewRoot {[ "f" := 3%positive ]}) ["sub"]);
    [by repeat constructor | done | reflexivity | reflexivity | reflexivity
    | reflexivity | vm_compute; split; [reflexivity|discriminate] |].
  intros name m. simpl. intros [<- <-]%lookup_singleton_Some.
  eexists. vm_compute. reflexivity.
Defined.

(** ** Reading a file of a directory *)

Lemma ReadAll_go_roomy (h : heap) (next_cap : nat → nat) (fuel : nat)
    (fil : File) (c : nat) :
  IsDir fil = false → buf_wf (buf fil) → 0 ≤ off fil ≤ blen (buf fil) →
  (Z.to_nat (blen (buf fil) - off fil) < c)%nat →
  ReadAll_go (S (S fuel)) next_cap h fil [] c
  = Ret (set_off fil (blen (buf fil)),
         (drop (Z.to_nat (off fil)) (bytes_of (buf fil)), None)).
Proof.
  intros Hd Hwf Ho Hc.
  pose proof (length_bytes_of _ Hwf) as Hlen.
  cbn [ReadAll_go]. simpl length. rewrite Nat.sub_0_r.
  destruct (decide (off fil = blen (buf fil))) as [He|Hne].
  - rewrite Read_EOF by (auto; lia). rewrite ret_bind. cbv beta iota.
    rewrite drop_ge by lia. rewrite <- He. by rewrite set_off_off.
  - rewrite Read_data by (auto; lia). rewrite ret_bind. cbv beta iota.
    set (rest := drop (Z.to_nat (off fil)) (bytes_of (buf fil))).
    assert (length rest = Z.to_nat (blen (buf fil) - off fil)) as Hrest
      by (unfold rest; lengths; lia).
    rewrite take_ge by lia. simpl app.
    replace (off fil + Z.of_nat (length rest)) with (blen (buf fil)) by lia.
    replace (length rest =? c)%nat with false
      by (symmetry; apply Nat.eqb_neq; lia).
    rewrite Read_EOF; cbn [buf off set_off]; auto; try lia.
    rewrite ret_bind. cbv beta iota. by rewrite app_nil_r.
Qed.

(** [ReadFile] on a directory, for the path of a file node below it,
    returns the bytes of the node from the node's offset to the end of its
    content, and no error; it leaves the node with the offset zero, so
    that a second call returns the whole content. *)
Theorem ReadFile_reads_from_the_offset
    (h : heap) (dir l : loc) (d file : File) (segs : list string)
    (next_cap : nat → nat) (fuel : nat) :
  h !! dir = Some d → IsDir d = true →
  Forall valid_segment segs → segs ≠ [] → walk h dir segs = Some l →
  h !! l = Some file → IsDir file = false → buf_wf (buf file) →
  0 ≤ off file ≤ Len file →
  let h' := <[l := set_off file 0]> h in
  ReadFile (S (S fuel)) next_cap h dir (String.concat "/" segs)
  = Ret (h', (Some (drop (Z.to_nat (off file)) (bytes_of (buf file))), None))
  ∧ ReadFile (S (S fuel)) next_cap h' dir (String.concat "/" segs)
    = Ret (h', (Some (bytes_of (buf file)), None)).
Proof.
  intros Hdir Hd Hv Hne Hw Hl Hf Hwf Ho h'. unfold Len in *.
  pose proof (blen_nonneg (buf file)) as Hl0.
  assert (dir ≠ l) as Hdl.
  { intros ->. rewrite Hdir in Hl. injection Hl as ->. congruence. }
  assert (∀ (g : heap) (f : File),
            g !! dir = Some d → walk g dir segs = Some l → g !! l = Some f →
            IsDir f = false → buf_wf (buf f) → 0 ≤ off f ≤ blen (buf f) →
            ReadFile (S (S fuel)) next_cap g dir (String.concat "/" segs)
            = Ret (<[l := set_off f 0]> g,
                   (Some (drop (Z.to_nat (off f)) (bytes_of (buf f))), None)))
    as Hgen.
  { intros g f Hgd Hgw Hgl Hgf Hgwf Hgo.
    unfold ReadFile, Open, deref. rewrite Hgd, ret_bind, Hd. simpl negb.
    cbv iota. rewrite (open_found _ _ _ l) by done. rewrite ret_bind.
    cbv beta iota. rewrite Hgl, ret_bind.
    assert (info_size (Stat f).1 = blen (buf f)) as ->.
    { unfold Stat, Size. simpl. by rewrite Hgf. }
    rewrite ReadAll_go_roomy by (done || lia). by rewrite ret_bind. }
  split; [by apply Hgen|].
  rewrite (Hgen h' (set_off file 0)).
  - unfold h'. by rewrite insert_insert_eq.
  - unfold h'. by rewrite lookup_insert_ne.
  - unfold h'. by rewrite (walk_insert h l file).
  - unfold h'. by rewrite lookup_insert_eq.
  - done.
  - done.
  - simpl. lia.
Qed.

Lemma ReadFile_reads_from_the_offset_witness :
  ReadFile 2 id
    {[ 1%positive := set_entries NewRoot {[ "f" := 2%positive ]};
       2%positive := mkFile 1 (bytes_lit [x01; x02; x03]) 0
                       (mkFileInfo "f" 3 384) None 0 ∅ ]}
    1 (String.concat "/" ["f"])
  = Ret (<[2%positive := set_off (mkFile 1 (bytes_lit [x01; x02; x03]) 0
                                    (mkFileInfo "f" 3 384) None 0 ∅) 0]>
           {[ 1%positive := set_entries NewRoot {[ "f" := 2%positive ]};
              2%positive := mkFile 1 (bytes_lit [x01; x02; x03]) 0
                              (mkFileInfo "f" 3 384) None 0 ∅ ]},
         (Some [x02; x03], None))
  ∧ ReadFile 2 id
      (<[2%positive := set_off (mkFile 1 (bytes_lit [x01; x02; x03]) 0
                                  (mkFileInfo "f" 3 384) None 0 ∅) 0]>
         {[ 1%positive := set_entries NewRoot {[ "f" := 2%positive ]};
            2%positive := mkFile 1 (bytes_lit [x01; x02; x03]) 0
                            (mkFileInfo "f" 3 384) None 0 ∅ ]})
      1 (String.concat "/" ["f"])
    = Ret (<[2%positive := set_off (mkFile 1 (bytes_lit [x01; x02; x03]) 0
                                      (mkFileInfo "f" 3 384) None 0 ∅) 0]>
             {[ 1%positive := set_entries NewRoot {[ "f" := 2%positive ]};
                2%positive := mkFile 1 (bytes_lit [x01; x02; x03]) 0
                                (mkFileInfo "f" 3 384) None 0 ∅ ]},
           (Some [x01; x02; x03], None)).
Proof.
  apply (ReadFile_reads_from_the_offset
           {[ 1%positive := set_entries NewRoot {[ "f" := 2%positive ]};
              2%positive := mkFile 1 (bytes_lit [x01; x02; x03]) 0
                              (mkFileInfo "f" 3 384) None 0 ∅ ]}
           1 2 (set_entries NewRoot {[ "f" := 2%positive ]})
           (mkFile 1 (bytes_lit [x01; x02; x03]) 0 (mkFileInfo "f" 3 384)
              None 0 ∅) ["f"] id 0);
    [reflexivity | reflexivity | by repeat constructor | done | reflexivity
    | reflexivity | reflexivity | simpl; lia | vm_compute; split; discriminate].
Defined.

(** ** Listing a directory page by page *)

Lemma listed_fun (h : heap) (fil : File) (name : string) (e1 e2 : FileInfo) :
  listed h fil name e1 → listed h fil name e2 → e1 = e2.
Proof.
  intros (l1 & f1 & Hl1 & Hf1 & ->) (l2 & f2 & Hl2 & Hf2 & ->).
  rewrite Hl1 in Hl2. injection Hl2 as <-. rewrite Hf1 in Hf2.
  by injection Hf2 as <-.
Qed.

Lemma listed_all_fun (h : heap) (fil : File) (names : list string)
    (ets1 ets2 : list FileInfo) :
  Forall2 (listed h fil) names ets1 → Forall2 (listed h fil) names ets2 →
  ets1 = ets2.
Proof.
  intros H1. revert ets2. induction H1 as [|n e ns es Hne _ IH]; intros ets2 H2.
  - by apply Forall2_nil_inv_l in H2.
  - apply Forall2_cons_inv_l in H2 as (e' & es' & He' & Hes' & ->).
    f_equal; [by eapply listed_fun|by apply IH].
Qed.

Lemma ReadDir_page (h : heap) (fil : File) (n : Z) :
  IsDir fil = true → 0 < n → 0 ≤ cursor fil → cursor fil + n ≤ max_int64 →
  cursor fil < Z.of_nat (size (entries fil)) →
  (∀ name l, entries fil !! name = Some l → is_Some (h !! l)) →
  ∃ ets,
    ReadDir h fil n
    = Ret (set_cursor fil (Z.min (cursor fil + n) (Z.of_nat (size (entries fil)))),
           (Some ets, None))
    ∧ Forall2 (listed h fil)
        (take (Z.to_nat n) (drop (Z.to_nat (cursor fil)) (sorted_names fil)))
        ets.
Proof.
  intros Hdir Hn Hcur Hmax Hc Hclosed. unfold ReadDir. rewrite Hdir.
  set (count := Z.of_nat (size (entries fil))) in *. simpl.
  destruct (Z.leb_spec n 0); [lia|].
  destruct (Z.geb_spec (cursor fil) count); [lia|].
  rewrite wrap64_id by (unfold min_int64, max_int64 in *; lia).
  set (end_ := if cursor fil + n >? count then count else cursor fil + n).
  assert (end_ = Z.min (cursor fil + n) count) as Hend.
  { unfold end_. destruct (Z.gtb_spec (cursor fil + n) count); lia. }
  rewrite Hend.
  destruct (Z.ltb_spec (Z.min (cursor fil + n) count - cursor fil) 0); [lia|].
  destruct (read_entries_spec h fil (sorted_names fil)
              (Z.to_nat (Z.min (cursor fil + n) count - cursor fil))
              (cursor fil))
    as (ets & -> & Hets); [done| |..].
  - rewrite sorted_names_length. unfold count in *. lia.
  - intros name [l Hl]%sorted_names_elem. eauto.
  - simpl. exists ets. split; [done|].
    destruct (Z.le_gt_cases (cursor fil + n) count).
    + by replace (Z.to_nat (Z.min (cursor fil + n) count - cursor fil))
        with (Z.to_nat n) in Hets by lia.
    + rewrite take_ge in Hets
        by (rewrite length_drop, sorted_names_length; unfold count in *; lia).
      rewrite take_ge
        by (rewrite length_drop, sorted_names_length; unfold count in *; lia).
      done.
Qed.

(** [ReadDir](n) with n > 0 on a directory that has entries left, when
    the cursor plus n is an [int], returns the next n entries in the order
    of their names, or all that remain when they are fewer, and moves the
    cursor behind them.  When entries remain after that, a [ReadDir](-1)
    returns them, and the two listings one after the other are the
    listing a single [ReadDir](-1) returns.  When the cursor plus n is
    beyond the largest [int], the call panics. *)
Theorem ReadDir_page_by_page (h : heap) (fil : File) (n : Z) :
  IsDir fil = true → 0 < n ≤ max_int64 → 0 ≤ cursor fil →
  cursor fil < Z.of_nat (size (entries fil)) →
  Z.of_nat (size (entries fil)) ≤ max_int64 →
  (∀ name l, entries fil !! name = Some l → is_Some (h !! l)) →
  let count := Z.of_nat (size (entries fil)) in
  (cursor fil + n ≤ max_int64 →
   ∃ ets,
     ReadDir h fil n
     = Ret (set_cursor fil (Z.min (cursor fil + n) count), (Some ets, None))
     ∧ Forall2 (listed h fil)
         (take (Z.to_nat n) (drop (Z.to_nat (cursor fil)) (sorted_names fil)))
         ets
     ∧ (cursor fil + n < count →
        ∃ ets',
          ReadDir h (set_cursor fil (cursor fil + n)) (-1)
          = Ret (set_cursor fil count, (Some ets', None))
          ∧ ReadDir h fil (-1)
            = Ret (set_cursor fil count, (Some (ets ++ ets'), None))))
  ∧ (max_int64 < cursor fil + n →
     ReadDir h fil n = Panic (PanicRuntime "makeslice: cap out of range")).
Proof.
  intros Hdir [Hn Hnmax] Hcur Hc Hsize Hclosed count. split; [intros Hmax|].
  2:{ intros Hover. unfold ReadDir. rewrite Hdir. fold count. simpl.
      destruct (Z.leb_spec n 0); [lia|].
      destruct (Z.geb_spec (cursor fil) count); [lia|].
      assert (wrap64 (cursor fil + n) = cursor fil + n - 2 ^ 64) as ->.
      { unfold wrap64, max_int64 in *.
        replace (cursor fil + n + 2 ^ 63)
          with (cursor fil + n - 2 ^ 63 + 1 * 2 ^ 64) by lia.
        rewrite Z.mod_add by lia. rewrite Z.mod_small; lia. }
      unfold max_int64 in *.
      destruct (Z.gtb_spec (cursor fil + n - 2 ^ 64) count); [lia|].
      destruct (Z.ltb_spec (cursor fil + n - 2 ^ 64 - cursor fil) 0); [done|lia]. }
  destruct (ReadDir_page h fil n) as (ets & Hrd & Hets); try done.
  exists ets. split; [done|]. split; [done|]. intros Hmore.
  destruct (ReadDir_remaining h (set_cursor fil (cursor fil + n)) (-1))
    as [Hrest _]; try done; try (simpl; lia).
  destruct Hrest as (ets' & Hrd' & Hets'); [simpl; fold count; lia|].
  destruct (ReadDir_remaining h fil (-1)) as [Hall _]; try done; try lia.
  destruct Hall as (ets0 & Hrd0 & Hets0); [fold count; lia|].
  exists ets'. split; [done|]. rewrite Hrd0. do 4 f_equal.
  eapply listed_all_fun; [done|].
  rewrite <- (take_drop (Z.to_nat n)
                (drop (Z.to_nat (cursor fil)) (sorted_names fil))).
  apply Forall2_app; [done|]. rewrite drop_drop.
  cbn [cursor set_cursor] in Hets'.
  replace (Z.to_nat (cursor fil) + Z.to_nat n)%nat
    with (Z.to_nat (cursor fil + n)) by lia.
  done.
Qed.

Lemma ReadDir_page_by_page_witness :
  (cursor (set_entries NewRoot {[ "a" := 2%positive; "b" := 3%positive ]}) + 1
   ≤ max_int64 →
   ∃ ets,
     ReadDir {[ 2%positive := NewRoot; 3%positive := NewRoot ]}
       (set_entries NewRoot {[ "a" := 2%positive; "b" := 3%positive ]}) 1
     = Ret (set_cursor
              (set_entries NewRoot {[ "a" := 2%positive; "b" := 3%positive ]})
              (Z.min (cursor (set_entries NewRoot {[ "a" := 2%positive; "b" := 3%positive ]}) + 1)
                 (Z.of_nat (size (entries (set_entries NewRoot {[ "a" := 2%positive; "b" := 3%positive ]}))))),
            (Some ets, None))
     ∧ Forall2
         (listed {[ 2%positive := NewRoot; 3%positive := NewRoot ]}
            (set_entries NewRoot {[ "a" := 2%positive; "b" := 3%positive ]}))
         (take (Z.to_nat 1)
            (drop (Z.to_nat (cursor (set_entries NewRoot {[ "a" := 2%positive; "b" := 3%positive ]})))
               (sorted_names
                  (set_entries NewRoot {[ "a" := 2%positive; "b" := 3%positive ]}))))
         ets
     ∧ (cursor (set_entries NewRoot {[ "a" := 2%positive; "b" := 3%positive ]}) + 1
        < (Z.of_nat (size (entries (set_entries NewRoot {[ "a" := 2%positive; "b" := 3%positive ]})))) →
        ∃ ets',
          ReadDir {[ 2%positive := NewRoot; 3%positive := NewRoot ]}
            (set_cursor
               (set_entries NewRoot {[ "a" := 2%positive; "b" := 3%positive ]})
               (cursor (set_entries NewRoot {[ "a" := 2%positive; "b" := 3%positive ]}) + 1))
            (-1)
          = Ret (set_cursor
                   (set_entries NewRoot {[ "a" := 2%positive; "b" := 3%positive ]})
                   (Z.of_nat (size (entries (set_entries NewRoot {[ "a" := 2%positive; "b" := 3%positive ]})))),
                 (Some ets', None))
          ∧ ReadDir {[ 2%positive := NewRoot; 3%positive := NewRoot ]}
              (set_entries NewRoot {[ "a" := 2%positive; "b" := 3%positive ]})
              (-1)
            = Ret (set_cursor
                     (set_entries NewRoot {[ "a" := 2%positive; "b" := 3%positive ]})
                     (Z.of_nat (size (entries (set_entries NewRoot {[ "a" := 2%positive; "b" := 3%positive ]})))),
                   (Some (ets ++ ets'), None))))
  ∧ (max_int64
     < cursor (set_entries NewRoot {[ "a" := 2%positive; "b" := 3%positive ]}) + 1 →
     ReadDir {[ 2%positive := NewRoot; 3%positive := NewRoot ]}
       (set_entries NewRoot {[ "a" := 2%positive; "b" := 3%positive ]}) 1
     = Panic (PanicRuntime "makeslice: cap out of range")).
Proof.
  apply (ReadDir_page_by_page
           {[ 2%positive := NewRoot; 3%positive := NewRoot ]}
           (set_entries NewRoot {[ "a" := 2%positive; "b" := 3%positive ]}) 1);
    [reflexivity | unfold max_int64; lia | simpl; lia | by vm_compute
    | by vm_compute |].
  intros name l. simpl.
  intros [[<- <-]|[_ [<- <-]%lookup_singleton_Some]]%lookup_insert_Some;
    eexists; vm_compute; reflexivity.
Defined.

(** ** The path of a node and its resolution *)

Lemma append_assoc (a b c : string) : a +:+ (b +:+ c) = (a +:+ b) +:+ c.
Proof.
  induction a as [|x a IH]; [done|].
  change (String x (a +:+ (b +:+ c)) = String x ((a +:+ b) +:+ c)).
  congruence.
Qed.

Lemma concat_snoc (pre : list string) (s : string) :
  pre ≠ [] →
  String.concat "/" (pre ++ [s]) = String.concat "/" pre +:+ String slash s.
Proof.
  induction pre as [|p pre IH]; [done|]. intros _.
  destruct pre as [|p' pre]; [done|].
  change ((p :: p' :: pre) ++ [s]) with (p :: ((p' :: pre) ++ [s])).
  rewrite !concat_cons by done. rewrite IH by done.
  rewrite <- append_assoc. done.
Qed.

Lemma Join_dot (s : string) : valid_segment s → Join ["."; s] = s.
Proof.
  intros Hs. pose proof Hs as (_ & He & Hsl).
  pose proof (valid_elem_nonempty _ He) as (Hne & _ & _ & Hemp).
  unfold Join. simpl. rewrite Hne. simpl. unfold Clean. simpl.
  change ("" +:+ s) with s. change (clean_step false [] ".") with (@nil string).
  rewrite (Split_no_slash s) by done. simpl.
  assert (Forall valid_segment [s]) as Hv by (constructor; [done|constructor]).
  pose proof (clean_steps false [s] [] Hv) as Hc. simpl in Hc.
  unfold nonempty in Hne. apply negb_true_iff in Hne.
  rewrite Hc. simpl. by rewrite Hne.
Qed.

Lemma Join_path_of (pre : list string) (s : string) :
  Forall valid_segment pre → valid_segment s →
  Join [path_of pre; s] = path_of (pre ++ [s])
  ∧ String.eqb (path_of pre) "" = false.
Proof.
  intros Hpre Hs. destruct (decide (pre = [])) as [->|Hne].
  { split; [by apply Join_dot|done]. }
  assert (path_of pre = String.concat "/" pre) as -> by (by destruct pre).
  assert (path_of (pre ++ [s]) = String.concat "/" (pre ++ [s])) as ->
    by (by destruct pre).
  assert (String.eqb (String.concat "/" pre) "" = false) as Hnz.
  { pose proof (length_concat_segments _ Hpre) as Hl.
    destruct (String.concat "/" pre); [|done].
    destruct pre; [done|simpl in Hl; lia]. }
  split; [|done].
  pose proof Hs as (_ & He & _).
  pose proof (valid_elem_nonempty _ He) as (Hnes & _).
  unfold Join. cbn [List.filter]. unfold nonempty at 1. rewrite Hnz, Hnes.
  cbn [negb].
  change (String.concat "/" [String.concat "/" pre; s])
    with (String.concat "/" pre +:+ String slash s).
  rewrite <- concat_snoc by done.
  apply Clean_concat; [|by destruct pre].
  apply Forall_app. split; [done|]. constructor; [done|constructor].
Qed.

Lemma attached_walk (h : heap) (segs : list string) :
  ∀ dir l, attached h dir segs l → walk h dir segs = Some l.
Proof.
  induction segs as [|s segs IH]; intros dir l; simpl.
  - by intros ->.
  - intros (d & m & fm & -> & -> & _ & _ & _ & Ha). by apply IH.
Qed.

Lemma path_go_attached (h : heap) (segs : list string) :
  ∀ (pre : list string) (cur l : loc) (fcur f : File) (n : nat),
    h !! cur = Some fcur → path_go n h fcur = Ret (path_of pre) →
    Forall valid_segment pre → Forall valid_segment segs →
    attached h cur segs l → h !! l = Some f →
    ∃ m, path_go m h f = Ret (path_of (pre ++ segs)).
Proof.
  induction segs as [|s segs IH]; intros pre cur l fcur f n Hcur Hp Hpre Hv Ha Hl.
  - simpl in Ha. subst l. rewrite Hcur in Hl. injection Hl as <-.
    exists n. by rewrite app_nil_r.
  - simpl in Ha. destruct Ha as (d & m & fm & Hd & He & Hm & Hpar & Hname & Ha).
    apply Forall_cons in Hv as [Hs Hv].
    destruct (Join_path_of pre s Hpre Hs) as [Hj Hnz].
    destruct (IH (pre ++ [s]) m l fm f (S n)) as [k Hk]; try done.
    + cbn [path_go]. rewrite Hpar, Hcur, Hp, ret_bind, Hnz, Hname. by rewrite Hj.
    + apply Forall_app. split; [done|]. constructor; [done|constructor].
    + exists k. by rewrite <- app_assoc in Hk.
Qed.

(** In a tree below a root directory (a node without a parent whose
    name is ".", as [NewRoot] makes it) where every node has the name of
    its entry and the directory of that entry as its parent, as [AddFile]
    leaves them, and the names that lead to a node are path elements
    [fs.ValidPath] accepts (valid UTF-8 without a slash, none of "", "."
    and ".."), the path of the node is the slash-separated list of these
    names, "." for the root itself, and [open] of that path on the root
    returns the node. *)
Theorem path_resolves_to_the_node
    (h : heap) (root l : loc) (fr f : File) (segs : list string) :
  h !! root = Some fr → parent fr = None → Name fr = "." →
  Forall valid_segment segs → attached h root segs l → h !! l = Some f →
  path h f = Ret (path_of segs)
  ∧ open h root (path_of segs) = Ret (Some l, None).
Proof.
  intros Hr Hpar Hname Hv Ha Hl. split.
  - destruct (path_go_attached h segs [] root l fr f 1) as [m Hm]; try done.
    { simpl. by rewrite Hpar, Hname. }
    simpl in Hm. rewrite <- Hm. apply path_fuel_enough. by rewrite Hm.
  - destruct segs as [|s segs].
    + simpl in Ha. by subst l.
    + apply open_found; [done|done|]. by apply attached_walk.
Qed.

Lemma path_resolves_to_the_node_witness :
  path {[ 1%positive := set_entries NewRoot {[ "sub" := 2%positive ]};
          2%positive := mkFile 0 None 0 (mkFileInfo "sub" 4096 (Z.lor 448 ModeDir))
                          (Some 1%positive) 0 {[ "f" := 3%positive ]};
          3%positive := mkFile 0 None 0 (mkFileInfo "f" 0 384)
                          (Some 2%positive) 0 ∅ ]}
    (mkFile 0 None 0 (mkFileInfo "f" 0 384) (Some 2%positive) 0 ∅)
  = Ret (path_of ["sub"; "f"])
  ∧ open {[ 1%positive := set_entries NewRoot {[ "sub" := 2%positive ]};
            2%positive := mkFile 0 None 0
                            (mkFileInfo "sub" 4096 (Z.lor 448 ModeDir))
                            (Some 1%positive) 0 {[ "f" := 3%positive ]};
            3%positive := mkFile 0 None 0 (mkFileInfo "f" 0 384)
                            (Some 2%positive) 0 ∅ ]}
      1 (path_of ["sub"; "f"])
    = Ret (Some 3%positive, None).
Proof.
  apply (path_resolves_to_the_node
           {[ 1%positive := set_entries NewRoot {[ "sub" := 2%positive ]};
              2%positive := mkFile 0 None 0
                              (mkFileInfo "sub" 4096 (Z.lor 448 ModeDir))
                              (Some 1%positive) 0 {[ "f" := 3%positive ]};
              3%positive := mkFile 0 None 0 (mkFileInfo "f" 0 384)
                              (Some 2%positive) 0 ∅ ]}
           1 3 (set_entries NewRoot {[ "sub" := 2%positive ]})
           (mkFile 0 None 0 (mkFileInfo "f" 0 384) (Some 2%positive) 0 ∅)
           ["sub"; "f"]);
    [reflexivity | reflexivity | reflexivity | by repeat constructor |
    | reflexivity].
  simpl. eexists _, 2%positive, _.
  split; [reflexivity|]. split; [reflexivity|]. split; [reflexivity|].
  split; [reflexivity|]. split; [reflexivity|].
  eexists _, 3%positive, _.
  split; [reflexivity|]. split; [reflexivity|]. split; [reflexivity|].
  split; [reflexivity|]. split; reflexivity.
Defined.

(** ** The names the constructors accept *)

Lemma Base_valid (name : string) :
  ValidPath name = true → contains_slash name = false → Base name = name.
Proof.
  intros Hv Hs. unfold Base.
  destruct name as [|c name]; [done|]. simpl String.eqb.
  rewrite (Split_no_slash _ Hs). done.
Qed.

(** The constructors accept exactly the names that are valid paths
    without a slash.  For such a name, [FileWith] without options makes a
    regular file without a parent that has the name given, the content
    given and the offset zero, [NewFile] one with an empty content in a
    buffer of capacity 512, and [NewDirectory] an empty directory of that
    name and of size 4096; for any other name each of them returns
    [fs.ErrInvalid], whatever the options. *)
Theorem constructors_check_the_name :
  (∀ (name : string) (content : option slice),
     ValidPath name = true → contains_slash name = false →
     ∃ fil nfil dir,
       FileWith name content [] = Ret (Some fil, None)
       ∧ Name fil = name ∧ IsDir fil = false ∧ Type_ fil = 0
       ∧ buf fil = content ∧ Size fil = blen content
       ∧ off fil = 0 ∧ parent fil = None
       ∧ NewFile name [] = Ret (Some nfil, None)
       ∧ Name nfil = name ∧ IsDir nfil = false
       ∧ Len nfil = 0 ∧ Cap nfil = 512
       ∧ NewDirectory name = Ret (Some dir, None)
       ∧ Name dir = name ∧ IsDir dir = true ∧ Type_ dir = ModeDir
       ∧ Size dir = 4096 ∧ entries dir = ∅ ∧ parent dir = None)
  ∧ (∀ (name : string) (content : option slice) (opts : list (File → File)),
       ValidPath name = false ∨ contains_slash name = true →
       FileWith name content opts = Ret (None, Some ErrInvalid)
       ∧ NewFile name opts = Ret (None, Some ErrInvalid)
       ∧ NewDirectory name = Ret (None, Some ErrInvalid)).
Proof.
  split.
  - intros name content Hv Hs.
    pose proof (Base_valid _ Hv Hs) as Hb.
    pose proof (blen_nonneg content) as Hl0.
    unfold NewDirectory, NewFile, FileWith. rewrite Hv, Hs. simpl.
    destruct (Z.gtb_spec 0 (blen content)); [lia|].
    eexists _, _, _. repeat split; done.
  - intros name content opts Hbad.
    assert (negb (ValidPath name) || contains_slash name = true) as Hc.
    { destruct Hbad as [-> | ->]; [done|]. by rewrite orb_true_r. }
    unfold NewDirectory, NewFile, FileWith. rewrite Hc. done.
Qed.

Lemma constructors_check_the_name_witness :
  FileWith "a/b" (bytes_lit [x01]) [WithFileAppend] = Ret (None, Some ErrInvalid)
  ∧ NewFile "a/b" [WithFileAppend] = Ret (None, Some ErrInvalid)
  ∧ NewDirectory "a/b" = Ret (None, Some ErrInvalid).
Proof.
  apply (proj2 constructors_check_the_name "a/b" (bytes_lit [x01])
           [WithFileAppend]).
  right. reflexivity.
Defined.

(** ** Operations on the wrong kind of node *)

(** On a directory, every operation on the content returns the
    [fs.PathError] of its kind with the path of the directory and EISDIR,
    and leaves the node as it was ([Grow] does nothing); on a regular file,
    [ReadDir] returns such an error with ENOTDIR. *)
Theorem operations_check_the_kind_of_node :
  (∀ {W : Type} (wr : Writer W) (w : W) (h : heap) (fil : File) (pth : string)
     (p : list byte) (b : byte) (o size offset whence n : Z) (k fuel : nat)
     (r : list chunk),
     IsDir fil = true → path h fil = Ret pth →
     Write h fil p = Ret (fil, (0, Some (PathError "write" pth EISDIR)))
     ∧ WriteByte h fil b = Ret (fil, Some (PathError "write" pth EISDIR))
     ∧ WriteAt h fil p o = Ret (fil, (0, Some (PathError "write" pth EISDIR)))
     ∧ WriteTo wr h fil w
       = Ret (fil, w, (0, Some (PathError "write" pth EISDIR)))
     ∧ ReadFrom fuel h fil r
       = Ret (fil, r, (0, Some (PathError "write" pth EISDIR)))
     ∧ Read h fil k = Ret (fil, ([], 0, Some (PathError "read" pth EISDIR)))
     ∧ ReadByte h fil = Ret (fil, (x00, Some (PathError "read" pth EISDIR)))
     ∧ ReadAt h fil k o
       = Ret (fil, ([], 0, Some (PathError "read" pth EISDIR)))
     ∧ Seek h fil offset whence
       = Ret (fil, (0, Some (PathError "seek" pth EISDIR)))
     ∧ Truncate h fil size
       = Ret (fil, Some (PathError "truncate" pth EISDIR))
     ∧ (0 ≤ n → Grow fil n = Ret fil))
  ∧ (∀ (h : heap) (fil : File) (pth : string) (n : Z),
       IsDir fil = false → path h fil = Ret pth →
       ReadDir h fil n
       = Ret (fil, (None, Some (PathError "ReadDir" pth ENOTDIR)))).
Proof.
  split.
  - intros W wr w h fil pth p b o size offset whence n k fuel r Hd Hp.
    unfold Write, WriteByte, WriteAt, WriteTo, ReadFrom, Read, ReadByte,
      ReadAt, Seek, Truncate, Grow, path_error.
    rewrite Hd, Hp. repeat split; try done.
    intros Hn. by destruct (Z.ltb_spec n 0); [lia|].
  - intros h fil pth n Hd Hp. unfold ReadDir, path_error. by rewrite Hd, Hp.
Qed.

Lemma operations_check_the_kind_of_node_witness :
  ReadDir ∅ (mkFile 0 None 0 (mkFileInfo "f" 0 384) None 0 ∅) (-1)
  = Ret (mkFile 0 None 0 (mkFileInfo "f" 0 384) None 0 ∅,
         (None, Some (PathError "ReadDir" "f" ENOTDIR))).
Proof.
  apply (proj2 operations_check_the_kind_of_node ∅
           (mkFile 0 None 0 (mkFileInfo "f" 0 384) None 0 ∅) "f" (-1));
    reflexivity.
Defined.

(** ** [fsDir.Stat] *)

Lemma contains_slash_app (a b : string) :
  contains_slash (a +:+ String slash b) = true.
Proof.
  induction a as [|c a IH]; [done|].
  change (contains_slash (String c (a +:+ String slash b)) = true).
  simpl. rewrite IH. apply orb_true_r.
Qed.

(** [fsDir.Stat] returns the information on the node an entry of the
    directory holds, with the size the node has at the time of the call; it
    does not resolve paths: in a directory whose entries have names without
    a slash, as [AddFile] names them for the nodes the constructors make,
    a path of two or more segments is reported as not existing, also when
    [open] finds a node for it. *)
Theorem fsDir_Stat_does_not_resolve_paths
    (h : heap) (dir l : loc) (d : File) (segs : list string) :
  h !! dir = Some d →
  (∀ k, is_Some (entries d !! k) → contains_slash k = false) →
  Forall valid_segment segs → (2 ≤ length segs)%nat →
  walk h dir segs = Some l →
  open h dir (String.concat "/" segs) = Ret (Some l, None)
  ∧ fsDir_Stat h dir (String.concat "/" segs)
    = Ret (None, Some (PathError "statat" (String.concat "/" segs) ENOENT))
  ∧ ∀ (name : string) (m : loc) (fil : File),
      entries d !! name = Some m → h !! m = Some fil →
      fsDir_Stat h dir name
      = Ret (Some (mkFileInfo (info_name (info fil)) (Size fil)
                     (info_mode (info fil))), None).
Proof.
  intros Hd Hkeys Hv Hlen Hw. split; [|split].
  - apply open_found; [done| |done]. destruct segs; [simpl in Hlen; lia|done].
  - unfold fsDir_Stat, deref. rewrite Hd, ret_bind.
    destruct (entries d !! String.concat "/" segs) as [m|] eqn:He; [|done].
    specialize (Hkeys _ (mk_is_Some _ _ He)).
    destruct segs as [|s [|s' segs]]; try (simpl in Hlen; lia).
    rewrite concat_cons in Hkeys by done.
    by rewrite contains_slash_app in Hkeys.
  - intros name m fil He Hm. unfold fsDir_Stat, deref.
    by rewrite Hd, ret_bind, He, Hm.
Qed.

Lemma fsDir_Stat_does_not_resolve_paths_witness :
  open {[ 1%positive := set_entries NewRoot {[ "sub" := 2%positive ]};
          2%positive := set_entries NewRoot {[ "f" := 3%positive ]};
          3%positive := mkFile 0 None 0 (mkFileInfo "f" 0 384) None 0 ∅ ]}
    1 (String.concat "/" ["sub"; "f"])
  = Ret (Some 3%positive, None)
  ∧ fsDir_Stat
      {[ 1%positive := set_entries NewRoot {[ "sub" := 2%positive ]};
         2%positive := set_entries NewRoot {[ "f" := 3%positive ]};
         3%positive := mkFile 0 None 0 (mkFileInfo "f" 0 384) None 0 ∅ ]}
      1 (String.concat "/" ["sub"; "f"])
    = Ret (None,
           Some (PathError "statat" (String.concat "/" ["sub"; "f"]) ENOENT))
  ∧ ∀ (name : string) (m : loc) (fil : File),
      entries (set_entries NewRoot {[ "sub" := 2%positive ]}) !! name = Some m →
      ({[ 1%positive := set_entries NewRoot {[ "sub" := 2%positive ]};
          2%positive := set_entries NewRoot {[ "f" := 3%positive ]};
          3%positive := mkFile 0 None 0 (mkFileInfo "f" 0 384) None 0 ∅ ]}
         : heap) !! m = Some fil →
      fsDir_Stat
        {[ 1%positive := set_entries NewRoot {[ "sub" := 2%positive ]};
           2%positive := set_entries NewRoot {[ "f" := 3%positive ]};
           3%positive := mkFile 0 None 0 (mkFileInfo "f" 0 384) None 0 ∅ ]}
        1 name
      = Ret (Some (mkFileInfo (info_name (info fil)) (Size fil)
                     (info_mode (info fil))), None).
Proof.
  apply (fsDir_Stat_does_not_resolve_paths
           {[ 1%positive := set_entries NewRoot {[ "sub" := 2%positive ]};
              2%positive := set_entries NewRoot {[ "f" := 3%positive ]};
              3%positive := mkFile 0 None 0 (mkFileInfo "f" 0 384) None 0 ∅ ]}
           1 3 (set_entries NewRoot {[ "sub" := 2%positive ]}) ["sub"; "f"]);
    [reflexivity | | by repeat constructor | simpl; lia | reflexivity].
  intros k [m Hm]. simpl in Hm.
  apply lookup_singleton_Some in Hm as [<- _]. reflexivity.
Defined.

(** ** Options *)

Lemma package_options_keep (opts : list (File → File)) (fil : File) :
  Forall package_option opts →
  let fil' := foldl (λ f opt, opt f) fil opts in
  buf fil' = buf fil ∧ info fil' = info fil ∧ parent fil' = parent fil
  ∧ entries fil' = entries fil ∧ cursor fil' = cursor fil.
Proof.
  intros Hopts. revert fil.
  induction Hopts as [|opt opts Hopt _ IH]; intros fil; [done|].
  simpl. destruct (IH (opt fil)) as (-> & -> & -> & -> & ->).
  by destruct Hopt.
Qed.

Lemma appending_lor (f : Z) :
  (Z.land (Z.lor f O_APPEND) O_APPEND =? 0) = false.
Proof.
  apply Z.eqb_neq. intros H.
  apply (f_equal (λ z, Z.testbit z 10)) in H.
  rewrite Z.land_spec, Z.lor_spec in H. simpl in H.
  by rewrite orb_true_r in H.
Qed.

(** The options are applied in the order given.  With [WithFileAppend] as
    the last one after options of the package, the file [FileWith] returns
    is a regular file in append mode with the content given: [WriteAt] on it
    returns [errWriteAtInAppendMode] and writes nothing, and [Write]
    appends to the content, whatever the offset. *)
Theorem WithFileAppend_as_last_option
    (name : string) (content : option slice) (opts : list (File → File))
    (fil : File) (h : heap) (p : list byte) (o : Z) :
  Forall package_option opts → buf_wf content →
  FileWith name content (opts ++ [WithFileAppend]) = Ret (Some fil, None) →
  appending fil = true ∧ IsDir fil = false ∧ buf fil = content
  ∧ WriteAt h fil p o = Ret (fil, (0, Some errWriteAtInAppendMode))
  ∧ ∃ fil', Write h fil p = Ret (fil', (Z.of_nat (length p), None))
      ∧ bytes_of (buf fil') = bytes_of content ++ p.
Proof.
  intros Hopts Hwf Hf. unfold FileWith in Hf.
  destruct (negb (ValidPath name) || contains_slash name); [done|].
  rewrite foldl_app in Hf. cbn [foldl] in Hf.
  set (fil0 := mkFile 0 content 0 (mkFileInfo name (blen content) 384) None 0 ∅)
    in Hf.
  destruct (package_options_keep opts fil0 Hopts) as (Hb & Hi & _).
  set (fil1 := foldl (λ f opt, opt f) fil0 opts) in *.
  destruct ((off (WithFileAppend fil1) <? 0)
            || (off (WithFileAppend fil1) >? blen (buf (WithFileAppend fil1))));
    [done|].
  injection Hf as <-.
  assert (appending (WithFileAppend fil1) = true) as Happ.
  { unfold appending, WithFileAppend. cbn [flag set_flag].
    by rewrite appending_lor. }
  assert (IsDir (WithFileAppend fil1) = false) as Hd.
  { unfold IsDir, WithFileAppend. cbn [info set_flag]. by rewrite Hi. }
  assert (buf (WithFileAppend fil1) = content) as Hbuf by done.
  do 3 (split; [done|]). split.
  - unfold WriteAt. by rewrite Hd, Happ.
  - destruct (Write_append h (WithFileAppend fil1) p) as (fil' & Hw & Hc & _);
      [done|done|by rewrite Hbuf|].
    exists fil'. split; [done|]. by rewrite Hc, Hbuf.
Qed.

Lemma WithFileAppend_as_last_option_witness :
  appending (mkFile 1 (bytes_lit [x01; x02]) O_APPEND (mkFileInfo "file" 2 384)
               None 0 ∅) = true
  ∧ IsDir (mkFile 1 (bytes_lit [x01; x02]) O_APPEND (mkFileInfo "file" 2 384)
             None 0 ∅) = false
  ∧ buf (mkFile 1 (bytes_lit [x01; x02]) O_APPEND (mkFileInfo "file" 2 384)
           None 0 ∅) = bytes_lit [x01; x02]
  ∧ WriteAt ∅ (mkFile 1 (bytes_lit [x01; x02]) O_APPEND
                 (mkFileInfo "file" 2 384) None 0 ∅) [x07] 0
    = Ret (mkFile 1 (bytes_lit [x01; x02]) O_APPEND (mkFileInfo "file" 2 384)
             None 0 ∅, (0, Some errWriteAtInAppendMode))
  ∧ ∃ fil', Write ∅ (mkFile 1 (bytes_lit [x01; x02]) O_APPEND
                       (mkFileInfo "file" 2 384) None 0 ∅) [x07]
            = Ret (fil', (1, None))
      ∧ bytes_of (buf fil') = [x01; x02] ++ [x07].
Proof.
  apply (WithFileAppend_as_last_option "file" (bytes_lit [x01; x02])
           [WithFileFlag 0; WithFileOffset 1]
           (mkFile 1 (bytes_lit [x01; x02]) O_APPEND (mkFileInfo "file" 2 384)
              None 0 ∅) ∅ [x07] 0);
    [repeat constructor | simpl; lia | reflexivity].
Defined.

(** ** Reading back what was written *)

Lemma sparse_write_read_back (c p : list byte) (o : nat) :
  take (length p) (drop o (sparse_write c o p)) = p.
Proof.
  apply at0_ext.
  - rewrite length_take, length_drop, length_sparse_write. lia.
  - intros i Hi. rewrite length_take, length_drop, length_sparse_write in Hi.
    rewrite at0_take, at0_drop, at0_sparse_write.
    repeat case_decide; try lia. f_equal. lia.
Qed.

(** On a file node whose bytes between the length and the capacity are
    zero, a [Write] of p, a [Seek] back by len(p) from the current offset
    and a [Read] of len(p) bytes return p again, with no error, and leave
    the offset behind p, where the [Write] left it: what is written at an
    offset of at most twice the capacity is what is read there, in append
    mode too. *)
Theorem Write_then_read_back (h : heap) (fil : File) (p : list byte) :
  IsDir fil = false → buf_ok (buf fil) →
  0 ≤ write_offset fil ≤ 2 * Cap fil →
  write_offset fil + Z.of_nat (length p) ≤ max_int64 →
  ∃ fil1,
    Write h fil p = Ret (fil1, (Z.of_nat (length p), None))
    ∧ Seek h fil1 (- Z.of_nat (length p)) 1
      = Ret (set_off fil1 (write_offset fil), (write_offset fil, None))
    ∧ Read h (set_off fil1 (write_offset fil)) (length p)
      = Ret (fil1, (p, Z.of_nat (length p), None)).
Proof.
  intros Hd Hok Ho Hmax. unfold Cap in *.
  pose proof (buf_ok_wf _ Hok) as Hwf.
  pose proof (blen_nonneg (buf fil)) as Hl0.
  destruct (write_full fil p) as [fil1 Hw]; [done..|].
  exists fil1. unfold Write. rewrite Hd, Hw. split; [done|].
  apply write_spec in Hw as (_ & _ & Hf & Hwf1 & Hl1 & _ & _ & Hc & _);
    [|done].
  set (o := write_offset fil) in *.
  assert (IsDir fil1 = false) as Hd1 by (by rewrite Hf).
  assert (off fil1 = o + Z.of_nat (length p)) as Hoff1 by (by rewrite Hf).
  split.
  - unfold Seek, seek_target. rewrite Hd1. simpl. rewrite Hoff1.
    replace (o + Z.of_nat (length p) + - Z.of_nat (length p)) with o by lia.
    rewrite wrap64_id by (unfold min_int64, max_int64 in *; lia).
    by destruct (Z.ltb_spec o 0); [lia|].
  - rewrite Read_data; cbn [buf off set_off]; auto; try lia.
    rewrite Hc by auto. rewrite (take_ge p) by lia.
    rewrite sparse_write_read_back.
    rewrite <- Hoff1. by rewrite set_off_set_off, set_off_off.
Qed.

Lemma Write_then_read_back_witness :
  ∃ fil1,
    Write ∅ (mkFile 1 (bytes_lit [x01; x02; x03]) 0 (mkFileInfo "file" 3 384)
               None 0 ∅) [x07; x08; x09]
    = Ret (fil1, (3, None))
    ∧ Seek ∅ fil1 (- 3) 1 = Ret (set_off fil1 1, (1, None))
    ∧ Read ∅ (set_off fil1 1) 3 = Ret (fil1, ([x07; x08; x09], 3, None)).
Proof.
  apply (Write_then_read_back ∅
           (mkFile 1 (bytes_lit [x01; x02; x03]) 0 (mkFileInfo "file" 3 384)
              None 0 ∅) [x07; x08; x09]);
    [reflexivity | by vm_compute | vm_compute; split; discriminate
    | by vm_compute].
Defined.
